(** * ISO document navigator: ingestion and retrieval edge functions

    A shallow embedding of the two TypeScript edge functions of the
    repository,

    - [supabase/functions/process-document/index.ts]: section extraction
      ([extractSections]), sentence packing ([chunkText]), the chunk rows
      and their storage ([serve]);
    - the chat function: search terms, the full-text search and its ILIKE
      fallback, context and sources, the system prompt ([serve]),

    together with the properties of the specification that concern them.

    Conventions of the model:

    - a JavaScript string is the list of its UTF-16 code units, a code
      unit a number; [length] is the [.length] of the source, and sizes
      are counted in characters, as the source counts them;
    - regular expressions are matchers for [split]: each gives, at a
      position, the length of the match that starts there;
    - the database is a pair of tables for the ingestion handler, whose
      requests fail as an oracle says; for the chat handler the answers
      of the database and of the completion endpoint, and the
      [toLowerCase] of the runtime, are parameters;
    - a handler is a function to its response (and to the database it
      leaves); a thrown error is a value. *)

From Stdlib Require Import String Ascii.
From Stdlib Require Decimal.
From Stdlib Require Import List Arith NArith Bool Lia.
From Stdlib Require Import Sorted.
From Stdlib Require Import Permutation.
From Equations Require Import Equations.
Import ListNotations.

(* ===================================================================== *)
(** * JavaScript strings *)
(* ===================================================================== *)

Module JS.

Definition char := N.
Definition jsstring := list char.

(** UTF-8 bytes of a literal of this file to UTF-16 code units (one-, two-
    and three-byte sequences: the Basic Multilingual Plane). *)
Fixpoint decode (bytes : list N) : jsstring :=
  match bytes with
  | [] => []
  | b :: rest =>
      if (b <? 128)%N then b :: decode rest
      else if (b <? 224)%N then
        match rest with
        | b2 :: rest' => ((b - 192) * 64 + (b2 - 128))%N :: decode rest'
        | [] => [b]
        end
      else
        match rest with
        | b2 :: b3 :: rest' =>
            ((b - 224) * 4096 + (b2 - 128) * 64 + (b3 - 128))%N :: decode rest'
        | _ => [b]
        end
  end.

Definition lit (s : String.string) : jsstring :=
  decode (map Ascii.N_of_ascii (String.list_ascii_of_string s)).
Arguments lit s%_string_scope.

Definition nl : jsstring := [10%N].
Definition dquote : jsstring := [34%N].

Definition streq (a b : jsstring) : bool :=
  if list_eq_dec N.eq_dec a b then true else false.

(** Truthiness of a string: the empty string is the only falsy one. *)
Definition truthy (s : jsstring) : bool :=
  match s with [] => false | _ :: _ => true end.

(** The characters matched by [\s] and stripped by [trim]: WhiteSpace and
    LineTerminator of ECMAScript. *)
Definition isWhiteSpace (c : char) : bool :=
  existsb (N.eqb c)
    [9; 10; 11; 12; 13; 32; 160; 5760;
     8192; 8193; 8194; 8195; 8196; 8197; 8198; 8199; 8200; 8201; 8202;
     8232; 8233; 8239; 8287; 12288; 65279]%N.

(** [\d] *)
Definition isDigit (c : char) : bool := (48 <=? c)%N && (c <=? 57)%N.

(** [[A-Z]] *)
Definition isUpperAZ (c : char) : bool := (65 <=? c)%N && (c <=? 90)%N.

Fixpoint dropWhile (p : char -> bool) (s : jsstring) : jsstring :=
  match s with
  | [] => []
  | c :: rest => if p c then dropWhile p rest else s
  end.

Fixpoint takeWhile (p : char -> bool) (s : jsstring) : jsstring :=
  match s with
  | [] => []
  | c :: rest => if p c then c :: takeWhile p rest else []
  end.

Definition trimStart (s : jsstring) : jsstring := dropWhile isWhiteSpace s.
Definition trimEnd (s : jsstring) : jsstring := rev (dropWhile isWhiteSpace (rev s)).

(** [String.prototype.trim] *)
Definition trim (s : jsstring) : jsstring := trimEnd (trimStart s).

(** [Array.prototype.join] *)
Fixpoint join (sep : jsstring) (parts : list jsstring) : jsstring :=
  match parts with
  | [] => []
  | [p] => p
  | p :: rest => p ++ sep ++ join sep rest
  end.

(** ** [String.prototype.split] with a regular expression

    The separators of the source never match the empty string.  A matcher
    is asked, at a position, for the length of the match that starts
    there; it sees the character before the position (for the lookbehind)
    and the rest of the string from the position on.

    [splitRegex m skip prev s] follows the [p]/[q] scan of the language
    definition: outside a match ([skip = 0]) the matcher is tried at the
    current position; when it fails the character joins the piece being
    built and the scan moves on by one; when it succeeds the piece is
    closed and the matched characters are skipped.  The end of the string
    closes the last piece, so the result is never empty and the empty
    string splits into one empty piece. *)
Definition matcher := option char -> jsstring -> option nat.

Definition consHead (c : char) (pieces : list jsstring) : list jsstring :=
  match pieces with
  | [] => [[c]]
  | p :: ps => (c :: p) :: ps
  end.

Fixpoint splitRegex (m : matcher) (skip : nat) (prev : option char)
    (s : jsstring) : list jsstring :=
  match s with
  | [] => [[]]
  | c :: rest =>
      match skip with
      | S k => splitRegex m k (Some c) rest
      | O =>
          match m prev s with
          | Some (S k) => [] :: splitRegex m k (Some c) rest
          | _ => consHead c (splitRegex m 0 (Some c) rest)
          end
      end
  end.

Definition split (m : matcher) (s : jsstring) : list jsstring :=
  splitRegex m 0 None s.

(** Length of the run matched by a greedy [\s+] at the head of [s]
    (0: no match). *)
Definition wsRun (s : jsstring) : nat := length (takeWhile isWhiteSpace s).

Definition someIfPos (n : nat) : option nat :=
  match n with O => None | S _ => Some n end.

(** [/\s+/] *)
Definition reWhiteSpace : matcher := fun _ s => someIfPos (wsRun s).

(** [Number.prototype.toString] of a natural number, radix 10. *)
Fixpoint digits (u : Decimal.uint) : jsstring :=
  match u with
  | Decimal.Nil => []
  | Decimal.D0 r => 48%N :: digits r
  | Decimal.D1 r => 49%N :: digits r
  | Decimal.D2 r => 50%N :: digits r
  | Decimal.D3 r => 51%N :: digits r
  | Decimal.D4 r => 52%N :: digits r
  | Decimal.D5 r => 53%N :: digits r
  | Decimal.D6 r => 54%N :: digits r
  | Decimal.D7 r => 55%N :: digits r
  | Decimal.D8 r => 56%N :: digits r
  | Decimal.D9 r => 57%N :: digits r
  end.

Definition numberToString (n : nat) : jsstring := digits (Nat.to_uint n).

(** A string holds a character that is not white space. *)
Definition hasNonWs (s : jsstring) : bool :=
  existsb (fun c => negb (isWhiteSpace c)) s.

(** The visible characters of a string: what is left of it when white
    space is taken out. *)
Definition nonWs (s : jsstring) : jsstring :=
  filter (fun c => negb (isWhiteSpace c)) s.

(** [String.prototype.startsWith] *)
Fixpoint startsWith (p s : jsstring) : bool :=
  match p with
  | [] => true
  | a :: p' =>
      match s with
      | b :: s' => N.eqb a b && startsWith p' s'
      | [] => false
      end
  end.

(** ** The [exec] loop of a global regular expression

    The expressions looped over never match the empty string and look
    neither behind nor past their match.  A capturing matcher gives, for
    the rest of the string from a position, the length of the match that
    starts there and its first capture group.  [matchAll m skip s] lists
    the captures of the successive leftmost matches: where the matcher
    fails the scan moves on by one, where it succeeds the capture is
    taken and the scan resumes behind the match. *)
Definition captureMatcher := jsstring -> option (nat * jsstring).

Fixpoint matchAll (m : captureMatcher) (skip : nat) (s : jsstring)
  : list jsstring :=
  match s with
  | [] => []
  | _ :: rest =>
      match skip with
      | S k => matchAll m k rest
      | O =>
          match m s with
          | Some (S k, capture) => capture :: matchAll m k rest
          | _ => matchAll m 0 rest
          end
      end
  end.

(** [s.replace(/ab/g, by)] for a pattern of two given characters: the
    occurrences are replaced from left to right, without overlap. *)
Fixpoint replacePair (a b : char) (by_ : jsstring) (s : jsstring) : jsstring :=
  match s with
  | [] => []
  | x :: rest =>
      match rest with
      | y :: rest' =>
          if N.eqb x a && N.eqb y b
          then by_ ++ replacePair a b by_ rest'
          else x :: replacePair a b by_ rest
      | [] => [x]
      end
  end.

(** [s.replace(/\s+/g, " ")]: every run of white space becomes one space
    ([inRun]: the character before belongs to a run). *)
Fixpoint collapseWhiteSpace (inRun : bool) (s : jsstring) : jsstring :=
  match s with
  | [] => []
  | c :: rest =>
      if isWhiteSpace c
      then if inRun then collapseWhiteSpace true rest
           else 32%N :: collapseWhiteSpace true rest
      else c :: collapseWhiteSpace false rest
  end.

(** A matcher for [split] that matches white space only. *)
Definition wsMatcher (m : matcher) : Prop :=
  forall prev s k, m prev s = Some k -> k <= wsRun s.

(** White space occurs in a string only as single spaces: every white
    space character is a space and is not followed by white space. *)
Fixpoint singleSpaced (s : jsstring) : bool :=
  match s with
  | [] => true
  | c :: rest =>
      (if isWhiteSpace c
       then N.eqb c 32 &&
            match rest with
            | d :: _ => negb (isWhiteSpace d)
            | [] => true
            end
       else true)
      && singleSpaced rest
  end.

End JS.

Import JS.

(* ===================================================================== *)
(** * process-document: sections and chunks *)
(* ===================================================================== *)

Module ProcessDocument.

(** [[.!?]] *)
Definition isSentenceEnd (c : char) : bool :=
  N.eqb c 46 || N.eqb c 33 || N.eqb c 63.

Definition prevIs (p : char -> bool) (prev : option char) : bool :=
  match prev with Some c => p c | None => false end.

(** [/(?<=[.!?])\s+/] *)
Definition reSentenceGap : matcher := fun prev s =>
  if prevIs isSentenceEnd prev then someIfPos (wsRun s) else None.

(** One iteration of the loop of [chunkText]; the state is
    [(chunks, currentChunk)]. *)
Definition chunkStep (maxChunkSize : nat) (st : list jsstring * jsstring)
    (sentence : jsstring) : list jsstring * jsstring :=
  let (chunks, currentChunk) := st in
  if (maxChunkSize <? length currentChunk + length sentence) && truthy currentChunk
  then (chunks ++ [trim currentChunk], sentence)
  else (chunks, currentChunk ++ (if truthy currentChunk then lit " " else []) ++ sentence).

Definition chunkLoop (maxChunkSize : nat) (sentences : list jsstring)
  : list jsstring * jsstring :=
  fold_left (chunkStep maxChunkSize) sentences ([], []).

Definition chunkFinish (st : list jsstring * jsstring) : list jsstring :=
  let (chunks, currentChunk) := st in
  if truthy (trim currentChunk) then chunks ++ [trim currentChunk] else chunks.

Definition chunkText (text : jsstring) (maxChunkSize : nat) : list jsstring :=
  chunkFinish (chunkLoop maxChunkSize (split reSentenceGap text)).

Definition defaultMaxChunkSize : nat := 1500.

(** ** Sections *)

Module Section_.
Record t := mk {
  section : jsstring;
  subsection : jsstring;
  content : jsstring;
  page : nat
}.
End Section_.

(** [/\n|(?<=\.)\s+(?=[A-Z])/]: a line feed, or white space between a full
    stop and a capital letter.  Only the whole run of white space can be
    followed by a letter, so the run is matched whole or not at all. *)
Definition reLineBreak : matcher := fun prev s =>
  match s with
  | [] => None
  | c :: _ =>
      if N.eqb c 10 then Some 1
      else if prevIs (N.eqb 46) prev then
        match dropWhile isWhiteSpace s with
        | c' :: _ => if isUpperAZ c' then someIfPos (wsRun s) else None
        | [] => None
        end
      else None
  end.

(** The characters matched by the greedy [\d+(?:\.\d+)*] at the head of
    a string ([afterDigit]: the scan is just behind a digit). *)
Fixpoint numberPrefix (afterDigit : bool) (s : jsstring) : jsstring :=
  match s with
  | [] => []
  | c :: rest =>
      if isDigit c then c :: numberPrefix true rest
      else if afterDigit && N.eqb c 46 then
        match rest with
        | d :: _ => if isDigit d then c :: numberPrefix false rest else []
        | [] => []
        end
      else []
  end.

(** [line.match(...)] with the pattern of a section heading: at the start
    of the line a number [\d+(?:\.\d+)*], captured, then [\s+].  The
    result is the capture.  A shorter number would be followed by a digit
    or a dot, never by white space, so the match is the greedy one or
    none. *)
Definition sectionMatch (line : jsstring) : option jsstring :=
  match numberPrefix false line with
  | [] => None
  | num =>
      match skipn (length num) line with
      | c :: _ => if isWhiteSpace c then Some num else None
      | [] => None
      end
  end.

(** [num.split(".")[0]] *)
Definition firstPart (num : jsstring) : jsstring :=
  takeWhile (fun c => negb (N.eqb c 46)) num.

(** [Math.ceil(charCount / 3000)] *)
Definition estimatePage (charCount : nat) : nat := (charCount + 2999) / 3000.

Record scanState := mkScan {
  sections : list Section_.t;
  currentSection : jsstring;
  currentSubsection : jsstring;
  currentContent : jsstring;
  estimatedPage : nat;
  charCount : nat
}.

Definition saveSection (st : scanState) (pageNow : nat) : list Section_.t :=
  if truthy (trim (currentContent st))
  then sections st ++
       [Section_.mk (currentSection st) (currentSubsection st)
                    (trim (currentContent st)) pageNow]
  else sections st.

Definition lineStep (st : scanState) (line : jsstring) : scanState :=
  let charCount' := charCount st + length line in
  let estimatedPage' := estimatePage charCount' in
  match sectionMatch line with
  | Some num =>
      mkScan (saveSection st estimatedPage') (firstPart num) num line
             estimatedPage' charCount'
  | None =>
      mkScan (sections st) (currentSection st) (currentSubsection st)
             (currentContent st ++ lit " " ++ line) estimatedPage' charCount'
  end.

Definition extractSections (text : jsstring) : list Section_.t :=
  let st := fold_left lineStep (split reLineBreak text)
                      (mkScan [] (lit "1") [] [] 1 0) in
  saveSection st (estimatedPage st).

(** ** Chunk rows *)

Module Chunk.
Record t := mk {
  document_id : jsstring;
  chunk_index : nat;
  content : jsstring;
  section : jsstring;
  subsection : jsstring;
  page_number : nat
}.
End Chunk.

(** The body of the inner loop over [sectionChunks]; the state is
    [(allChunks, chunkIndex)]. *)
Definition pushSectionChunk (documentId : jsstring) (sec : Section_.t)
    (st : list Chunk.t * nat) (chunkContent : jsstring) : list Chunk.t * nat :=
  let (allChunks, chunkIndex) := st in
  (allChunks ++
     [Chunk.mk documentId chunkIndex chunkContent
               (Section_.section sec) (Section_.subsection sec) (Section_.page sec)],
   S chunkIndex).

Definition pushSection (documentId : jsstring) (st : list Chunk.t * nat)
    (sec : Section_.t) : list Chunk.t * nat :=
  fold_left (pushSectionChunk documentId sec)
            (chunkText (Section_.content sec) defaultMaxChunkSize) st.

(** The body of the fallback loop; the state is
    [(allChunks, chunkIndex, page)]. *)
Definition pushFallbackChunk (documentId : jsstring)
    (st : list Chunk.t * nat * nat) (chunkContent : jsstring)
  : list Chunk.t * nat * nat :=
  let '(allChunks, chunkIndex, page) := st in
  (allChunks ++ [Chunk.mk documentId chunkIndex chunkContent (lit "1") [] page],
   S chunkIndex, S page).

Definition buildChunks (documentId : jsstring) (sections : list Section_.t)
    (extractedText : jsstring) : list Chunk.t :=
  match sections with
  | _ :: _ => fst (fold_left (pushSection documentId) sections ([], 0))
  | [] =>
      fst (fst (fold_left (pushFallbackChunk documentId)
                          (chunkText extractedText defaultMaxChunkSize)
                          ([], 0, 1)))
  end.

(** ** The database and the request handler

    The tables the function writes.  [iso_chunks] holds the columns the
    function supplies ([id] and [created_at] are database defaults);
    [processed] is the only status column of [iso_documents]. *)

Record DocumentRow := mkDocument {
  id : jsstring;
  filename : jsstring;
  processed : bool
}.

Record Database := mkDatabase {
  iso_chunks : list Chunk.t;
  iso_documents : list DocumentRow
}.

(** Which requests to the database fail during one run of the handler:
    the delete, the insert of the batch that starts at a given offset (with
    the message of its error), the final update. *)
Record Faults := mkFaults {
  deleteFails : bool;
  insertError : nat -> option jsstring;
  updateFails : bool
}.

Definition noFaults : Faults := mkFaults false (fun _ => None) false.

(** A computation over the database that returns or throws. *)
Inductive outcome (A : Type) : Type :=
| Return (a : A)
| Throw (message : jsstring).
Arguments Return {A} a.
Arguments Throw {A} message.

Definition M (A : Type) : Type := Database -> outcome A * Database.

Definition ret {A} (a : A) : M A := fun db => (Return a, db).
Definition throw {A} (message : jsstring) : M A := fun db => (Throw message, db).
Definition bind {A B} (m : M A) (k : A -> M B) : M B := fun db =>
  match m db with
  | (Return a, db') => k a db'
  | (Throw e, db') => (Throw e, db')
  end.
Definition tryCatch {A} (m : M A) (handler : jsstring -> M A) : M A := fun db =>
  match m db with
  | (Return a, db') => (Return a, db')
  | (Throw e, db') => handler e db'
  end.

Declare Scope db_scope.
Delimit Scope db_scope with db.
Notation "x <- m ;; k" := (bind m (fun x => k))
  (at level 61, m at next level, right associativity) : db_scope.
Notation "m ;; k" := (bind m (fun _ => k))
  (at level 61, right associativity) : db_scope.
Open Scope db_scope.

(** [.from("iso_chunks").delete().eq("document_id", documentId)]; the
    handler does not look at the result. *)
Definition deleteChunks (f : Faults) (documentId : jsstring) : M unit := fun db =>
  if deleteFails f then (Return tt, db)
  else (Return tt,
        mkDatabase
          (filter (fun r => negb (streq (Chunk.document_id r) documentId)) (iso_chunks db))
          (iso_documents db)).

(** [.from("iso_chunks").insert(batch)]: the error of the request, if any.
    One insert is one statement: it stores the whole batch or nothing. *)
Definition insertChunks (f : Faults) (offset : nat) (batch : list Chunk.t)
  : M (option jsstring) := fun db =>
  match insertError f offset with
  | Some message => (Return (Some message), db)
  | None => (Return None, mkDatabase (iso_chunks db ++ batch) (iso_documents db))
  end.

(** [.from("iso_documents").update({ processed: true }).eq("id", documentId)];
    the handler does not look at the result. *)
Definition markProcessed (f : Faults) (documentId : jsstring) : M unit := fun db =>
  if updateFails f then (Return tt, db)
  else (Return tt,
        mkDatabase (iso_chunks db)
          (map (fun d => if streq (id d) documentId
                         then mkDocument (id d) (filename d) true else d)
               (iso_documents db))).

Definition batchSize : nat := 50.

(** [allChunks.slice(i, i + batchSize)] *)
Definition slice (i j : nat) (l : list Chunk.t) : list Chunk.t :=
  firstn (j - i) (skipn i l).

(** [for (let i = 0; i < allChunks.length; i += batchSize) ...], entered
    at offset [i]. *)
Equations? insertBatches (f : Faults) (allChunks : list Chunk.t) (i : nat)
    (db : Database) : outcome unit * Database
  by wf (length allChunks - i) lt :=
  insertBatches f allChunks i db with lt_dec i (length allChunks) => {
    | left _ with insertChunks f i (slice i (i + batchSize) allChunks) db => {
        | (Return (Some message), db') =>
            (Throw (lit "Failed to insert chunks: " ++ message), db')
        | (Return None, db') => insertBatches f allChunks (i + batchSize) db'
        | (Throw e, db') => (Throw e, db') }
    | right _ => ret tt db }.
Proof. unfold batchSize. lia. Qed.

(** The file the storage bucket returns: the text [extractTextFromPDF]
    finds in it and its content read as text. *)
Record File := mkFile {
  pdfText : jsstring;
  rawText : jsstring
}.

Inductive Download :=
| Downloaded (file : File)
| DownloadError (message : jsstring).

Record ProcessRequest := mkRequest {
  documentId : jsstring;
  filePath : jsstring;
  req_filename : jsstring
}.

Inductive Response :=
| Success (chunks_created text_length sections_found : nat)
| Failure (status : nat) (error : jsstring).

Definition extractionMessage : jsstring :=
  lit "Could not extract meaningful text from the document. The PDF might be image-based and require OCR.".

(** [extractedText]: the text of the PDF, or the raw text when the PDF
    gave fewer than 100 characters. *)
Definition extractedTextOf (file : File) : jsstring :=
  if length (pdfText file) <? 100 then rawText file else pdfText file.

(** The [try] block of the handler, from the download on. *)
Definition process (f : Faults) (req : ProcessRequest) (download : Download)
  : M Response :=
  match download with
  | DownloadError message => throw (lit "Failed to download file: " ++ message)
  | Downloaded file =>
      let extractedText := extractedTextOf file in
      if length extractedText <? 50 then throw extractionMessage
      else
        let sections := extractSections extractedText in
        let allChunks := buildChunks (documentId req) sections extractedText in
        deleteChunks f (documentId req) ;;
        insertBatches f allChunks 0 ;;
        markProcessed f (documentId req) ;;
        ret (Success (length allChunks) (length extractedText) (length sections))
  end.

(** The handler of a POST request: an error thrown anywhere becomes a
    response of status 500 carrying its message. *)
Definition serve (f : Faults) (req : ProcessRequest) (download : Download)
  : M Response :=
  tryCatch (process f req download) (fun message => ret (Failure 500 message)).

(** The state of the chunks of one document. *)
Definition chunksOf (documentId : jsstring) (db : Database) : list Chunk.t :=
  filter (fun r => streq (Chunk.document_id r) documentId) (iso_chunks db).

Definition otherChunks (documentId : jsstring) (db : Database) : list Chunk.t :=
  filter (fun r => negb (streq (Chunk.document_id r) documentId)) (iso_chunks db).

(** ** Sentence groups

    A chunk is the trimmed join of a group of whole sentences. *)

Definition joinSp (g : list jsstring) : jsstring := join (lit " ") g.

Definition chunkOfGroup (g : list jsstring) : jsstring := trim (joinSp g).

(** The characters of the sentences of a group, joining spaces apart. *)
Definition totalLength (g : list jsstring) : nat :=
  list_sum (map (@length char) g).

(** A group closed by the loop: sentences before the last one of the
    text, packed while the test of the loop allowed. *)
Definition closedGroup (maxChunkSize : nat) (g : list jsstring) : Prop :=
  g <> [] /\
  Forall (fun s => hasNonWs s = true) g /\
  (length g = 1 \/ length (joinSp g) <= S maxChunkSize).

(** A group that became a chunk. *)
Definition packedGroup (maxChunkSize : nat) (g : list jsstring) : Prop :=
  g <> [] /\
  hasNonWs (joinSp g) = true /\
  (length g = 1 \/ length (joinSp g) <= S maxChunkSize).

(** ** Text of a PDF

    [extractTextFromPDF] works on the bytes of the file decoded as UTF-8;
    the model starts from the decoded text. *)

(** The parenthesised literal at the head of a string, its pattern being
    an opening parenthesis, one or more characters other than the closing
    one (captured), and the closing parenthesis.  The capture is the whole
    run up to the first closing parenthesis, which must exist. *)
Definition reParen : captureMatcher := fun s =>
  match s with
  | [] => None
  | c :: rest =>
      if N.eqb c 40 then
        let run := takeWhile (fun x => negb (N.eqb x 41)) rest in
        match run, dropWhile (fun x => negb (N.eqb x 41)) rest with
        | _ :: _, _ :: _ => Some (length run + 2, run)
        | _, _ => None
        end
      else None
  end.

(** The same literal followed by [\s*Tj]. *)
Definition reTj : captureMatcher := fun s =>
  match reParen s with
  | Some (n, run) =>
      let after := skipn n s in
      if startsWith (lit "Tj") (dropWhile isWhiteSpace after)
      then Some (n + wsRun after + 2, run)
      else None
  | None => None
  end.

(** The lazy group before [\s*ET]: the text up to the earliest position
    from which white space and then [ET] follow, with the length of that
    white space and [ET]. *)
Fixpoint untilET (s : jsstring) : option (jsstring * nat) :=
  if startsWith (lit "ET") (dropWhile isWhiteSpace s)
  then Some ([], wsRun s + 2)
  else
    match s with
    | [] => None
    | c :: rest =>
        match untilET rest with
        | Some (block, n) => Some (c :: block, n)
        | None => None
        end
    end.

(** [/BT\s*([\s\S]*?)\s*ET/] at the head of a string. *)
Definition reBtEt : captureMatcher := fun s =>
  if startsWith (lit "BT") s then
    let after := skipn 2 s in
    match untilET (dropWhile isWhiteSpace after) with
    | Some (block, n) => Some (2 + wsRun after + length block + n, block)
    | None => None
    end
  else None.

(** The chain of replacements applied to a literal: the escapes [\n],
    [\r], [\t], [\(], [\)] and [\\], in this order. *)
Definition unescape (content : jsstring) : jsstring :=
  replacePair 92%N 92%N [92%N]
    (replacePair 92%N 41%N [41%N]
       (replacePair 92%N 40%N [40%N]
          (replacePair 92%N 116%N [9%N]
             (replacePair 92%N 114%N [13%N]
                (replacePair 92%N 110%N [10%N] content))))).

(** The class of letters and digits a literal must hold one of: [a-z],
    [A-Z], [0-9] and fourteen accented letters. *)
Definition isTextChar (c : char) : bool :=
  ((97 <=? c)%N && (c <=? 122)%N) || isUpperAZ c || isDigit c ||
  existsb (N.eqb c) [224; 226; 228; 233; 232; 234; 235; 239; 238; 244; 249; 251; 252; 231]%N.

(** The parts pushed by the first loop. *)
Definition literalParts (text : jsstring) : list jsstring :=
  filter (fun content => (2 <? length content) && existsb isTextChar content)
         (map unescape (matchAll reParen 0 text)).

(** The parts pushed by the second loop, block after block. *)
Definition tjParts (text : jsstring) : list jsstring :=
  flat_map (fun block => filter (fun tjContent => 1 <? length tjContent)
                                (matchAll reTj 0 block))
           (matchAll reBtEt 0 text).

Definition extractTextFromPDF (text : jsstring) : jsstring :=
  trim (collapseWhiteSpace false
          (join (lit " ") (literalParts text ++ tjParts text))).

(** The state in which the loop of [extractSections] starts. *)
Definition scanStart : scanState := mkScan [] (lit "1") [] [] 1 0.

(** A character of a section number: a digit or a dot. *)
Definition isNumberChar (c : char) : bool := isDigit c || N.eqb c 46.

(** The labels of a section: those of the text before the first heading
    ([1] and no subsection), or a number, its first component, and a
    content that begins with the number. *)
Definition labelled (section subsection content : jsstring) : Prop :=
  (section = lit "1" /\ subsection = []) \/
  (subsection <> [] /\
   forallb isNumberChar subsection = true /\
   section = firstPart subsection /\
   exists rest, content = subsection ++ rest).

(** The pages recorded so far are ordered and lie between 1 and the page
    of the characters read; the content being gathered is made of
    characters read. *)
Definition pagesOk (st : scanState) : Prop :=
  Sorted le (map Section_.page (sections st)) /\
  Forall (fun p => 1 <= p <= estimatePage (charCount st))
         (map Section_.page (sections st)) /\
  length (nonWs (currentContent st)) <= charCount st.

(** The labels recorded so far, and those of the section being gathered. *)
Definition labelsOk (st : scanState) : Prop :=
  Forall (fun sec => labelled (Section_.section sec) (Section_.subsection sec)
                              (Section_.content sec)) (sections st) /\
  labelled (currentSection st) (currentSubsection st) (currentContent st).

(** The database the delete leaves. *)
Definition afterDelete (f : Faults) (documentId : jsstring) (db : Database) : Database :=
  if deleteFails f then db
  else mkDatabase (otherChunks documentId db) (iso_documents db).

(** The table of documents the update leaves. *)
Definition afterUpdate (f : Faults) (documentId : jsstring) (docs : list DocumentRow)
  : list DocumentRow :=
  if updateFails f then docs
  else map (fun d => if streq (id d) documentId
                     then mkDocument (id d) (filename d) true
                     else d) docs.

End ProcessDocument.

Import ProcessDocument.

(* ===================================================================== *)
(** * chat: retrieval, context and prompt *)
(* ===================================================================== *)

Module Chat.

Record DocumentRef := mkDocumentRef {
  filename : jsstring;
  title : option jsstring
}.

Module ISOChunk.
Record t := mk {
  id : jsstring;
  content : jsstring;
  section : option jsstring;
  subsection : option jsstring;
  page_number : option nat;
  chunk_index : nat;
  iso_documents : option DocumentRef
}.
End ISOChunk.

Module Source.
Record t := mk {
  document : jsstring;
  section : jsstring;
  subsection : jsstring;
  chunk_id : nat;
  page : option nat
}.
End Source.

(** [value || fallback] on a string that may be null: null and the empty
    string give the fallback. *)
Definition orElse (value : option jsstring) (fallback : jsstring) : jsstring :=
  match value with
  | Some s => if truthy s then s else fallback
  | None => fallback
  end.

(** What a select answers: [data] (null on failure) and [error]. *)
Record QueryResult := mkResult {
  data : option (list ISOChunk.t);
  error : bool
}.

(** [.limit(n)]: the first [n] rows of the answer. *)
Definition limit (n : nat) (r : QueryResult) : QueryResult :=
  mkResult (option_map (firstn n) (data r)) (error r).

Section Retrieval.

(** [String.prototype.toLowerCase] of the runtime. *)
Variable toLowerCase : jsstring -> jsstring.

(** The select on [iso_chunks] (joined with [iso_documents]) under
    [.textSearch("content", terms, { type: "websearch", config: "french" })],
    and under [.or(filter)], as the database answers them without a
    limit, rows in the order the database yields them. *)
Variable textSearch : jsstring -> QueryResult.
Variable selectOr : jsstring -> QueryResult.

Definition searchTermsOf (question : jsstring) : jsstring :=
  join (lit " & ")
       (filter (fun term => 2 <? length term)
               (split reWhiteSpace (toLowerCase question))).

Definition keywordsOf (question : jsstring) : list jsstring :=
  firstn 3 (filter (fun w => 3 <? length w) (split reWhiteSpace question)).

Definition ilikeFilter (keywords : list jsstring) : jsstring :=
  join (lit ",") (map (fun k => lit "content.ilike.%" ++ k ++ lit "%") keywords).

(** The ILIKE fallback: the [else] branch. *)
Definition fallbackChunks (question : jsstring) : list ISOChunk.t :=
  match keywordsOf question with
  | [] => []
  | keywords =>
      match data (limit 5 (selectOr (ilikeFilter keywords))) with
      | Some rows => rows
      | None => []
      end
  end.

Definition relevantChunks (question : jsstring) : list ISOChunk.t :=
  let chunks := limit 5 (textSearch (searchTermsOf question)) in
  match error chunks, data chunks with
  | false, Some (c :: cs) => c :: cs
  | _, _ => fallbackChunks question
  end.

(** What each tier finds: the rows of the full-text search, none when
    the request failed; the rows of the ILIKE search over the keywords,
    none when there is no keyword. *)
Definition rowsOf (r : QueryResult) : list ISOChunk.t :=
  match data r with Some rows => rows | None => [] end.

Definition fullTextTier (question : jsstring) : list ISOChunk.t :=
  let r := textSearch (searchTermsOf question) in
  if error r then [] else rowsOf r.

Definition substringTier (question : jsstring) : list ISOChunk.t :=
  match keywordsOf question with
  | [] => []
  | keywords => rowsOf (selectOr (ilikeFilter keywords))
  end.

End Retrieval.

(** ** Context and sources *)

Definition documentName (chunk : ISOChunk.t) : option jsstring :=
  option_map filename (ISOChunk.iso_documents chunk).

Definition sourceTag (index : nat) (chunk : ISOChunk.t) : jsstring :=
  lit "[Source " ++ numberToString (index + 1) ++ lit "] Document: " ++
  orElse (documentName chunk) (lit "Unknown") ++ lit ", Section: " ++
  orElse (ISOChunk.section chunk) (lit "N/A") ++ lit ", Sous-section: " ++
  orElse (ISOChunk.subsection chunk) (lit "N/A") ++ nl.

Definition sourceOf (chunk : ISOChunk.t) : Source.t :=
  Source.mk (orElse (documentName chunk) (lit "Document inconnu"))
            (orElse (ISOChunk.section chunk) (lit "N/A"))
            (orElse (ISOChunk.subsection chunk) (lit "N/A"))
            (ISOChunk.chunk_index chunk)
            (ISOChunk.page_number chunk).

(** The callback of [relevantChunks.forEach((chunk, index) => ...)]; the
    state is [(context, sources)]. *)
Definition contextStep (st : jsstring * list Source.t)
    (entry : nat * ISOChunk.t) : jsstring * list Source.t :=
  let (context, sources) := st in
  let (index, chunk) := entry in
  ((context ++ sourceTag index chunk) ++ (ISOChunk.content chunk ++ nl ++ nl),
   sources ++ [sourceOf chunk]).

(** What one chunk adds to the context: its tag and its content. *)
Definition contextBlock (entry : nat * ISOChunk.t) : jsstring :=
  sourceTag (fst entry) (snd entry) ++ ISOChunk.content (snd entry) ++ nl ++ nl.

Definition contextHeader : jsstring := lit "Contexte ISO pertinent:" ++ nl ++ nl.

Definition indexed (chunks : list ISOChunk.t) : list (nat * ISOChunk.t) :=
  combine (seq 0 (length chunks)) chunks.

Definition buildContext (chunks : list ISOChunk.t) : jsstring * list Source.t :=
  match chunks with
  | [] => ([], [])
  | _ :: _ => fold_left contextStep (indexed chunks) (contextHeader, [])
  end.

(** ** The system prompt *)

Definition promptRules : jsstring :=
  lit "Tu es un assistant expert en conformité ISO, spécialisé dans la norme ISO 9001:2015 et autres normes de management de la qualité." ++ nl ++
  nl ++
  lit "RÈGLES STRICTES:" ++ nl ++
  lit "1. Tu DOIS répondre UNIQUEMENT en utilisant les informations fournies dans le contexte ISO ci-dessous." ++ nl ++
  lit "2. Si l'information n'est PAS dans le contexte, réponds: " ++ dquote ++
  lit "Information non trouvée dans la norme ISO disponible." ++ dquote ++ nl ++
  lit "3. Chaque réponse DOIT être précise et citer les sources." ++ nl ++
  lit "4. Réponds en français." ++ nl ++
  lit "5. Sois concis mais complet." ++ nl ++
  nl.

Definition noDocumentInstruction : jsstring :=
  lit "AUCUN DOCUMENT ISO N'A ÉTÉ TROUVÉ DANS LA BASE DE DONNÉES. Informe l'utilisateur qu'il doit d'abord charger des documents ISO.".

Definition systemPrompt (context : jsstring) : jsstring :=
  promptRules ++ (if truthy context then context else noDocumentInstruction).

(** The messages posted to the completion endpoint for a question whose
    retrieval gave [chunks]: the system prompt and the question. *)
Definition messagesFor (question : jsstring) (chunks : list ISOChunk.t)
  : jsstring * jsstring :=
  (systemPrompt (fst (buildContext chunks)), question).

(** ** The request handler

    The completion endpoint is a parameter: what it answers to a system
    prompt and a question.  Saving the exchange in [chat_messages] does
    not bear on the response and is left out. *)

Record ChatRequest := mkChatRequest {
  question : jsstring;
  conversationId : option jsstring
}.

Inductive Completion :=
| Completed (content : option jsstring)
| Refused (status : nat).

Inductive ChatResponse :=
| Answered (answer : jsstring) (sources : option (list Source.t))
| Rejected (status : nat) (error : jsstring).

(** [sources.length > 0 ? sources : null] *)
Definition sourcesOrNull (sources : list Source.t) : option (list Source.t) :=
  match sources with
  | [] => None
  | _ :: _ => Some sources
  end.

Definition respond (completion : Completion) (sources : list Source.t)
  : ChatResponse :=
  match completion with
  | Refused status =>
      if status =? 429
      then Rejected 429 (lit "Limite de requêtes atteinte. Veuillez réessayer plus tard.")
      else if status =? 402
      then Rejected 402 (lit "Crédits insuffisants. Veuillez recharger votre compte.")
      else Rejected 500 (lit "Erreur du service IA")
  | Completed content =>
      Answered (orElse content (lit "Impossible de générer une réponse."))
               (sourcesOrNull sources)
  end.

Section Handler.

Variable toLowerCase : jsstring -> jsstring.
Variable textSearch : jsstring -> QueryResult.
Variable selectOr : jsstring -> QueryResult.
Variable LOVABLE_API_KEY : option jsstring.
Variable complete : jsstring -> jsstring -> Completion.

Definition serve (req : ChatRequest) : ChatResponse :=
  if negb (truthy (question req))
  then Rejected 400 (lit "Question is required")
  else if negb (truthy (orElse LOVABLE_API_KEY []))
  then Rejected 500 (lit "LOVABLE_API_KEY is not configured")
  else
    let chunks := relevantChunks toLowerCase textSearch selectOr (question req) in
    let (system, user) := messagesFor (question req) chunks in
    respond (complete system user) (snd (buildContext chunks)).

End Handler.

End Chat.

(* ===================================================================== *)
(** * The administration page: what it sends and what it shows *)
(* ===================================================================== *)

Module Admin.

(** [name.replace(re, "")], [re] matching a dot and then, up to the end
    of the name, one or more characters that are neither a slash nor a
    dot: the first position where it matches is the last dot. *)
Fixpoint stripExtension (name : jsstring) : jsstring :=
  match name with
  | [] => []
  | c :: rest =>
      if N.eqb c 46 && truthy rest &&
         forallb (fun x => negb (N.eqb x 47) && negb (N.eqb x 46)) rest
      then []
      else c :: stripExtension rest
  end.

(** [s.replace(/_/g, " ")] *)
Definition underscoresToSpaces (s : jsstring) : jsstring :=
  map (fun c => if N.eqb c 95 then 32%N else c) s.

(** The title stored for an uploaded file. *)
Definition titleOf (name : jsstring) : jsstring :=
  underscoresToSpaces (stripExtension name).

(** A [Map] from strings to numbers, its entries in insertion order. *)
Definition counts := list (jsstring * nat).

Fixpoint mapGet (key : jsstring) (m : counts) : option nat :=
  match m with
  | [] => None
  | (k, v) :: rest => if streq k key then Some v else mapGet key rest
  end.

Fixpoint mapSet (key : jsstring) (value : nat) (m : counts) : counts :=
  match m with
  | [] => [(key, value)]
  | (k, v) :: rest =>
      if streq k key then (k, value) :: rest else (k, v) :: mapSet key value rest
  end.

(** [m.get(key) || 0] *)
Definition getOrZero (m : counts) (key : jsstring) : nat :=
  match mapGet key m with
  | Some v => v
  | None => 0
  end.

(** The callback of [chunks.forEach] in [fetchDocuments]. *)
Definition countStep (m : counts) (document_id : jsstring) : counts :=
  let current := getOrZero m document_id in
  mapSet document_id (current + 1) m.

(** The chunk counts computed from the [document_id] column of the rows
    the select returned. *)
Definition chunkStats (document_ids : list jsstring) : counts :=
  fold_left countStep document_ids [].

End Admin.

(* ===================================================================== *)
(** * The specification's wording *)
(* ===================================================================== *)

Module Spec.

Fixpoint isPrefix (p s : jsstring) : bool :=
  match p, s with
  | [], _ => true
  | a :: p', b :: s' => N.eqb a b && isPrefix p' s'
  | _ :: _, [] => false
  end.

(** The specification's wording: "the last [overlap_tokens] worth of trailing
    sentences from the closed chunk".  The sentences of the closed chunk
    are taken from its end for as long as their join stays within
    [overlap]. *)
Fixpoint trailingWithin (overlap : nat) (reversed acc : list jsstring)
  : list jsstring :=
  match reversed with
  | [] => acc
  | s :: rest =>
      if length (joinSp (s :: acc)) <=? overlap
      then trailingWithin overlap rest (s :: acc)
      else acc
  end.

Definition overlapOf (overlap : nat) (closedChunk : jsstring) : jsstring :=
  joinSp (trailingWithin overlap (rev (split reSentenceGap closedChunk)) []).

(** The specification's wording: every chunk after the first begins with the
    overlap of the chunk closed before it. *)
Fixpoint overlapCarried (overlap : nat) (chunks : list jsstring) : bool :=
  match chunks with
  | c :: rest =>
      match rest with
      | c' :: _ => isPrefix (overlapOf overlap c) c' && overlapCarried overlap rest
      | [] => true
      end
  | [] => true
  end.

(** The specification's wording: "for all chunks except the last in a section,
    [min_tokens <= len(chunk) <= max_tokens]", a single sentence longer
    than the maximum being allowed. *)
Definition withinBounds (minTokens maxTokens : nat) (chunk : jsstring) : bool :=
  (minTokens <=? length chunk) && (length chunk <=? maxTokens).

Definition oversizedSentence (maxTokens : nat) (chunk : jsstring) : bool :=
  (maxTokens <? length chunk) && (length (split reSentenceGap chunk) =? 1).

Definition sizeBound (minTokens maxTokens : nat) (sectionChunks : list jsstring)
  : bool :=
  forallb (fun c => withinBounds minTokens maxTokens c || oversizedSentence maxTokens c)
          (removelast sectionChunks).

(** The specification's wording: the processing status of a Document,
    "unprocessed, processed, failed", read off the [processed] column. *)
Inductive ProcessingStatus := Unprocessed | Processed | Failed.

Definition statusOf (d : DocumentRow) : ProcessingStatus :=
  if processed d then Processed else Unprocessed.

(** The specification's wording: after a [put] the chunks of the document are
    "the complete old generation or the complete new generation". *)
Definition atomicPut (old new after : list Chunk.t) : Prop :=
  after = old \/ after = new.

(** The specification's wording: the fallback chain, "an ordered list of
    strategies ... tried in sequence until one yields a non-empty result",
    the result "capped at [top_k]". *)
Fixpoint firstNonEmpty (tiers : list (list Chat.ISOChunk.t)) : list Chat.ISOChunk.t :=
  match tiers with
  | [] => []
  | tier :: rest =>
      match tier with
      | [] => firstNonEmpty rest
      | _ :: _ => tier
      end
  end.

Definition retrieveTiers (top_k : nat) (tiers : list (list Chat.ISOChunk.t))
  : list Chat.ISOChunk.t :=
  firstn top_k (firstNonEmpty tiers).

(** The specification's wording: "ties broken by ascending document-then-chunk
    ordinal", for rows of one document that tie: the chunk ordinals
    ascend along the list. *)
Fixpoint ordinalsAscending (rows : list Chat.ISOChunk.t) : bool :=
  match rows with
  | a :: rest =>
      match rest with
      | b :: _ =>
          (Chat.ISOChunk.chunk_index a <? Chat.ISOChunk.chunk_index b)
          && ordinalsAscending rest
      | [] => true
      end
  | [] => true
  end.

(** The specification's wording: the context is "subject to a maximum total
    context length". *)
Definition withinBudget (budget : nat) (chunks : list Chat.ISOChunk.t) : Prop :=
  length (fst (Chat.buildContext chunks)) <= budget.

(** The words of a string, the "query terms" of the specification: its
    maximal runs of characters other than white space, in order.
    [scanWords word s] reads [s], [word] being the run read so far. *)
Definition closeWord (word : jsstring) : list jsstring :=
  if truthy word then [word] else [].

Fixpoint scanWords (word : jsstring) (s : jsstring) : list jsstring :=
  match s with
  | [] => closeWord word
  | c :: rest =>
      if isWhiteSpace c then closeWord word ++ scanWords [] rest
      else scanWords (word ++ [c]) rest
  end.

Definition words (s : jsstring) : list jsstring := scanWords [] s.


(** The specification's wording: "identical index state".  The requests
    carry no order clause, so one state of the index fixes whether a
    request fails and which rows match it, not the order in which the
    database yields them: two answers to one request on one state hold
    the same rows, each as many times, in any order. *)
Definition sameRows (r r' : Chat.QueryResult) : Prop :=
  Chat.error r = Chat.error r' /\
  match Chat.data r, Chat.data r' with
  | Some rows, Some rows' => Permutation rows rows'
  | None, None => True
  | _, _ => False
  end.

End Spec.

Import Chat.

(* ===================================================================== *)
(** * Sample data *)
(* ===================================================================== *)

Module Fixtures.

(** Fifty-one headings, one section and one chunk each. *)
Definition text51 : jsstring := concat (repeat (lit "1 x" ++ nl) 51).

Definition request : ProcessRequest := mkRequest (lit "doc1") (lit "doc1.pdf") (lit "doc1.pdf").

Definition oldChunk : Chunk.t := Chunk.mk (lit "doc1") 0 (lit "old") (lit "1") [] 1.

Definition database : Database :=
  mkDatabase [oldChunk] [mkDocument (lit "doc1") (lit "doc1.pdf") false].

(** The insert of the second batch fails. *)
Definition secondBatchFails : Faults :=
  mkFaults false (fun offset => if offset =? 50 then Some (lit "timeout") else None) false.

End Fixtures.

Module ChatFixtures.

Definition document : DocumentRef := mkDocumentRef (lit "iso9001.pdf") None.

Definition chunk (index : nat) (content : jsstring) : ISOChunk.t :=
  ISOChunk.mk (lit "id") content (Some (lit "4")) (Some (lit "4.1")) (Some 1)
              index (Some document).

Definition lowerAscii (s : jsstring) : jsstring :=
  map (fun c => if isUpperAZ c then (c + 32)%N else c) s.

Definition answers (rows : list ISOChunk.t) : jsstring -> QueryResult :=
  fun _ => mkResult (Some rows) false.

End ChatFixtures.


(* ===================================================================== *)
(** * Properties of strings and of [split] *)
(* ===================================================================== *)

Section StringFacts.

Lemma hasNonWs_app (a b : jsstring) :
  hasNonWs (a ++ b) = hasNonWs a || hasNonWs b.
Proof. unfold hasNonWs. apply existsb_app. Qed.

Lemma hasNonWs_rev (s : jsstring) : hasNonWs (rev s) = hasNonWs s.
Proof.
  induction s as [|c s IH]; simpl; [reflexivity|].
  rewrite hasNonWs_app, IH. simpl. rewrite orb_false_r. apply orb_comm.
Qed.

Lemma hasNonWs_dropWhile (s : jsstring) :
  hasNonWs (dropWhile isWhiteSpace s) = hasNonWs s.
Proof.
  induction s as [|c s IH]; simpl; [reflexivity|].
  destruct (isWhiteSpace c) eqn:E; simpl; [exact IH | rewrite E; reflexivity].
Qed.

Lemma truthy_dropWhile (s : jsstring) :
  truthy (dropWhile isWhiteSpace s) = hasNonWs s.
Proof.
  induction s as [|c s IH]; simpl; [reflexivity|].
  destruct (isWhiteSpace c) eqn:E; simpl; [exact IH | reflexivity].
Qed.

Lemma truthy_rev (s : jsstring) : truthy (rev s) = truthy s.
Proof.
  destruct s as [|c s]; simpl; [reflexivity|].
  destruct (rev s); reflexivity.
Qed.

Lemma hasNonWs_trim (s : jsstring) : hasNonWs (trim s) = hasNonWs s.
Proof.
  unfold trim, trimEnd, trimStart.
  now rewrite hasNonWs_rev, hasNonWs_dropWhile, hasNonWs_rev, hasNonWs_dropWhile.
Qed.

Lemma truthy_trim (s : jsstring) : truthy (trim s) = hasNonWs s.
Proof.
  unfold trim, trimEnd, trimStart.
  now rewrite truthy_rev, truthy_dropWhile, hasNonWs_rev, hasNonWs_dropWhile.
Qed.

Lemma hasNonWs_truthy (s : jsstring) : hasNonWs s = true -> truthy s = true.
Proof. destruct s; simpl; [discriminate | reflexivity]. Qed.

Lemma truthy_true (s : jsstring) : truthy s = true <-> s <> [].
Proof. destruct s; simpl; split; congruence. Qed.

Lemma truthy_false (s : jsstring) : truthy s = false <-> s = [].
Proof. destruct s; simpl; split; congruence. Qed.

Lemma length_dropWhile (p : char -> bool) (s : jsstring) :
  length (dropWhile p s) <= length s.
Proof.
  induction s as [|c s IH]; simpl; [lia|].
  destruct (p c); simpl; lia.
Qed.

Lemma length_trim (s : jsstring) : length (trim s) <= length s.
Proof.
  unfold trim, trimEnd, trimStart. rewrite length_rev.
  etransitivity; [apply length_dropWhile|].
  rewrite length_rev. apply length_dropWhile.
Qed.

Lemma ws_not_sentenceEnd (c : char) :
  isWhiteSpace c = true -> isSentenceEnd c = false.
Proof.
  unfold isWhiteSpace, isSentenceEnd. simpl. intros H.
  repeat (apply orb_prop in H; destruct H as [H|H]);
    try (apply N.eqb_eq in H; subst c; reflexivity).
  discriminate.
Qed.

Lemma wsRun_cons (c : char) (s : jsstring) :
  wsRun (c :: s) = if isWhiteSpace c then S (wsRun s) else 0.
Proof. unfold wsRun. simpl. destruct (isWhiteSpace c); reflexivity. Qed.

Lemma someIfPos_Some (n k : nat) : someIfPos n = Some k -> n = k /\ k <> 0.
Proof. destruct n; simpl; intros H; inversion H; subst; split; congruence. Qed.

Lemma sentenceGap_after_ws (c : char) (s : jsstring) :
  isWhiteSpace c = true -> reSentenceGap (Some c) s = None.
Proof.
  intros H. unfold reSentenceGap. simpl. now rewrite (ws_not_sentenceEnd _ H).
Qed.

Lemma sentenceGap_Some (prev : option char) (c : char) (s : jsstring) (k : nat) :
  reSentenceGap prev (c :: s) = Some (S k) ->
  isWhiteSpace c = true /\ wsRun s = k.
Proof.
  unfold reSentenceGap. destruct (prevIs isSentenceEnd prev); [|discriminate].
  intros H. apply someIfPos_Some in H. destruct H as [H _].
  rewrite wsRun_cons in H. destruct (isWhiteSpace c); [split; [reflexivity | lia] | discriminate].
Qed.

End StringFacts.

(** Every piece of the sentence split but the last holds a character that
    is not white space: it ends with the punctuation mark before the gap. *)
Lemma splitRegex_sentences (s : jsstring) :
  forall skip prev,
    skip = 0 \/ wsRun s = skip ->
    exists h t,
      splitRegex reSentenceGap skip prev s = h :: t /\
      Forall (fun p => hasNonWs p = true) (removelast t) /\
      (t <> [] -> skip <> 0 \/ reSentenceGap prev s = None -> hasNonWs h = true).
Proof.
  induction s as [|c rest IH]; intros skip prev Hskip.
  - exists [], []. simpl. repeat split; [constructor | congruence].
  - destruct skip as [|k].
    + simpl splitRegex.
      destruct (reSentenceGap prev (c :: rest)) as [[|k]|] eqn:Em.
      * unfold reSentenceGap in Em.
        destruct (prevIs isSentenceEnd prev); [|discriminate].
        apply someIfPos_Some in Em. lia.
      * destruct (sentenceGap_Some _ _ _ _ Em) as [Hc Hk].
        destruct (IH k (Some c) (or_intror Hk)) as (h' & t' & E & Ht & Hh).
        exists [], (h' :: t'). rewrite E. split; [reflexivity|]. split.
        -- destruct t' as [|x t']; [constructor|].
           change (removelast (h' :: x :: t')) with (h' :: removelast (x :: t')).
           constructor; [|exact Ht].
           apply Hh; [congruence|]. right. now apply sentenceGap_after_ws.
        -- intros _ [H|H]; congruence.
      * destruct (IH 0 (Some c) (or_introl eq_refl)) as (h' & t' & E & Ht & Hh).
        exists (c :: h'), t'. rewrite E. split; [reflexivity|]. split; [exact Ht|].
        intros Hne _. simpl. destruct (isWhiteSpace c) eqn:Hc; [|reflexivity].
        simpl. apply Hh; [exact Hne|]. right. now apply sentenceGap_after_ws.
    + destruct Hskip as [Hskip|Hskip]; [discriminate|].
      rewrite wsRun_cons in Hskip. destruct (isWhiteSpace c) eqn:Hc; [|discriminate].
      injection Hskip as Hskip.
      destruct (IH k (Some c) (or_intror Hskip)) as (h' & t' & E & Ht & Hh).
      exists h', t'. simpl splitRegex. rewrite E. split; [reflexivity|].
      split; [exact Ht|].
      intros Hne _. apply Hh; [exact Hne|]. right. now apply sentenceGap_after_ws.
Qed.

Lemma split_sentences_shape (text : jsstring) :
  exists init lst,
    split reSentenceGap text = init ++ [lst] /\
    Forall (fun p => hasNonWs p = true) init.
Proof.
  destruct (splitRegex_sentences text 0 None (or_introl eq_refl))
    as (h & t & E & Ht & Hh).
  unfold split. rewrite E.
  destruct t as [|x t].
  - exists [], h. split; [reflexivity | constructor].
  - exists (removelast (h :: x :: t)), (last (h :: x :: t) []).
    split; [apply app_removelast_last; congruence|].
    change (removelast (h :: x :: t)) with (h :: removelast (x :: t)).
    constructor; [|exact Ht]. apply Hh; [congruence | now right].
Qed.

(* ===================================================================== *)
(** * The sentence packer *)
(* ===================================================================== *)

Section Packing.

Lemma join_snoc (sep : jsstring) (g : list jsstring) (x : jsstring) :
  g <> [] -> join sep (g ++ [x]) = join sep g ++ sep ++ x.
Proof.
  induction g as [|a g IH]; [congruence|]. intros _.
  destruct g as [|b g]; [reflexivity|].
  change (join sep ((a :: b :: g) ++ [x]))
    with (a ++ sep ++ join sep ((b :: g) ++ [x])).
  rewrite IH by congruence.
  change (join sep (a :: b :: g)) with (a ++ sep ++ join sep (b :: g)).
  now rewrite <- !app_assoc.
Qed.

Lemma join_nil (sep : jsstring) (g : list jsstring) :
  Forall (fun x => x <> []) g -> join sep g = [] -> g = [].
Proof.
  intros H. destruct H as [|a g Ha Hg]; [reflexivity|].
  destruct g as [|b g]; simpl; [congruence|].
  intros E. apply app_eq_nil in E. destruct E; congruence.
Qed.

Lemma hasNonWs_joinSp (g : list jsstring) :
  hasNonWs (joinSp g) = existsb hasNonWs g.
Proof.
  unfold joinSp. induction g as [|a g IH]; [reflexivity|].
  destruct g as [|b g]; [simpl; now rewrite orb_false_r|].
  change (join (lit " ") (a :: b :: g)) with (a ++ lit " " ++ join (lit " ") (b :: g)).
  rewrite !hasNonWs_app, IH. reflexivity.
Qed.

Lemma length_joinSp (g : list jsstring) :
  g <> [] -> length (joinSp g) + 1 = totalLength g + length g.
Proof.
  unfold joinSp, totalLength. induction g as [|a g IH]; [congruence|]. intros _.
  destruct g as [|b g]; [simpl; lia|].
  change (join (lit " ") (a :: b :: g)) with (a ++ lit " " ++ join (lit " ") (b :: g)).
  rewrite !length_app.
  specialize (IH ltac:(congruence)).
  change (length (lit " ")) with 1.
  change (list_sum (map (@length char) (a :: b :: g)))
    with (length a + list_sum (map (@length char) (b :: g))).
  change (length (a :: b :: g)) with (S (length (b :: g))).
  lia.
Qed.

Lemma Forall_hasNonWs_nonempty (g : list jsstring) :
  Forall (fun s => hasNonWs s = true) g -> Forall (fun s => s <> []) g.
Proof.
  apply Forall_impl. intros s H E. subst s. discriminate.
Qed.

(** The loop of [chunkText] in terms of groups: when every sentence but
    the last holds a character that is not white space, the state after
    the loop is a list of closed groups and the group being packed, and
    the groups taken in order are the sentences. *)
Lemma chunkLoop_groups (maxChunkSize : nat) (ss : list jsstring) :
  Forall (fun s => hasNonWs s = true) (removelast ss) ->
  exists gs g,
    chunkLoop maxChunkSize ss = (map chunkOfGroup gs, joinSp g) /\
    concat gs ++ g = ss /\
    Forall (closedGroup maxChunkSize) gs /\
    (ss <> [] -> g <> []) /\
    Forall (fun s => hasNonWs s = true) (removelast g) /\
    (length g <= 1 \/ length (joinSp g) <= S maxChunkSize).
Proof.
  induction ss as [|s ss' IH] using rev_ind; intros Hall.
  - exists [], []. cbn. repeat split; try constructor; try congruence. lia.
  - rewrite removelast_last in Hall.
    destruct IH as (gs & g & Eloop & Econcat & Hgs & Hg & Hgw & Hbound).
    { clear - Hall. induction Hall as [|a l Ha Hl IHl]; [constructor|].
      destruct l; [constructor|]. simpl. constructor; assumption. }
    assert (Hgall : Forall (fun s => hasNonWs s = true) g).
    { rewrite <- Econcat in Hall. apply Forall_app in Hall. tauto. }
    unfold chunkLoop in *. rewrite fold_left_app, Eloop. simpl fold_left.
    unfold chunkStep.
    destruct ((maxChunkSize <? length (joinSp g) + length s) && truthy (joinSp g)) eqn:Etest.
    + apply andb_prop in Etest. destruct Etest as [_ Etruthy].
      assert (Hne : g <> []) by (intros ->; discriminate).
      exists (gs ++ [g]), [s]. rewrite map_app. split; [reflexivity|].
      split; [rewrite concat_app; simpl; rewrite app_nil_r, <- Econcat; reflexivity|].
      split; [|split; [congruence | split; [constructor | left; simpl; lia]]].
      apply Forall_app. split; [exact Hgs|]. constructor; [|constructor].
      split; [exact Hne|]. split; [exact Hgall|].
      destruct Hbound as [Hb|Hb]; [left | right; exact Hb].
      destruct g as [|a [|b g]]; simpl in *; try congruence; lia.
    + exists gs, (g ++ [s]). split; [|split; [|split; [exact Hgs|split; [|split]]]].
      * f_equal. destruct (truthy (joinSp g)) eqn:Etruthy.
        -- unfold joinSp. rewrite join_snoc; [reflexivity|]. intros ->. discriminate.
        -- apply truthy_false in Etruthy.
           apply join_nil in Etruthy; [|now apply Forall_hasNonWs_nonempty].
           subst g. reflexivity.
      * rewrite app_assoc, Econcat. reflexivity.
      * intros _. destruct g; discriminate.
      * rewrite removelast_last. exact Hgall.
      * destruct (truthy (joinSp g)) eqn:Etruthy.
        -- right. rewrite andb_true_r in Etest. apply Nat.ltb_ge in Etest.
           unfold joinSp in *. rewrite join_snoc by (intros ->; discriminate).
           rewrite !length_app. change (length (lit " ")) with 1. lia.
        -- apply truthy_false in Etruthy.
           apply join_nil in Etruthy; [|now apply Forall_hasNonWs_nonempty].
           subst g. left. simpl. lia.
Qed.

Lemma closedGroup_packed (maxChunkSize : nat) (g : list jsstring) :
  closedGroup maxChunkSize g -> packedGroup maxChunkSize g.
Proof.
  intros (Hne & Hall & Hb). split; [exact Hne|]. split; [|exact Hb].
  rewrite hasNonWs_joinSp. destruct Hall as [|a g Ha _]; [congruence|].
  simpl. now rewrite Ha.
Qed.

(** [chunkText] packs the sentences of the text, in order, into groups:
    its chunks are the trimmed joins of the groups, and the groups taken
    together are the sentences, a blank last piece apart. *)
Lemma chunkText_packing (text : jsstring) (maxChunkSize : nat) :
  exists gs,
    chunkText text maxChunkSize = map chunkOfGroup gs /\
    Forall (packedGroup maxChunkSize) gs /\
    (concat gs = split reSentenceGap text \/
     exists lst, concat gs ++ [lst] = split reSentenceGap text /\
                 hasNonWs lst = false).
Proof.
  destruct (split_sentences_shape text) as (init & lst & Esplit & Hinit).
  destruct (chunkLoop_groups maxChunkSize (init ++ [lst]))
    as (gs & g & Eloop & Econcat & Hgs & Hg & Hgw & Hbound).
  { now rewrite removelast_last. }
  specialize (Hg ltac:(destruct init; discriminate)).
  unfold chunkText. rewrite Esplit, Eloop. unfold chunkFinish.
  rewrite truthy_trim.
  assert (Hpacked : Forall (packedGroup maxChunkSize) gs).
  { eapply Forall_impl; [|exact Hgs]. apply closedGroup_packed. }
  destruct (hasNonWs (joinSp g)) eqn:Ews.
  - exists (gs ++ [g]). rewrite map_app. split; [reflexivity|]. split.
    + apply Forall_app. split; [exact Hpacked|]. constructor; [|constructor].
      split; [exact Hg|]. split; [exact Ews|].
      destruct Hbound as [Hb|Hb]; [left | right; exact Hb].
      destruct g as [|a [|b g]]; simpl in *; try congruence; lia.
    + left. rewrite concat_app. simpl. now rewrite app_nil_r.
  - exists gs. split; [reflexivity|]. split; [exact Hpacked|]. right.
    destruct (exists_last Hg) as (g' & x & ->).
    rewrite removelast_last in Hgw.
    rewrite hasNonWs_joinSp, existsb_app in Ews.
    apply orb_false_elim in Ews. destruct Ews as [Eg' Ex].
    destruct Hgw as [|a g' Ha _]; [|simpl in Eg'; rewrite Ha in Eg'; discriminate].
    simpl in Ex. rewrite orb_false_r in Ex.
    simpl in Econcat. apply app_inj_tail in Econcat. destruct Econcat as [E1 E2]. subst x.
    exists lst. split; [now rewrite E1 | exact Ex].
Qed.

End Packing.

(* ===================================================================== *)
(** * Chunk boundaries, sizes and contents *)
(* ===================================================================== *)

Lemma chunkText_nonblank_all (text : jsstring) (maxChunkSize : nat) :
  Forall (fun c => c <> [] /\ hasNonWs c = true) (chunkText text maxChunkSize).
Proof.
  destruct (chunkText_packing text maxChunkSize) as (gs & -> & Hgs & _).
  apply Forall_map. eapply Forall_impl; [|exact Hgs].
  intros g (_ & Hws & _). unfold chunkOfGroup.
  assert (H : hasNonWs (trim (joinSp g)) = true) by now rewrite hasNonWs_trim.
  split; [|exact H]. intros E. rewrite E in H. discriminate.
Qed.

(** C3, as the specification words it, fails: with an overlap of three
    characters the second chunk of ["Aa. Bb. Cc. Dd."] (chunks of at most
    seven characters) would begin with ["Bb."]; it begins with ["Cc."]. *)
Lemma chunkText_carries_no_overlap :
  chunkText (lit "Aa. Bb. Cc. Dd.") 7 = [lit "Aa. Bb."; lit "Cc. Dd."] /\
  Spec.overlapOf 3 (lit "Aa. Bb.") = lit "Bb." /\
  Spec.overlapCarried 3 (chunkText (lit "Aa. Bb. Cc. Dd.") 7) = false.
Proof. vm_compute. repeat split. Qed.

(** C3, amended: the chunks of a text are the trimmed joins of groups of
    whole sentences that follow one another without overlap: the groups,
    taken in order, are exactly the sentences of the text (a blank last
    piece apart), so every chunk after the first begins with the sentence
    that follows the last sentence of the chunk before it. *)
Theorem chunkText_partitions_sentences (text : jsstring) (maxChunkSize : nat) :
  exists gs,
    Forall (fun g => g <> []) gs /\
    chunkText text maxChunkSize = map chunkOfGroup gs /\
    (concat gs = split reSentenceGap text \/
     exists lst, concat gs ++ [lst] = split reSentenceGap text /\
                 hasNonWs lst = false).
Proof.
  destruct (chunkText_packing text maxChunkSize) as (gs & E & Hgs & Hcat).
  exists gs. split; [|split; assumption].
  eapply Forall_impl; [|exact Hgs]. intros g H. apply H.
Qed.

(** C6, as the specification words it, fails: no lower bound is enforced.
    With a minimum of five and a maximum of ten characters the first chunk
    of ["Hi. Abcdefghi. Xy."] is ["Hi."]. *)
Lemma chunkText_below_minimum :
  chunkText (lit "Hi. Abcdefghi. Xy.") 10 = [lit "Hi."; lit "Abcdefghi."; lit "Xy."] /\
  Spec.sizeBound 5 10 (chunkText (lit "Hi. Abcdefghi. Xy.") 10) = false.
Proof. vm_compute. split; reflexivity. Qed.

(** C6, amended: every chunk is the trimmed join of a run of whole,
    consecutive sentences of the text; a chunk of more than one sentence
    holds sentences of at most [maxChunkSize] characters in total, and a
    chunk may be a single sentence of any length.  No lower bound
    holds. *)
Theorem chunkText_size (text : jsstring) (maxChunkSize : nat) (c : jsstring) :
  In c (chunkText text maxChunkSize) ->
  exists g,
    g <> [] /\
    c = chunkOfGroup g /\
    (exists before after, split reSentenceGap text = before ++ g ++ after) /\
    (length g = 1 \/ totalLength g <= maxChunkSize).
Proof.
  intros Hin.
  destruct (chunkText_packing text maxChunkSize) as (gs & E & Hgs & Hcat).
  rewrite E in Hin. apply in_map_iff in Hin. destruct Hin as (g & <- & Hg).
  rewrite Forall_forall in Hgs. destruct (Hgs g Hg) as (Hne & _ & Hb).
  exists g. split; [exact Hne|]. split; [reflexivity|]. split.
  - apply in_split in Hg. destruct Hg as (gs1 & gs2 & ->).
    rewrite concat_app in Hcat. simpl in Hcat.
    destruct Hcat as [Hcat | (lst & Hcat & _)].
    + exists (concat gs1), (concat gs2). now rewrite <- Hcat.
    + exists (concat gs1), (concat gs2 ++ [lst]).
      rewrite <- Hcat, <- !app_assoc. reflexivity.
  - destruct Hb as [Hb|Hb]; [now left|].
    pose proof (length_joinSp g Hne) as Hl.
    destruct g as [|a [|b g]]; [congruence | now left | right].
    simpl length in Hl at 2. lia.
Qed.

(** The bound on the characters of a chunk: more than one sentence, at
    most [maxChunkSize + 1] characters (the test of the loop leaves the
    joining space out). *)
Lemma chunkText_length (text : jsstring) (maxChunkSize : nat) (c : jsstring) :
  In c (chunkText text maxChunkSize) ->
  In c (map trim (split reSentenceGap text)) \/ length c <= S maxChunkSize.
Proof.
  intros Hin.
  destruct (chunkText_packing text maxChunkSize) as (gs & E & Hgs & Hcat).
  rewrite E in Hin. apply in_map_iff in Hin. destruct Hin as (g & <- & Hg).
  rewrite Forall_forall in Hgs. destruct (Hgs g Hg) as (Hne & _ & Hb).
  destruct Hb as [Hb|Hb].
  - left. destruct g as [|a [|b g]]; try discriminate.
    change (chunkOfGroup [a]) with (trim a). apply in_map.
    assert (Ha : In a (concat gs)) by (apply in_concat; exists [a]; simpl; auto).
    destruct Hcat as [<- | (lst & <- & _)]; [exact Ha | apply in_or_app; now left].
  - right. unfold chunkOfGroup. etransitivity; [apply length_trim | exact Hb].
Qed.

Example chunkText_two_sentences_over :
  chunkText (lit "Aaaa. Bbb. C.") 9 = [lit "Aaaa. Bbb."; lit "C."].
Proof. vm_compute. reflexivity. Qed.

Lemma chunkText_size_witness :
  In (lit "Aa. Bb.") (chunkText (lit "Aa. Bb. Cc. Dd.") 7) /\
  exists g,
    g <> [] /\
    lit "Aa. Bb." = chunkOfGroup g /\
    (exists before after,
        split reSentenceGap (lit "Aa. Bb. Cc. Dd.") = before ++ g ++ after) /\
    (length g = 1 \/ totalLength g <= 7).
Proof.
  assert (H : In (lit "Aa. Bb.") (chunkText (lit "Aa. Bb. Cc. Dd.") 7)).
  { vm_compute. left. reflexivity. }
  split; [exact H|].
  exact (chunkText_size (lit "Aa. Bb. Cc. Dd.") 7 (lit "Aa. Bb.") H).
Defined.

(* ===================================================================== *)
(** * Chunk rows *)
(* ===================================================================== *)

Section Rows.

Variable documentId : jsstring.

Lemma fold_pushSectionChunk (sec : Section_.t) (cs : list jsstring) :
  forall acc n,
    let r := fold_left (pushSectionChunk documentId sec) cs (acc, n) in
    map Chunk.chunk_index (fst r) = map Chunk.chunk_index acc ++ seq n (length cs) /\
    map Chunk.content (fst r) = map Chunk.content acc ++ cs /\
    map Chunk.document_id (fst r) =
      map Chunk.document_id acc ++ repeat documentId (length cs) /\
    snd r = n + length cs.
Proof.
  induction cs as [|c cs IH]; intros acc n; simpl.
  - rewrite !app_nil_r. repeat split. lia.
  - destruct (IH (acc ++ [Chunk.mk documentId n c (Section_.section sec)
                             (Section_.subsection sec) (Section_.page sec)]) (S n))
      as (Hi & Hc & Hd & Hn).
    cbv zeta in *. rewrite Hi, Hc, Hd, Hn, !map_app. simpl.
    rewrite <- !app_assoc. repeat split. lia.
Qed.

Lemma fold_pushSection (secs : list Section_.t) :
  forall acc n,
    let r := fold_left (pushSection documentId) secs (acc, n) in
    map Chunk.chunk_index (fst r) = map Chunk.chunk_index acc ++ seq n (snd r - n) /\
    n <= snd r /\
    map Chunk.content (fst r) =
      map Chunk.content acc ++
      flat_map (fun sec => chunkText (Section_.content sec) defaultMaxChunkSize) secs /\
    (Forall (fun d => d = documentId) (map Chunk.document_id acc) ->
     Forall (fun d => d = documentId) (map Chunk.document_id (fst r))).
Proof.
  induction secs as [|sec secs IH]; intros acc n; cbv zeta.
  - simpl. rewrite Nat.sub_diag. simpl. rewrite !app_nil_r. auto.
  - change (fold_left (pushSection documentId) (sec :: secs) (acc, n))
      with (fold_left (pushSection documentId) secs (pushSection documentId (acc, n) sec)).
    set (cs := chunkText (Section_.content sec) defaultMaxChunkSize).
    destruct (fold_pushSectionChunk sec cs acc n) as (Hi & Hc & Hd & Hn).
    change (pushSection documentId (acc, n) sec)
      with (fold_left (pushSectionChunk documentId sec) cs (acc, n)).
    destruct (fold_left (pushSectionChunk documentId sec) cs (acc, n)) as [acc1 n1].
    simpl in Hi, Hc, Hd, Hn.
    destruct (IH acc1 n1) as (Hi' & Hle & Hc' & Hd').
    cbv zeta in *.
    set (r := fold_left (pushSection documentId) secs (acc1, n1)) in *.
    rewrite Hi', Hc', Hi, Hc.
    split; [|split; [lia|split]].
    + rewrite <- app_assoc. f_equal.
      replace (snd r - n) with (length cs + (snd r - n1)) by lia.
      rewrite seq_app. f_equal. f_equal. lia.
    + simpl. fold cs. now rewrite <- app_assoc.
    + intros Hacc. apply Hd'. rewrite Hd. apply Forall_app. split; [exact Hacc|].
      clear. induction (length cs); simpl; constructor; auto.
Qed.

Lemma fold_pushFallbackChunk (cs : list jsstring) :
  forall acc n p,
    let r := fst (fold_left (pushFallbackChunk documentId) cs (acc, n, p)) in
    map Chunk.chunk_index (fst r) = map Chunk.chunk_index acc ++ seq n (length cs) /\
    map Chunk.content (fst r) = map Chunk.content acc ++ cs /\
    map Chunk.document_id (fst r) =
      map Chunk.document_id acc ++ repeat documentId (length cs).
Proof.
  induction cs as [|c cs IH]; intros acc n p; simpl.
  - rewrite !app_nil_r. repeat split.
  - destruct (IH (acc ++ [Chunk.mk documentId n c (lit "1") [] p]) (S n) (S p))
      as (Hi & Hc & Hd).
    cbv zeta in *. rewrite Hi, Hc, Hd, !map_app. simpl.
    rewrite <- !app_assoc. repeat split.
Qed.

Lemma buildChunks_contents (sections : list Section_.t) (extractedText : jsstring) :
  map Chunk.content (buildChunks documentId sections extractedText) =
  match sections with
  | [] => chunkText extractedText defaultMaxChunkSize
  | _ :: _ =>
      flat_map (fun sec => chunkText (Section_.content sec) defaultMaxChunkSize) sections
  end.
Proof.
  unfold buildChunks. destruct sections as [|sec secs].
  - now destruct (fold_pushFallbackChunk
                    (chunkText extractedText defaultMaxChunkSize) [] 0 1) as (_ & -> & _).
  - now destruct (fold_pushSection (sec :: secs) [] 0) as (_ & _ & -> & _).
Qed.

Lemma buildChunks_document_id (sections : list Section_.t) (extractedText : jsstring) :
  Forall (fun r => Chunk.document_id r = documentId)
         (buildChunks documentId sections extractedText).
Proof.
  apply Forall_map with (f := Chunk.document_id) (P := fun d => d = documentId).
  unfold buildChunks. destruct sections as [|sec secs].
  - destruct (fold_pushFallbackChunk
                (chunkText extractedText defaultMaxChunkSize) [] 0 1) as (_ & _ & ->).
    simpl. induction (length _); simpl; constructor; auto.
  - destruct (fold_pushSection (sec :: secs) [] 0) as (_ & _ & _ & H).
    apply H. constructor.
Qed.

End Rows.

(** C5: the [chunk_index] values of the rows built for a document, over
    all its sections, are [0, 1, ..., N-1] in this order, [N] being the
    number of rows: strictly increasing, without gap or duplicate. *)
Theorem buildChunks_ordinals_dense
    (documentId : jsstring) (sections : list Section_.t) (extractedText : jsstring) :
  map Chunk.chunk_index (buildChunks documentId sections extractedText) =
  seq 0 (length (buildChunks documentId sections extractedText)).
Proof.
  assert (H : exists n,
             map Chunk.chunk_index (buildChunks documentId sections extractedText) = seq 0 n).
  { unfold buildChunks. destruct sections as [|sec secs].
    - destruct (fold_pushFallbackChunk documentId
                  (chunkText extractedText defaultMaxChunkSize) [] 0 1) as (-> & _).
      eexists. reflexivity.
    - destruct (fold_pushSection documentId (sec :: secs) [] 0) as (-> & _).
      eexists. reflexivity. }
  destruct H as (n & Hn). rewrite Hn. f_equal.
  rewrite <- (length_map Chunk.chunk_index), Hn. now rewrite length_seq.
Qed.

(** C10: for a text that is not empty once trimmed, every string
    [chunkText] returns is non-empty and holds a character that is not
    white space; so does the content of every row the ingestion builds
    from the text. *)
Theorem chunkText_never_blank
    (text : jsstring) (maxChunkSize : nat) (documentId : jsstring) :
  trim text <> [] ->
  Forall (fun c => c <> [] /\ hasNonWs c = true) (chunkText text maxChunkSize) /\
  Forall (fun r => Chunk.content r <> [] /\ hasNonWs (Chunk.content r) = true)
         (buildChunks documentId (extractSections text) text).
Proof.
  intros _. split; [apply chunkText_nonblank_all|].
  apply Forall_map with (f := Chunk.content)
                        (P := fun c => c <> [] /\ hasNonWs c = true).
  rewrite buildChunks_contents.
  destruct (extractSections text) as [|sec secs]; [apply chunkText_nonblank_all|].
  apply Forall_flat_map. apply Forall_forall. intros s _.
  apply chunkText_nonblank_all.
Qed.

Lemma chunkText_never_blank_witness :
  trim (lit " Aa. Bb. ") <> [] /\
  Forall (fun c => c <> [] /\ hasNonWs c = true) (chunkText (lit " Aa. Bb. ") 3) /\
  Forall (fun r => Chunk.content r <> [] /\ hasNonWs (Chunk.content r) = true)
         (buildChunks (lit "doc") (extractSections (lit " Aa. Bb. ")) (lit " Aa. Bb. ")).
Proof.
  assert (H : trim (lit " Aa. Bb. ") <> []) by (vm_compute; discriminate).
  split; [exact H|].
  exact (chunkText_never_blank (lit " Aa. Bb. ") 3 (lit "doc") H).
Defined.

(* ===================================================================== *)
(** * Storing the chunks of a document *)
(* ===================================================================== *)

Section Storage.

Lemma streq_eq (a b : jsstring) : streq a b = true <-> a = b.
Proof. unfold streq. destruct (list_eq_dec N.eq_dec a b); split; congruence. Qed.

Lemma streq_refl (a : jsstring) : streq a a = true.
Proof. now apply streq_eq. Qed.

Lemma insertBatches_unfold (f : Faults) (allChunks : list Chunk.t) (i : nat)
    (db : Database) :
  insertBatches f allChunks i db =
  if lt_dec i (length allChunks) then
    match insertError f i with
    | Some message => (Throw (lit "Failed to insert chunks: " ++ message), db)
    | None =>
        insertBatches f allChunks (i + batchSize)
          (mkDatabase (iso_chunks db ++ slice i (i + batchSize) allChunks)
                      (iso_documents db))
    end
  else (Return tt, db).
Proof.
  rewrite insertBatches_equation_1.
  destruct (lt_dec i (length allChunks)); simpl; [|reflexivity].
  unfold insertChunks. destruct (insertError f i); reflexivity.
Qed.

Lemma firstn_plus {A} (a b : nat) (l : list A) :
  firstn (a + b) l = firstn a l ++ firstn b (skipn a l).
Proof.
  revert l. induction a as [|a IH]; intros l; [reflexivity|].
  destruct l as [|x l]; simpl; [now rewrite firstn_nil | now rewrite IH].
Qed.

Lemma slice_batch (i : nat) (l : list Chunk.t) :
  slice i (i + batchSize) l = firstn batchSize (skipn i l).
Proof. unfold slice. f_equal. lia. Qed.

(** The loop stops at the first batch whose insert fails: the batches
    before it stay stored. *)
Lemma insertBatches_fails (f : Faults) (allChunks : list Chunk.t)
    (message : jsstring) (k : nat) :
  forall i db,
    (forall j, j < k -> insertError f (i + batchSize * j) = None) ->
    insertError f (i + batchSize * k) = Some message ->
    i + batchSize * k < length allChunks ->
    insertBatches f allChunks i db =
    (Throw (lit "Failed to insert chunks: " ++ message),
     mkDatabase (iso_chunks db ++ firstn (batchSize * k) (skipn i allChunks))
                (iso_documents db)).
Proof.
  induction k as [|k IH]; intros i db Hok Hfail Hlt; rewrite insertBatches_unfold.
  - rewrite Nat.mul_0_r, Nat.add_0_r in *.
    destruct (lt_dec i (length allChunks)); [|lia].
    rewrite Hfail. simpl. rewrite app_nil_r. now destruct db.
  - destruct (lt_dec i (length allChunks)); [|lia].
    pose proof (Hok 0 ltac:(lia)) as H0.
    rewrite Nat.mul_0_r, Nat.add_0_r in H0. rewrite H0.
    rewrite IH.
    + simpl iso_chunks. simpl iso_documents. f_equal. f_equal.
      rewrite <- app_assoc. f_equal.
      replace (batchSize * S k) with (batchSize + batchSize * k) by lia.
      rewrite firstn_plus, slice_batch, skipn_skipn. do 3 f_equal. lia.
    + intros j Hj. rewrite <- (Hok (S j)) by lia. f_equal. lia.
    + rewrite <- Hfail. f_equal. lia.
    + lia.
Qed.

(** Without a failing insert the loop ends and every row is stored. *)
Lemma insertBatches_succeeds (f : Faults) (allChunks : list Chunk.t) :
  (forall j, insertError f j = None) ->
  forall n i db,
    length allChunks - i <= n ->
    insertBatches f allChunks i db =
    (Return tt, mkDatabase (iso_chunks db ++ skipn i allChunks) (iso_documents db)).
Proof.
  intros Hok. induction n as [|n IH]; intros i db Hn; rewrite insertBatches_unfold.
  - destruct (lt_dec i (length allChunks)); [lia|].
    rewrite skipn_all2 by lia. rewrite app_nil_r. now destruct db.
  - destruct (lt_dec i (length allChunks)).
    + rewrite Hok, IH by (unfold batchSize; lia).
      simpl iso_chunks. simpl iso_documents. f_equal. f_equal.
      rewrite <- app_assoc. f_equal.
      rewrite slice_batch, (Nat.add_comm i batchSize), <- skipn_skipn.
      apply firstn_skipn.
    + rewrite skipn_all2 by lia. rewrite app_nil_r. now destruct db.
Qed.

Lemma filter_filter_neg {A} (p : A -> bool) (l : list A) :
  filter p (filter (fun x => negb (p x)) l) = [].
Proof.
  induction l as [|x l IH]; simpl; [reflexivity|].
  destruct (p x) eqn:E; simpl; [exact IH | now rewrite E].
Qed.

Lemma filter_idem {A} (p : A -> bool) (l : list A) :
  filter p (filter p l) = filter p l.
Proof.
  induction l as [|x l IH]; simpl; [reflexivity|].
  destruct (p x) eqn:E; simpl; [rewrite E; now f_equal | exact IH].
Qed.

Lemma filter_all {A} (p : A -> bool) (l : list A) :
  Forall (fun x => p x = true) l -> filter p l = l.
Proof.
  induction 1 as [|x l Hx _ IH]; simpl; [reflexivity|]. rewrite Hx. now f_equal.
Qed.

Lemma filter_none {A} (p : A -> bool) (l : list A) :
  Forall (fun x => p x = false) l -> filter p l = [].
Proof.
  induction 1 as [|x l Hx _ IH]; simpl; [reflexivity|]. now rewrite Hx.
Qed.

Lemma Forall_firstn {A} (P : A -> Prop) (n : nat) (l : list A) :
  Forall P l -> Forall P (firstn n l).
Proof.
  intros H. revert n. induction H as [|x l Hx _ IH]; intros [|n]; simpl;
    constructor; auto.
Qed.

(** The rows of a document after its old rows were deleted and [rows] of
    its own were added. *)
Lemma chunksOf_replaced (documentId : jsstring) (db : Database)
    (rows : list Chunk.t) :
  Forall (fun r => Chunk.document_id r = documentId) rows ->
  let db' := mkDatabase (otherChunks documentId db ++ rows) (iso_documents db) in
  chunksOf documentId db' = rows /\
  otherChunks documentId db' = otherChunks documentId db.
Proof.
  intros Hrows. unfold chunksOf, otherChunks. simpl. rewrite !filter_app.
  rewrite filter_filter_neg, filter_idem.
  rewrite (filter_all (fun r => streq (Chunk.document_id r) documentId) rows).
  - rewrite (filter_none (fun r => negb (streq (Chunk.document_id r) documentId)) rows).
    + now rewrite app_nil_r.
    + eapply Forall_impl; [|exact Hrows]. simpl. intros r ->. now rewrite streq_refl.
  - eapply Forall_impl; [|exact Hrows]. simpl. intros r ->. apply streq_refl.
Qed.

End Storage.

(* ===================================================================== *)
(** * The ingestion handler *)
(* ===================================================================== *)


(** C1, as the specification words it, fails: a document of 51 chunks
    whose second batch is refused is left with the first 50 chunks of the
    new generation, which is neither the old generation nor the new
    one. *)
Lemma serve_leaves_partial_chunks :
  let text := Fixtures.text51 in
  let new := buildChunks (lit "doc1") (extractSections text) text in
  let old := chunksOf (lit "doc1") Fixtures.database in
  let result := ProcessDocument.serve Fixtures.secondBatchFails Fixtures.request
                      (Downloaded (mkFile [] text)) Fixtures.database in
  fst result = Return (Failure 500 (lit "Failed to insert chunks: timeout")) /\
  length old = 1 /\ length new = 51 /\
  length (chunksOf (lit "doc1") (snd result)) = 50 /\
  ~ Spec.atomicPut old new (chunksOf (lit "doc1") (snd result)).
Proof.
  cbv zeta. split; [vm_compute; reflexivity|].
  split; [vm_compute; reflexivity|].
  split; [vm_compute; reflexivity|].
  split; [vm_compute; reflexivity|].
  intros [H|H]; apply (f_equal (@length Chunk.t)) in H; vm_compute in H; discriminate.
Qed.

(** The loop over the batches either inserts every batch, or stops at
    a first batch whose insert is refused. *)
Lemma insertBatches_outcome (f : Faults) (allChunks : list Chunk.t) :
  forall n i db,
    length allChunks - i <= n ->
    insertBatches f allChunks i db =
      (Return tt, mkDatabase (iso_chunks db ++ skipn i allChunks) (iso_documents db)) \/
    exists k message,
      (forall j, j < k -> insertError f (i + batchSize * j) = None) /\
      insertError f (i + batchSize * k) = Some message /\
      i + batchSize * k < length allChunks.
Proof.
  induction n as [|n IH]; intros i db Hn.
  - left. rewrite insertBatches_unfold.
    destruct (lt_dec i (length allChunks)); [lia|].
    rewrite skipn_all2 by lia. rewrite app_nil_r. now destruct db.
  - destruct (lt_dec i (length allChunks)) as [Hlt | Hge].
    + destruct (insertError f i) as [message|] eqn:Ei.
      * right. exists 0, message. rewrite Nat.mul_0_r, Nat.add_0_r.
        split; [intros j Hj; lia|]. split; assumption.
      * destruct (IH (i + batchSize)
                     (mkDatabase (iso_chunks db ++ slice i (i + batchSize) allChunks)
                                 (iso_documents db)))
          as [E | (k & message & Hok & Hfail & Hk)]; [unfold batchSize; lia | |].
        -- left. rewrite insertBatches_unfold.
           destruct (lt_dec i (length allChunks)); [|lia].
           rewrite Ei, E. simpl iso_chunks. simpl iso_documents. f_equal. f_equal.
           rewrite <- app_assoc. f_equal.
           rewrite slice_batch, (Nat.add_comm i batchSize), <- skipn_skipn.
           apply firstn_skipn.
        -- right. exists (S k), message. split; [|split].
           ++ intros [|j] Hj.
              ** now rewrite Nat.mul_0_r, Nat.add_0_r.
              ** rewrite <- (Hok j) by lia. f_equal. lia.
           ++ rewrite <- Hfail. f_equal. lia.
           ++ lia.
    + left. rewrite insertBatches_unfold.
      destruct (lt_dec i (length allChunks)); [lia|].
      rewrite skipn_all2 by lia. rewrite app_nil_r. now destruct db.
Qed.

(** When the insert of a batch is refused, the batches before it having
    been stored, the handler answers with status 500 and the message of
    the error; the chunks of the document are then the rows the delete
    left followed by the batches inserted before the failure. *)
Lemma serve_insert_fails
    (f : Faults) (req : ProcessRequest) (file : File) (db : Database)
    (k : nat) (message : jsstring) :
  let text := extractedTextOf file in
  let allChunks := buildChunks (documentId req) (extractSections text) text in
  50 <= length text ->
  (forall j, j < k -> insertError f (batchSize * j) = None) ->
  insertError f (batchSize * k) = Some message ->
  batchSize * k < length allChunks ->
  exists db',
    ProcessDocument.serve f req (Downloaded file) db =
      (Return (Failure 500 (lit "Failed to insert chunks: " ++ message)), db') /\
    chunksOf (documentId req) db' =
      (if deleteFails f then chunksOf (documentId req) db else []) ++
      firstn (batchSize * k) allChunks /\
    length (firstn (batchSize * k) allChunks) < length allChunks /\
    otherChunks (documentId req) db' = otherChunks (documentId req) db /\
    iso_documents db' = iso_documents db.
Proof.
  intros text allChunks Hlen Hok Hfail Hlt.
  assert (Hrows : Forall (fun r => Chunk.document_id r = documentId req)
                         (firstn (batchSize * k) allChunks)).
  { apply Forall_firstn. apply buildChunks_document_id. }
  unfold ProcessDocument.serve, tryCatch, process. fold text.
  destruct (length text <? 50) eqn:E; [apply Nat.ltb_lt in E; lia|].
  fold allChunks. unfold bind, deleteChunks.
  set (db1 := if deleteFails f then db
              else mkDatabase (otherChunks (documentId req) db) (iso_documents db)).
  assert (E1 : (if deleteFails f then (Return tt, db)
                else (Return tt, mkDatabase
                        (filter (fun r => negb (streq (Chunk.document_id r) (documentId req)))
                                (iso_chunks db)) (iso_documents db)))
               = (Return tt, db1)).
  { unfold db1, otherChunks. destruct (deleteFails f); reflexivity. }
  rewrite E1.
  rewrite (insertBatches_fails f allChunks message k 0 db1) by assumption.
  simpl skipn. unfold ret.
  eexists. split; [reflexivity|].
  rewrite length_firstn.
  unfold db1. destruct (deleteFails f).
  - unfold chunksOf, otherChunks. cbn [iso_chunks iso_documents]. rewrite !filter_app.
    rewrite (filter_all (fun r => streq (Chunk.document_id r) (documentId req))
                        (firstn (batchSize * k) allChunks)).
    + rewrite (filter_none (fun r => negb (streq (Chunk.document_id r) (documentId req)))
                           (firstn (batchSize * k) allChunks)).
      * rewrite app_nil_r. repeat split. lia.
      * eapply Forall_impl; [|exact Hrows]. simpl. intros r ->. now rewrite streq_refl.
    + eapply Forall_impl; [|exact Hrows]. simpl. intros r ->. apply streq_refl.
  - destruct (chunksOf_replaced (documentId req) db _ Hrows) as (Hc & Ho).
    cbv zeta in Hc, Ho. simpl iso_chunks. simpl iso_documents.
    rewrite Hc, Ho. repeat split. lia.
Qed.

(** C1, amended: ingestion is not atomic.  Once the request is read, it
    fails in three ways and in no other, the handler validating no chunk,
    and every failure is answered with status 500.  A download error and
    an extracted text of fewer than 50 characters come before the delete:
    the database is left exactly as it was.  When the insert of a batch is refused, the
    batches before it having been stored, the response carries the
    message of the error and the chunks of the document are the rows the
    delete left (none when it succeeded) followed by the batches inserted
    before the failure, a strict prefix of the new generation; the chunks
    of the other documents and the table of documents are as before. *)
Theorem serve_failures (f : Faults) (req : ProcessRequest) (db : Database) :
  (forall message,
     ProcessDocument.serve f req (DownloadError message) db =
     (Return (Failure 500 (lit "Failed to download file: " ++ message)), db)) /\
  (forall file,
     length (extractedTextOf file) < 50 ->
     ProcessDocument.serve f req (Downloaded file) db =
     (Return (Failure 500 extractionMessage), db)) /\
  (forall file k message,
     let text := extractedTextOf file in
     let allChunks := buildChunks (documentId req) (extractSections text) text in
     50 <= length text ->
     (forall j, j < k -> insertError f (batchSize * j) = None) ->
     insertError f (batchSize * k) = Some message ->
     batchSize * k < length allChunks ->
     exists db',
       ProcessDocument.serve f req (Downloaded file) db =
         (Return (Failure 500 (lit "Failed to insert chunks: " ++ message)), db') /\
       chunksOf (documentId req) db' =
         (if deleteFails f then chunksOf (documentId req) db else []) ++
         firstn (batchSize * k) allChunks /\
       length (firstn (batchSize * k) allChunks) < length allChunks /\
       otherChunks (documentId req) db' = otherChunks (documentId req) db /\
       iso_documents db' = iso_documents db) /\
  (forall download status error db',
     ProcessDocument.serve f req download db = (Return (Failure status error), db') ->
     (exists message, download = DownloadError message) \/
     (exists file, download = Downloaded file /\ length (extractedTextOf file) < 50) \/
     (exists file k message,
        let text := extractedTextOf file in
        let allChunks := buildChunks (documentId req) (extractSections text) text in
        download = Downloaded file /\
        50 <= length text /\
        (forall j, j < k -> insertError f (batchSize * j) = None) /\
        insertError f (batchSize * k) = Some message /\
        batchSize * k < length allChunks)).
Proof.
  split; [reflexivity|]. split; [|split].
  - intros file H. unfold ProcessDocument.serve, tryCatch, process.
    apply Nat.ltb_lt in H. rewrite H. reflexivity.
  - intros file k message. apply serve_insert_fails.
  - intros [file | message] status error db' H; [|left; now exists message].
    right.
    destruct (le_lt_dec 50 (length (extractedTextOf file))) as [Hlen | Hlen];
      [right | left; now exists file].
    exists file.
    set (text := extractedTextOf file) in *.
    set (allChunks := buildChunks (documentId req) (extractSections text) text).
    set (db1 := if deleteFails f then db
                else mkDatabase (otherChunks (documentId req) db) (iso_documents db)).
    destruct (insertBatches_outcome f allChunks (length allChunks) 0 db1 ltac:(lia))
      as [E | (k & message & Hok & Hfail & Hk)].
    + exfalso. unfold ProcessDocument.serve, tryCatch, process in H. fold text in H.
      destruct (length text <? 50) eqn:El; [apply Nat.ltb_lt in El; lia|].
      fold allChunks in H. unfold bind, deleteChunks in H.
      assert (E1 : (if deleteFails f then (Return tt, db)
                    else (Return tt, mkDatabase
                            (filter (fun r => negb (streq (Chunk.document_id r) (documentId req)))
                                    (iso_chunks db)) (iso_documents db)))
                   = (Return tt, db1)).
      { unfold db1, otherChunks. destruct (deleteFails f); reflexivity. }
      rewrite E1, E in H. unfold markProcessed, ret in H.
      destruct (updateFails f); discriminate H.
    + exists k, message. cbv zeta. fold text. fold allChunks.
      split; [reflexivity|]. split; [exact Hlen|]. split; [exact Hok|].
      split; assumption.
Qed.

Lemma serve_failures_witness :
  let f := Fixtures.secondBatchFails in
  let req := Fixtures.request in
  let file := mkFile [] Fixtures.text51 in
  let db := Fixtures.database in
  let text := extractedTextOf file in
  let allChunks := buildChunks (documentId req) (extractSections text) text in
  50 <= length text /\
  (forall j, j < 1 -> insertError f (batchSize * j) = None) /\
  insertError f (batchSize * 1) = Some (lit "timeout") /\
  batchSize * 1 < length allChunks /\
  exists db',
    ProcessDocument.serve f req (Downloaded file) db =
      (Return (Failure 500 (lit "Failed to insert chunks: " ++ lit "timeout")), db') /\
    chunksOf (documentId req) db' =
      (if deleteFails f then chunksOf (documentId req) db else []) ++
      firstn (batchSize * 1) allChunks /\
    length (firstn (batchSize * 1) allChunks) < length allChunks /\
    otherChunks (documentId req) db' = otherChunks (documentId req) db /\
    iso_documents db' = iso_documents db.
Proof.
  cbv zeta.
  assert (H1 : 50 <= length (extractedTextOf (mkFile [] Fixtures.text51))).
  { vm_compute. lia. }
  assert (H2 : forall j, j < 1 ->
                 insertError Fixtures.secondBatchFails (batchSize * j) = None).
  { intros j Hj. assert (j = 0) by lia. subst j. reflexivity. }
  assert (H3 : insertError Fixtures.secondBatchFails (batchSize * 1) = Some (lit "timeout")).
  { reflexivity. }
  assert (H4 : batchSize * 1 <
               length (buildChunks (documentId Fixtures.request)
                         (extractSections (extractedTextOf (mkFile [] Fixtures.text51)))
                         (extractedTextOf (mkFile [] Fixtures.text51)))).
  { vm_compute. lia. }
  split; [exact H1|]. split; [exact H2|]. split; [exact H3|]. split; [exact H4|].
  exact (proj1 (proj2 (proj2 (serve_failures Fixtures.secondBatchFails Fixtures.request
                                Fixtures.database)))
           (mkFile [] Fixtures.text51) 1 (lit "timeout") H1 H2 H3 H4).
Defined.

(** When nothing fails the document holds the complete new generation. *)
Lemma serve_success (req : ProcessRequest) (file : File) (db : Database) :
  let text := extractedTextOf file in
  let allChunks := buildChunks (documentId req) (extractSections text) text in
  50 <= length text ->
  exists db',
    ProcessDocument.serve noFaults req (Downloaded file) db =
      (Return (Success (length allChunks) (length text)
                       (length (extractSections text))), db') /\
    chunksOf (documentId req) db' = allChunks /\
    otherChunks (documentId req) db' = otherChunks (documentId req) db.
Proof.
  intros text allChunks Hlen.
  unfold ProcessDocument.serve, tryCatch, process. fold text.
  destruct (length text <? 50) eqn:E; [apply Nat.ltb_lt in E; lia|].
  fold allChunks. unfold bind, deleteChunks. simpl deleteFails. cbv iota.
  rewrite (insertBatches_succeeds noFaults allChunks (fun _ => eq_refl)
             (length allChunks) 0) by lia.
  simpl skipn. unfold markProcessed, ret. simpl updateFails. cbv iota.
  eexists. split; [reflexivity|].
  pose proof (buildChunks_document_id (documentId req) (extractSections text) text) as Hrows.
  fold allChunks in Hrows.
  destruct (chunksOf_replaced (documentId req) db _ Hrows) as (Hc & Ho).
  cbv zeta in Hc, Ho. unfold chunksOf, otherChunks in *. simpl in *.
  split; assumption.
Qed.

(** C7, as the specification words it, fails: a text of 9 characters is
    refused and no chunk is written, but the document keeps the status it
    had; nothing marks it as failed. *)
Lemma serve_short_text_status :
  let result := ProcessDocument.serve noFaults Fixtures.request
                      (Downloaded (mkFile [] (lit "too short"))) Fixtures.database in
  fst result = Return (Failure 500 extractionMessage) /\
  map Spec.statusOf (iso_documents (snd result)) = [Spec.Unprocessed] /\
  ~ In Spec.Failed (map Spec.statusOf (iso_documents (snd result))).
Proof.
  cbv zeta. split; [vm_compute; reflexivity|].
  split; [vm_compute; reflexivity|].
  vm_compute. intros [H|[]]. discriminate.
Qed.

(** C7, amended: when the extracted text has fewer than 50 characters the
    handler answers with status 500 and the extraction message, and the
    database is left as it was: no chunk is created or deleted, and the
    row of the document, its [processed] flag included, is unchanged. *)
Theorem serve_extraction_failure
    (f : Faults) (req : ProcessRequest) (file : File) (db : Database) :
  length (extractedTextOf file) < 50 ->
  ProcessDocument.serve f req (Downloaded file) db = (Return (Failure 500 extractionMessage), db).
Proof.
  intros H. unfold ProcessDocument.serve, tryCatch, process.
  apply Nat.ltb_lt in H. rewrite H. reflexivity.
Qed.

Lemma serve_extraction_failure_witness :
  length (extractedTextOf (mkFile (lit "pdf") (lit "too short"))) < 50 /\
  ProcessDocument.serve Fixtures.secondBatchFails Fixtures.request
        (Downloaded (mkFile (lit "pdf") (lit "too short"))) Fixtures.database =
  (Return (Failure 500 extractionMessage), Fixtures.database).
Proof.
  assert (H : length (extractedTextOf (mkFile (lit "pdf") (lit "too short"))) < 50).
  { vm_compute. lia. }
  split; [exact H|].
  exact (serve_extraction_failure Fixtures.secondBatchFails Fixtures.request
           (mkFile (lit "pdf") (lit "too short")) Fixtures.database H).
Defined.

(* ===================================================================== *)
(** * Retrieval *)
(* ===================================================================== *)


Lemma firstNonEmpty_one (tier : list ISOChunk.t) : Spec.firstNonEmpty [tier] = tier.
Proof. destruct tier; reflexivity. Qed.

(** C2, as the specification words it, fails: the function has no vector
    tier.  Where a vector search would have found a chunk, the three-tier
    chain returns it; the function returns what the full-text search
    finds. *)
Lemma relevantChunks_without_vector_tier :
  let vector := [ChatFixtures.chunk 7 (lit "found by vector search")] in
  let fullText := [ChatFixtures.chunk 0 (lit "found by full-text search")] in
  let textSearch := ChatFixtures.answers fullText in
  let selectOr := ChatFixtures.answers [] in
  let question := lit "quality management" in
  relevantChunks ChatFixtures.lowerAscii textSearch selectOr question = fullText /\
  Spec.retrieveTiers 5
    [vector;
     fullTextTier ChatFixtures.lowerAscii textSearch question;
     substringTier selectOr question] = vector /\
  relevantChunks ChatFixtures.lowerAscii textSearch selectOr question <>
  Spec.retrieveTiers 5
    [vector;
     fullTextTier ChatFixtures.lowerAscii textSearch question;
     substringTier selectOr question].
Proof.
  cbv zeta. split; [vm_compute; reflexivity|]. split; [vm_compute; reflexivity|].
  vm_compute. discriminate.
Qed.

Lemma relevantChunks_tiers
    (toLowerCase : jsstring -> jsstring)
    (textSearch selectOr : jsstring -> QueryResult) (question : jsstring) :
  relevantChunks toLowerCase textSearch selectOr question =
  Spec.retrieveTiers 5
    [fullTextTier toLowerCase textSearch question; substringTier selectOr question].
Proof.
  unfold relevantChunks, fullTextTier, rowsOf, Spec.retrieveTiers, limit.
  cbn [error data].
  assert (F : fallbackChunks selectOr question = firstn 5 (substringTier selectOr question)).
  { unfold fallbackChunks, substringTier, rowsOf, limit. cbn [data].
    destruct (keywordsOf question) as [|k ks]; [reflexivity|].
    destruct (data (selectOr (ilikeFilter (k :: ks)))); reflexivity. }
  assert (G : firstn 5 (Spec.firstNonEmpty [[]; substringTier selectOr question]) =
              fallbackChunks selectOr question).
  { change (Spec.firstNonEmpty [[]; substringTier selectOr question])
      with (Spec.firstNonEmpty [substringTier selectOr question]).
    now rewrite firstNonEmpty_one. }
  destruct (error (textSearch (searchTermsOf toLowerCase question))) eqn:Eerr.
  - now rewrite G.
  - destruct (data (textSearch (searchTermsOf toLowerCase question))) as [[|c cs]|].
    + symmetry. exact G.
    + reflexivity.
    + symmetry. exact G.
Qed.

Section QuestionWords.

Lemma filter_truthy_cons (p : jsstring) (ps : list jsstring) :
  filter truthy (p :: ps) = Spec.closeWord p ++ filter truthy ps.
Proof. unfold Spec.closeWord. simpl. now destruct (truthy p). Qed.

Lemma splitRegex_cons (m : matcher) (skip : nat) (prev : option char) (s : jsstring) :
  exists p ps, splitRegex m skip prev s = p :: ps.
Proof.
  revert skip prev. induction s as [|c rest IH]; intros skip prev; simpl; [eauto|].
  destruct skip as [|k]; [|apply IH].
  destruct (m prev (c :: rest)) as [[|k]|]; eauto;
    destruct (IH 0 (Some c)) as (p & ps & ->); simpl; eauto.
Qed.

(** The pieces of the split on white space, the empty ones apart, are
    the words of the string. *)
Lemma scanWords_split (s : jsstring) :
  (forall word prev,
     Spec.scanWords word s =
     Spec.closeWord (word ++ hd [] (splitRegex reWhiteSpace 0 prev s)) ++
     filter truthy (tl (splitRegex reWhiteSpace 0 prev s))) /\
  (forall skip prev,
     skip <= wsRun s ->
     filter truthy (splitRegex reWhiteSpace skip prev s) = Spec.scanWords [] s).
Proof.
  induction s as [|c rest [IH1 IH2]].
  - split; [intros word prev | intros skip prev _]; simpl.
    + now rewrite !app_nil_r.
    + reflexivity.
  - assert (H1 : forall word prev,
               Spec.scanWords word (c :: rest) =
               Spec.closeWord (word ++ hd [] (splitRegex reWhiteSpace 0 prev (c :: rest))) ++
               filter truthy (tl (splitRegex reWhiteSpace 0 prev (c :: rest)))).
    { intros word prev. cbn [Spec.scanWords splitRegex].
      assert (Em : reWhiteSpace prev (c :: rest) =
                   if isWhiteSpace c then Some (S (wsRun rest)) else None).
      { unfold reWhiteSpace. rewrite wsRun_cons. now destruct (isWhiteSpace c). }
      rewrite Em. destruct (isWhiteSpace c) eqn:Ec; cbn [hd tl].
      - rewrite app_nil_r. f_equal. symmetry. now apply IH2.
      - destruct (splitRegex_cons reWhiteSpace 0 (Some c) rest) as (p & ps & E).
        rewrite (IH1 (word ++ [c]) (Some c)), E. cbn [consHead hd tl].
        now rewrite <- app_assoc. }
    split; [exact H1|].
    intros [|k] prev Hk.
    + rewrite (H1 [] prev).
      destruct (splitRegex_cons reWhiteSpace 0 prev (c :: rest)) as (p & ps & ->).
      apply filter_truthy_cons.
    + rewrite wsRun_cons in Hk. cbn [Spec.scanWords splitRegex].
      destruct (isWhiteSpace c); [|lia].
      rewrite IH2 by lia. reflexivity.
Qed.

Lemma split_words (s : jsstring) :
  filter truthy (split reWhiteSpace s) = Spec.words s.
Proof. apply (proj2 (scanWords_split s) 0 None). lia. Qed.

Lemma filter_longer (n : nat) (l : list jsstring) :
  filter (fun w => n <? length w) (filter truthy l) =
  filter (fun w => n <? length w) l.
Proof.
  induction l as [|w l IH]; [reflexivity|]. simpl.
  destruct w as [|c w]; simpl; [exact IH|].
  destruct (n <? S (length w)); [now f_equal | exact IH].
Qed.

(** The keywords of the fallback are the first three words of more than
    three characters of the question. *)
Lemma keywordsOf_words_of (question : jsstring) :
  keywordsOf question =
  firstn 3 (filter (fun w => 3 <? length w) (Spec.words question)).
Proof. unfold keywordsOf. now rewrite <- split_words, filter_longer. Qed.

(** The terms of the full-text search are the words of more than two
    characters of the question in lower case. *)
Lemma searchTermsOf_words_of (toLowerCase : jsstring -> jsstring) (question : jsstring) :
  searchTermsOf toLowerCase question =
  join (lit " & ")
       (filter (fun w => 2 <? length w) (Spec.words (toLowerCase question))).
Proof. unfold searchTermsOf. now rewrite <- split_words, filter_longer. Qed.

End QuestionWords.

(** C2, amended: retrieval degrades through two tiers in order.  The
    first is the full-text search, for the words of more than two
    characters of the question in lower case; the second, tried when the
    first fails or finds nothing, is the ILIKE (substring) search for the
    first three words of more than three characters of the question, the
    words being its runs of characters other than white space; without
    such a word the second tier finds nothing.  The result is the first
    non-empty tier cut to five rows; when both tiers find nothing it is
    the empty list, not an error. *)
Theorem relevantChunks_two_tiers
    (toLowerCase : jsstring -> jsstring)
    (textSearch selectOr : jsstring -> QueryResult) (question : jsstring) :
  let terms :=
    join (lit " & ")
         (filter (fun w => 2 <? length w) (Spec.words (toLowerCase question))) in
  let keywords := firstn 3 (filter (fun w => 3 <? length w) (Spec.words question)) in
  let fullText := if error (textSearch terms) then [] else rowsOf (textSearch terms) in
  let substring :=
    match keywords with
    | [] => []
    | _ :: _ =>
        rowsOf (selectOr (join (lit ",")
                            (map (fun k => lit "content.ilike.%" ++ k ++ lit "%") keywords)))
    end in
  relevantChunks toLowerCase textSearch selectOr question =
    Spec.retrieveTiers 5 [fullText; substring] /\
  length (relevantChunks toLowerCase textSearch selectOr question) <= 5 /\
  (relevantChunks toLowerCase textSearch selectOr question = [] <->
   fullText = [] /\ substring = []).
Proof.
  intros terms keywords fullText substring.
  assert (Ef : fullText = fullTextTier toLowerCase textSearch question).
  { unfold fullText, terms. rewrite <- searchTermsOf_words_of. reflexivity. }
  assert (Es : substring = substringTier selectOr question).
  { unfold substring, keywords. rewrite <- keywordsOf_words_of.
    unfold substringTier, ilikeFilter. now destruct (keywordsOf question). }
  clearbody fullText substring. subst fullText substring.
  rewrite relevantChunks_tiers. unfold Spec.retrieveTiers.
  split; [reflexivity|]. split; [apply firstn_le_length|].
  destruct (fullTextTier toLowerCase textSearch question) as [|c cs].
  - change (Spec.firstNonEmpty [[]; substringTier selectOr question])
      with (Spec.firstNonEmpty [substringTier selectOr question]).
    rewrite firstNonEmpty_one.
    destruct (substringTier selectOr question) as [|d ds]; simpl.
    + tauto.
    + split; [discriminate | intros [_ H]; discriminate H].
  - simpl. split; [discriminate | intros [H _]; discriminate H].
Qed.

(** A question whose full-text search finds nothing: the ILIKE request
    is sent for its first three words of more than three characters, in
    the case of the question, and its first five rows are the result. *)
Lemma relevantChunks_two_tiers_witness :
  let rows := map (fun i => ChatFixtures.chunk i (lit "politique qualite")) (seq 0 6) in
  let toLowerCase := ChatFixtures.lowerAscii in
  let textSearch := ChatFixtures.answers [] in
  let selectOr := fun request : jsstring =>
    if streq request
         (lit "content.ilike.%Politique%,content.ilike.%QUALITE%,content.ilike.%norme%")
    then mkResult (Some rows) false
    else mkResult (Some []) false in
  let question := lit "La Politique QUALITE de la norme ISO 9001" in
  (relevantChunks toLowerCase textSearch selectOr question = firstn 5 rows /\
   length (relevantChunks toLowerCase textSearch selectOr question) = 5) /\
  let terms :=
    join (lit " & ")
         (filter (fun w => 2 <? length w) (Spec.words (toLowerCase question))) in
  let keywords := firstn 3 (filter (fun w => 3 <? length w) (Spec.words question)) in
  let fullText := if error (textSearch terms) then [] else rowsOf (textSearch terms) in
  let substring :=
    match keywords with
    | [] => []
    | _ :: _ =>
        rowsOf (selectOr (join (lit ",")
                            (map (fun k => lit "content.ilike.%" ++ k ++ lit "%") keywords)))
    end in
  relevantChunks toLowerCase textSearch selectOr question =
    Spec.retrieveTiers 5 [fullText; substring] /\
  length (relevantChunks toLowerCase textSearch selectOr question) <= 5 /\
  (relevantChunks toLowerCase textSearch selectOr question = [] <->
   fullText = [] /\ substring = []).
Proof.
  split; [split; vm_compute; reflexivity|].
  exact (relevantChunks_two_tiers
           ChatFixtures.lowerAscii (ChatFixtures.answers [])
           (fun request : jsstring =>
              if streq request
                   (lit "content.ilike.%Politique%,content.ilike.%QUALITE%,content.ilike.%norme%")
              then mkResult
                     (Some (map (fun i => ChatFixtures.chunk i (lit "politique qualite"))
                                (seq 0 6))) false
              else mkResult (Some []) false)
           (lit "La Politique QUALITE de la norme ISO 9001")).
Defined.

Section AnswerOrder.

Lemma sameRows_rowsOf (r r' : QueryResult) :
  Spec.sameRows r r' -> Permutation (rowsOf r) (rowsOf r').
Proof.
  unfold Spec.sameRows, rowsOf. intros [_ H].
  destruct (data r), (data r'); try contradiction; [exact H | constructor].
Qed.

Lemma firstNonEmpty_two_perm (a a' b b' : list ISOChunk.t) :
  Permutation a a' -> Permutation b b' ->
  Permutation (Spec.firstNonEmpty [a; b]) (Spec.firstNonEmpty [a'; b']).
Proof.
  intros Ha Hb. destruct a as [|x a], a' as [|x' a'].
  - change (Permutation (Spec.firstNonEmpty [b]) (Spec.firstNonEmpty [b'])).
    now rewrite !firstNonEmpty_one.
  - apply Permutation_nil in Ha. discriminate Ha.
  - apply Permutation_sym, Permutation_nil in Ha. discriminate Ha.
  - exact Ha.
Qed.

Lemma fullTextTier_perm (toLowerCase : jsstring -> jsstring)
    (textSearch textSearch' : jsstring -> QueryResult) (question : jsstring) :
  Spec.sameRows (textSearch (searchTermsOf toLowerCase question))
                (textSearch' (searchTermsOf toLowerCase question)) ->
  Permutation (fullTextTier toLowerCase textSearch question)
              (fullTextTier toLowerCase textSearch' question).
Proof.
  intros H. unfold fullTextTier. pose proof (sameRows_rowsOf _ _ H) as Hp.
  destruct H as [<- _].
  destruct (error (textSearch (searchTermsOf toLowerCase question)));
    [constructor | exact Hp].
Qed.

Lemma substringTier_perm (selectOr selectOr' : jsstring -> QueryResult)
    (question : jsstring) :
  Spec.sameRows (selectOr (ilikeFilter (keywordsOf question)))
                (selectOr' (ilikeFilter (keywordsOf question))) ->
  Permutation (substringTier selectOr question) (substringTier selectOr' question).
Proof.
  intros H. unfold substringTier.
  destruct (keywordsOf question) as [|k ks]; [constructor|].
  now apply sameRows_rowsOf.
Qed.

End AnswerOrder.

(** C9, as the specification words it, fails: no score is computed and
    no order is imposed.  Rows of one document that the database yields
    in the order 1, 0 are returned in that order, not by ascending
    ordinal; and when the database yields the same rows in the order 0,
    1, which no clause of the request prevents, the list returned is
    another one. *)
Lemma relevantChunks_keeps_database_order :
  let rows := [ChatFixtures.chunk 1 (lit "second chunk"); ChatFixtures.chunk 0 (lit "first chunk")] in
  let rows' := [ChatFixtures.chunk 0 (lit "first chunk"); ChatFixtures.chunk 1 (lit "second chunk")] in
  let result := relevantChunks ChatFixtures.lowerAscii (ChatFixtures.answers rows)
                               (ChatFixtures.answers []) (lit "chunk") in
  let result' := relevantChunks ChatFixtures.lowerAscii (ChatFixtures.answers rows')
                                (ChatFixtures.answers []) (lit "chunk") in
  result = rows /\ Spec.ordinalsAscending result = false /\
  Spec.sameRows (ChatFixtures.answers rows (lit "chunk"))
                (ChatFixtures.answers rows' (lit "chunk")) /\
  result' = rows' /\ result <> result'.
Proof.
  cbv zeta. split; [vm_compute; reflexivity|]. split; [vm_compute; reflexivity|].
  split; [split; [reflexivity | apply perm_swap]|].
  split; [vm_compute; reflexivity|].
  vm_compute. discriminate.
Qed.

(** C9, amended: retrieval computes no score and imposes no order of its
    own.  Its result is the first five rows, in the order in which the
    database yields them, of the answer to the full-text request when
    that request succeeds with a row at least, and else of the answer to
    the ILIKE request.  For one state of the index, that is for answers
    that hold the same rows in whatever order, two calls return lists of
    the same length; when at most five rows match they return the same
    rows, possibly in another order; and they return the same list when
    the database yields the rows in the same order. *)
Theorem relevantChunks_order_of_answers
    (toLowerCase : jsstring -> jsstring)
    (textSearch textSearch' selectOr selectOr' : jsstring -> QueryResult)
    (question : jsstring) :
  Spec.sameRows (textSearch (searchTermsOf toLowerCase question))
                (textSearch' (searchTermsOf toLowerCase question)) ->
  Spec.sameRows (selectOr (ilikeFilter (keywordsOf question)))
                (selectOr' (ilikeFilter (keywordsOf question))) ->
  let answer :=
    Spec.firstNonEmpty [fullTextTier toLowerCase textSearch question;
                        substringTier selectOr question] in
  let answer' :=
    Spec.firstNonEmpty [fullTextTier toLowerCase textSearch' question;
                        substringTier selectOr' question] in
  let result := relevantChunks toLowerCase textSearch selectOr question in
  let result' := relevantChunks toLowerCase textSearch' selectOr' question in
  result = firstn 5 answer /\
  result' = firstn 5 answer' /\
  Permutation answer answer' /\
  length result = length result' /\
  (length answer <= 5 -> Permutation result result') /\
  (answer = answer' -> result = result').
Proof.
  intros Hts Hso answer answer' result result'.
  assert (Er : result = firstn 5 answer) by apply relevantChunks_tiers.
  assert (Er' : result' = firstn 5 answer') by apply relevantChunks_tiers.
  assert (Hp : Permutation answer answer').
  { apply firstNonEmpty_two_perm;
      [now apply fullTextTier_perm | now apply substringTier_perm]. }
  pose proof (Permutation_length Hp) as Hl.
  split; [exact Er|]. split; [exact Er'|]. split; [exact Hp|].
  rewrite Er, Er'. split; [|split].
  - rewrite !length_firstn. lia.
  - intros H5. rewrite !firstn_all2 by lia. exact Hp.
  - now intros ->.
Qed.

Lemma relevantChunks_order_of_answers_witness :
  let rows := [ChatFixtures.chunk 1 (lit "second chunk"); ChatFixtures.chunk 0 (lit "first chunk")] in
  let rows' := [ChatFixtures.chunk 0 (lit "first chunk"); ChatFixtures.chunk 1 (lit "second chunk")] in
  let toLowerCase := ChatFixtures.lowerAscii in
  let textSearch := ChatFixtures.answers rows in
  let textSearch' := ChatFixtures.answers rows' in
  let selectOr := ChatFixtures.answers [] in
  let question := lit "chunk" in
  Spec.sameRows (textSearch (searchTermsOf toLowerCase question))
                (textSearch' (searchTermsOf toLowerCase question)) /\
  Spec.sameRows (selectOr (ilikeFilter (keywordsOf question)))
                (selectOr (ilikeFilter (keywordsOf question))) /\
  let answer :=
    Spec.firstNonEmpty [fullTextTier toLowerCase textSearch question;
                        substringTier selectOr question] in
  let answer' :=
    Spec.firstNonEmpty [fullTextTier toLowerCase textSearch' question;
                        substringTier selectOr question] in
  let result := relevantChunks toLowerCase textSearch selectOr question in
  let result' := relevantChunks toLowerCase textSearch' selectOr question in
  result = firstn 5 answer /\
  result' = firstn 5 answer' /\
  Permutation answer answer' /\
  length result = length result' /\
  (length answer <= 5 -> Permutation result result') /\
  (answer = answer' -> result = result').
Proof.
  cbv zeta.
  set (rows := [ChatFixtures.chunk 1 (lit "second chunk"); ChatFixtures.chunk 0 (lit "first chunk")]).
  set (rows' := [ChatFixtures.chunk 0 (lit "first chunk"); ChatFixtures.chunk 1 (lit "second chunk")]).
  assert (H1 : Spec.sameRows
                 (ChatFixtures.answers rows (searchTermsOf ChatFixtures.lowerAscii (lit "chunk")))
                 (ChatFixtures.answers rows' (searchTermsOf ChatFixtures.lowerAscii (lit "chunk")))).
  { split; [reflexivity | apply perm_swap]. }
  assert (H2 : Spec.sameRows
                 (ChatFixtures.answers [] (ilikeFilter (keywordsOf (lit "chunk"))))
                 (ChatFixtures.answers [] (ilikeFilter (keywordsOf (lit "chunk"))))).
  { split; [reflexivity | constructor]. }
  split; [exact H1|]. split; [exact H2|].
  exact (relevantChunks_order_of_answers ChatFixtures.lowerAscii
           (ChatFixtures.answers rows) (ChatFixtures.answers rows')
           (ChatFixtures.answers []) (ChatFixtures.answers []) (lit "chunk") H1 H2).
Defined.

(* ===================================================================== *)
(** * Context, sources and prompt *)
(* ===================================================================== *)

Section Context.

Lemma fold_contextStep (entries : list (nat * ISOChunk.t)) :
  forall context sources,
    fold_left contextStep entries (context, sources) =
    (context ++ concat (map contextBlock entries),
     sources ++ map (fun entry => sourceOf (snd entry)) entries).
Proof.
  induction entries as [|[index chunk] entries IH]; intros context sources.
  - simpl. now rewrite !app_nil_r.
  - change (fold_left contextStep ((index, chunk) :: entries) (context, sources))
      with (fold_left contextStep entries
              ((context ++ sourceTag index chunk) ++ (ISOChunk.content chunk ++ nl ++ nl),
               sources ++ [sourceOf chunk])).
    rewrite IH. cbn [map concat]. unfold contextBlock at 2. cbn [fst snd].
    now rewrite <- !app_assoc.
Qed.

Lemma map_snd_indexed (chunks : list ISOChunk.t) :
  map snd (indexed chunks) = chunks.
Proof.
  unfold indexed. generalize 0.
  induction chunks as [|c chunks IH]; intros n; simpl; [reflexivity|].
  now rewrite IH.
Qed.


Lemma buildContext_closed (chunks : list ISOChunk.t) :
  buildContext chunks =
  (match chunks with
   | [] => []
   | _ :: _ => contextHeader ++ concat (map contextBlock (indexed chunks))
   end,
   map sourceOf chunks).
Proof.
  unfold buildContext. destruct chunks as [|c cs]; [reflexivity|].
  rewrite fold_contextStep. f_equal.
  change (map (fun entry => sourceOf (snd entry)) (indexed (c :: cs)))
    with (map (fun entry : nat * ISOChunk.t => sourceOf (snd entry)) (indexed (c :: cs))).
  rewrite <- (map_map snd sourceOf (indexed (c :: cs))), map_snd_indexed.
  reflexivity.
Qed.

End Context.

(** C4, as the specification words it, fails: no budget bounds the
    context.  Whatever the bound, one chunk long enough exceeds it and is
    included whole. *)
Lemma buildContext_has_no_budget :
  ~ exists budget, forall chunks, length chunks <= 5 -> Spec.withinBudget budget chunks.
Proof.
  intros (budget & H).
  specialize (H [ISOChunk.mk [] (repeat 120%N (S budget)) None None None 0 None]
                ltac:(simpl; lia)).
  unfold Spec.withinBudget, buildContext, indexed in H. simpl in H.
  rewrite !length_app, repeat_length in H. lia.
Qed.

(** C4, amended: the context is the header followed, for every retrieved
    chunk in rank order, by its provenance tag (source number, document,
    section, subsection) and its whole content; no chunk is dropped or
    cut, and no bound limits the total.  The sources hold one entry per
    retrieved chunk, in the same order.  Without chunks both are
    empty. *)
Theorem buildContext_all_chunks (chunks : list ISOChunk.t) :
  snd (buildContext chunks) = map sourceOf chunks /\
  length (snd (buildContext chunks)) = length chunks /\
  fst (buildContext chunks) =
    match chunks with
    | [] => []
    | _ :: _ => contextHeader ++ concat (map contextBlock (indexed chunks))
    end.
Proof.
  rewrite buildContext_closed. simpl. now rewrite length_map.
Qed.


(** When both tiers find nothing the handler still asks for a
    completion, with the instruction in place of the context, and answers
    with sources set to null: an empty retrieval is not an error. *)
Lemma serve_without_chunks
    (toLowerCase : jsstring -> jsstring)
    (textSearch selectOr : jsstring -> QueryResult)
    (key : option jsstring) (complete : jsstring -> jsstring -> Completion)
    (req : ChatRequest) (content : option jsstring) :
  truthy (question req) = true ->
  truthy (orElse key []) = true ->
  fullTextTier toLowerCase textSearch (question req) = [] ->
  substringTier selectOr (question req) = [] ->
  complete (promptRules ++ noDocumentInstruction) (question req) = Completed content ->
  Chat.serve toLowerCase textSearch selectOr key complete req =
  Answered (orElse content (lit "Impossible de générer une réponse.")) None.
Proof.
  intros Hq Hk Hft Hsub Hc. unfold Chat.serve.
  rewrite Hq, Hk. cbn [negb].
  rewrite relevantChunks_tiers, Hft, Hsub. cbv zeta.
  change (Spec.retrieveTiers 5 [[]; []]) with (@nil ISOChunk.t).
  change (messagesFor (question req) []) with
    (promptRules ++ noDocumentInstruction, question req).
  cbv beta iota. rewrite Hc. reflexivity.
Qed.

(* ===================================================================== *)
(** * Worked examples *)
(* ===================================================================== *)

Example split_whitespace_example :
  split reWhiteSpace (lit " a  bc ") = [lit ""; lit "a"; lit "bc"; lit ""].
Proof. vm_compute. reflexivity. Qed.

Example split_sentences_example :
  split reSentenceGap (lit "Aa. Bb!  Cc d? ") = [lit "Aa."; lit "Bb!"; lit "Cc d?"; lit ""].
Proof. vm_compute. reflexivity. Qed.

Example split_lines_example :
  split reLineBreak (lit "a." ++ nl ++ nl ++ lit "B.  C. d.  E") =
  [lit "a."; lit ""; lit "B."; lit "C. d."; lit "E"].
Proof. vm_compute. reflexivity. Qed.

Example sectionMatch_example :
  sectionMatch (lit "8.2.3 Revue des exigences") = Some (lit "8.2.3") /\
  sectionMatch (lit "8.2. Revue") = None /\
  sectionMatch (lit "Revue 8.2") = None.
Proof. vm_compute. repeat split. Qed.

(** The scenario of the specification: the second heading follows a full
    stop on the same line, so the text is one section and one chunk. *)
Example extractSections_scenario :
  let text := lit "4.1 Scope" ++ nl ++ lit "This applies to widgets. 4.2 Exclusions" ++ nl ++
              lit "This excludes gadgets." in
  extractSections text =
    [Section_.mk (lit "4") (lit "4.1")
       (lit "4.1 Scope This applies to widgets. 4.2 Exclusions This excludes gadgets.") 1] /\
  map Chunk.chunk_index (buildChunks (lit "doc1") (extractSections text) text) = [0].
Proof. vm_compute. split; reflexivity. Qed.

Example buildContext_example :
  fst (buildContext [ChatFixtures.chunk 3 (lit "Texte.")]) =
  lit "Contexte ISO pertinent:" ++ nl ++ nl ++
  lit "[Source 1] Document: iso9001.pdf, Section: 4, Sous-section: 4.1" ++ nl ++
  lit "Texte." ++ nl ++ nl.
Proof. vm_compute. reflexivity. Qed.

(* ===================================================================== *)
(** * Further properties: visible characters *)
(* ===================================================================== *)

Section VisibleCharacters.

Lemma nonWs_app (a b : jsstring) : nonWs (a ++ b) = nonWs a ++ nonWs b.
Proof. apply filter_app. Qed.

Lemma nonWs_rev (s : jsstring) : nonWs (rev s) = rev (nonWs s).
Proof.
  induction s as [|c s IH]; [reflexivity|]. simpl rev.
  rewrite nonWs_app, IH. simpl. destruct (isWhiteSpace c); simpl.
  - now rewrite app_nil_r.
  - reflexivity.
Qed.

Lemma nonWs_dropWhile (s : jsstring) : nonWs (dropWhile isWhiteSpace s) = nonWs s.
Proof.
  induction s as [|c s IH]; [reflexivity|]. simpl.
  destruct (isWhiteSpace c) eqn:E; simpl; [exact IH | now rewrite E].
Qed.

Lemma nonWs_trim (s : jsstring) : nonWs (trim s) = nonWs s.
Proof.
  unfold trim, trimEnd, trimStart.
  now rewrite nonWs_rev, nonWs_dropWhile, nonWs_rev, rev_involutive, nonWs_dropWhile.
Qed.

Lemma nonWs_nil (s : jsstring) : nonWs s = [] <-> hasNonWs s = false.
Proof.
  induction s as [|c s IH]; simpl; [tauto|].
  destruct (isWhiteSpace c); simpl; [exact IH | split; discriminate].
Qed.

Lemma nonWs_concat (l : list jsstring) : nonWs (concat l) = concat (map nonWs l).
Proof.
  induction l as [|a l IH]; [reflexivity|]. simpl. now rewrite nonWs_app, IH.
Qed.

Lemma nonWs_joinSp (g : list jsstring) : nonWs (joinSp g) = nonWs (concat g).
Proof.
  unfold joinSp. induction g as [|a g IH]; [reflexivity|].
  destruct g as [|b g]; [simpl; now rewrite app_nil_r|].
  change (join (lit " ") (a :: b :: g)) with (a ++ lit " " ++ join (lit " ") (b :: g)).
  change (concat (a :: b :: g)) with (a ++ concat (b :: g)).
  rewrite !nonWs_app, IH. reflexivity.
Qed.

Lemma splitRegex_not_nil (m : matcher) (s : jsstring) :
  forall skip prev, splitRegex m skip prev s <> [].
Proof.
  induction s as [|c rest IH]; intros skip prev; simpl; [discriminate|].
  destruct skip as [|k]; [|apply IH].
  destruct (m prev (c :: rest)) as [[|k]|]; try discriminate;
    (specialize (IH 0 (Some c)); destruct (splitRegex m 0 (Some c) rest);
     [congruence | discriminate]).
Qed.

Lemma concat_consHead (c : char) (l : list jsstring) :
  l <> [] -> concat (consHead c l) = c :: concat l.
Proof. destruct l; [congruence | reflexivity]. Qed.

Lemma joinSp_consHead (c : char) (l : list jsstring) :
  l <> [] -> joinSp (consHead c l) = c :: joinSp l.
Proof. destruct l as [|h [|x t]]; [congruence | reflexivity | reflexivity]. Qed.

Lemma joinSp_nil_cons (l : list jsstring) :
  l <> [] -> joinSp ([] :: l) = 32%N :: joinSp l.
Proof. destruct l; [congruence | reflexivity]. Qed.

Lemma wsRun_le_length (s : jsstring) : wsRun s <= length s.
Proof.
  induction s as [|c s IH]; [apply Nat.le_refl|].
  rewrite wsRun_cons. destruct (isWhiteSpace c); simpl; lia.
Qed.

(** Splitting on white space takes only white space away. *)
Lemma splitRegex_nonWs (m : matcher) (Hm : wsMatcher m) (s : jsstring) :
  forall skip prev,
    skip <= wsRun s ->
    nonWs (concat (splitRegex m skip prev s)) = nonWs s.
Proof.
  induction s as [|c rest IH]; intros skip prev Hskip; [reflexivity|].
  simpl splitRegex. rewrite wsRun_cons in Hskip.
  destruct skip as [|k].
  - destruct (m prev (c :: rest)) as [[|k]|] eqn:Em.
    + rewrite concat_consHead by apply splitRegex_not_nil.
      simpl. now rewrite IH by lia.
    + apply Hm in Em. rewrite wsRun_cons in Em.
      destruct (isWhiteSpace c) eqn:Ec; [|lia].
      simpl. rewrite Ec. simpl. apply IH. lia.
    + rewrite concat_consHead by apply splitRegex_not_nil.
      simpl. now rewrite IH by lia.
  - destruct (isWhiteSpace c) eqn:Ec; [|lia].
    simpl. rewrite Ec. simpl. apply IH. lia.
Qed.

(** The pieces of a split on white space, joined by single spaces, are
    no longer than the string. *)
Lemma splitRegex_joinSp_length (m : matcher) (Hm : wsMatcher m) (s : jsstring) :
  forall skip prev,
    skip <= wsRun s ->
    length (joinSp (splitRegex m skip prev s)) + skip <= length s.
Proof.
  induction s as [|c rest IH]; intros skip prev Hskip.
  - simpl in *. unfold wsRun in Hskip. simpl in Hskip. lia.
  - simpl splitRegex. rewrite wsRun_cons in Hskip.
    destruct skip as [|k].
    + destruct (m prev (c :: rest)) as [[|k]|] eqn:Em.
      * rewrite joinSp_consHead by apply splitRegex_not_nil.
        specialize (IH 0 (Some c) ltac:(lia)). simpl. lia.
      * apply Hm in Em. rewrite wsRun_cons in Em.
        destruct (isWhiteSpace c) eqn:Ec; [|lia].
        rewrite joinSp_nil_cons by apply splitRegex_not_nil.
        specialize (IH k (Some c) ltac:(lia)). simpl. lia.
      * rewrite joinSp_consHead by apply splitRegex_not_nil.
        specialize (IH 0 (Some c) ltac:(lia)). simpl. lia.
    + destruct (isWhiteSpace c) eqn:Ec; [|lia].
      specialize (IH k (Some c) ltac:(lia)). simpl. lia.
Qed.

Lemma someIfPos_le (n k : nat) : someIfPos n = Some k -> k <= n.
Proof. intros H. apply someIfPos_Some in H. lia. Qed.

Lemma wsMatcher_sentenceGap : wsMatcher reSentenceGap.
Proof.
  intros prev s k. unfold reSentenceGap.
  destruct (prevIs isSentenceEnd prev); [apply someIfPos_le | discriminate].
Qed.

Lemma wsMatcher_whiteSpace : wsMatcher reWhiteSpace.
Proof. intros prev s k. apply someIfPos_le. Qed.

Lemma wsMatcher_lineBreak : wsMatcher reLineBreak.
Proof.
  intros prev s k. unfold reLineBreak. destruct s as [|c rest]; [discriminate|].
  destruct (N.eqb c 10) eqn:Ec.
  - apply N.eqb_eq in Ec. subst c. intros H. injection H as <-.
    rewrite wsRun_cons. simpl. lia.
  - destruct (prevIs (N.eqb 46) prev); [|discriminate].
    destruct (dropWhile isWhiteSpace (c :: rest)) as [|c' r]; [discriminate|].
    destruct (isUpperAZ c'); [apply someIfPos_le | discriminate].
Qed.

End VisibleCharacters.

(* ===================================================================== *)
(** * Further properties of [chunkText] *)
(* ===================================================================== *)

Section TrimFacts.

Lemma takeWhile_dropWhile (p : char -> bool) (s : jsstring) :
  takeWhile p s ++ dropWhile p s = s.
Proof.
  induction s as [|c s IH]; [reflexivity|]. simpl.
  destruct (p c); simpl; [now rewrite IH | reflexivity].
Qed.

Lemma dropWhile_head (p : char -> bool) (s : jsstring) :
  match dropWhile p s with
  | [] => True
  | c :: _ => p c = false
  end.
Proof.
  induction s as [|c s IH]; simpl; [exact I|].
  destruct (p c) eqn:E; [exact IH | exact E].
Qed.

Lemma dropWhile_fixed (p : char -> bool) (s : jsstring) :
  match s with [] => True | c :: _ => p c = false end -> dropWhile p s = s.
Proof. destruct s as [|c s]; simpl; [reflexivity|]. now intros ->. Qed.

Lemma dropWhile_idem (p : char -> bool) (s : jsstring) :
  dropWhile p (dropWhile p s) = dropWhile p s.
Proof. apply dropWhile_fixed, dropWhile_head. Qed.

Lemma trimEnd_idem (s : jsstring) : trimEnd (trimEnd s) = trimEnd s.
Proof. unfold trimEnd. now rewrite rev_involutive, dropWhile_idem. Qed.

(** [trimEnd] cuts a tail off. *)
Lemma trimEnd_prefix (s : jsstring) : exists tail, s = trimEnd s ++ tail.
Proof.
  exists (rev (takeWhile isWhiteSpace (rev s))). unfold trimEnd.
  rewrite <- rev_app_distr, takeWhile_dropWhile. now rewrite rev_involutive.
Qed.

Lemma trimStart_trimEnd (s : jsstring) :
  match s with [] => True | c :: _ => isWhiteSpace c = false end ->
  trimStart (trimEnd s) = trimEnd s.
Proof.
  intros H. apply dropWhile_fixed.
  destruct (trimEnd_prefix s) as (tail & E).
  destruct (trimEnd s) as [|c r]; [exact I|].
  rewrite E in H. exact H.
Qed.

Lemma trim_idem (s : jsstring) : trim (trim s) = trim s.
Proof.
  unfold trim. rewrite trimStart_trimEnd by apply dropWhile_head.
  apply trimEnd_idem.
Qed.

End TrimFacts.

Lemma chunkText_keeps_visible_characters_aux (text : jsstring) (maxChunkSize : nat) :
  nonWs (concat (chunkText text maxChunkSize)) = nonWs text.
Proof.
  destruct (chunkText_packing text maxChunkSize) as (gs & -> & _ & Hcat).
  assert (E : nonWs (concat (map chunkOfGroup gs)) = nonWs (concat (concat gs))).
  { clear Hcat. induction gs as [|g gs IH]; [reflexivity|]. cbn [map concat].
    rewrite concat_app, !nonWs_app, IH. f_equal. unfold chunkOfGroup.
    now rewrite nonWs_trim, nonWs_joinSp. }
  rewrite E.
  rewrite <- (splitRegex_nonWs reSentenceGap wsMatcher_sentenceGap text 0 None (Nat.le_0_l _)).
  fold (split reSentenceGap text).
  destruct Hcat as [<- | (lst & <- & Hlst)]; [reflexivity|].
  rewrite concat_app, nonWs_app. simpl. rewrite app_nil_r.
  apply nonWs_nil in Hlst. rewrite Hlst. now rewrite app_nil_r.
Qed.

(** X1: chunking loses no visible character and keeps their order: the
    characters other than white space of the chunks, read in order, are
    those of the text. *)
Theorem chunkText_keeps_visible_characters (text : jsstring) (maxChunkSize : nat) :
  nonWs (concat (chunkText text maxChunkSize)) = nonWs text.
Proof. apply chunkText_keeps_visible_characters_aux. Qed.

(** X2: no chunk begins or ends with white space: every chunk is its own
    trim. *)
Theorem chunkText_chunks_trimmed (text : jsstring) (maxChunkSize : nat) :
  Forall (fun c => trim c = c) (chunkText text maxChunkSize).
Proof.
  destruct (chunkText_packing text maxChunkSize) as (gs & -> & _ & _).
  apply Forall_map. apply Forall_forall. intros g _. apply trim_idem.
Qed.

Lemma chunkLoop_no_close (maxChunkSize : nat) (ss : list jsstring) :
  Forall (fun s => s <> []) (removelast ss) ->
  length (joinSp ss) <= maxChunkSize ->
  chunkLoop maxChunkSize ss = ([], joinSp ss).
Proof.
  induction ss as [|s ss' IH] using rev_ind; intros Hall Hlen; [reflexivity|].
  rewrite removelast_last in Hall.
  unfold chunkLoop in *. rewrite fold_left_app. simpl fold_left.
  destruct ss' as [|a ss''].
  { simpl. rewrite andb_false_r. reflexivity. }
  assert (Hne : a :: ss'' <> []) by discriminate.
  unfold joinSp in *. rewrite join_snoc in * by exact Hne.
  rewrite !length_app in Hlen. change (length (lit " ")) with 1 in Hlen.
  rewrite IH.
  - unfold chunkStep.
    assert (Ht : truthy (join (lit " ") (a :: ss'')) = true).
    { inversion Hall as [|? ? Ha _]; subst.
      destruct a; [congruence|]. destruct ss''; reflexivity. }
    rewrite Ht, andb_true_r.
    destruct (maxChunkSize <? _) eqn:E; [apply Nat.ltb_lt in E; lia | reflexivity].
  - clear - Hall. induction Hall as [|x l Hx Hl IHl]; [constructor|].
    destruct l; [constructor|]. simpl. constructor; assumption.
  - lia.
Qed.

(** X3: a text no longer than [maxChunkSize] is never cut: it gives one
    chunk, its sentences joined by single spaces and trimmed, or no chunk
    at all when it holds white space only. *)
Theorem chunkText_short_text (text : jsstring) (maxChunkSize : nat) :
  length text <= maxChunkSize ->
  chunkText text maxChunkSize =
  if hasNonWs text then [chunkOfGroup (split reSentenceGap text)] else [].
Proof.
  intros Hlen.
  destruct (split_sentences_shape text) as (init & lst & Esplit & Hinit).
  pose proof (splitRegex_joinSp_length reSentenceGap wsMatcher_sentenceGap
                text 0 None (Nat.le_0_l _)) as Hj.
  fold (split reSentenceGap text) in Hj.
  unfold chunkText. rewrite chunkLoop_no_close.
  - unfold chunkFinish. rewrite truthy_trim.
    assert (E : hasNonWs (joinSp (split reSentenceGap text)) = hasNonWs text).
    { pose proof (splitRegex_nonWs reSentenceGap wsMatcher_sentenceGap
                    text 0 None (Nat.le_0_l _)) as Hn.
      fold (split reSentenceGap text) in Hn. rewrite <- nonWs_joinSp in Hn.
      destruct (hasNonWs text) eqn:Et.
      - destruct (hasNonWs (joinSp (split reSentenceGap text))) eqn:Ej; [reflexivity|].
        apply nonWs_nil in Ej. rewrite Ej in Hn. symmetry in Hn.
        apply nonWs_nil in Hn. congruence.
      - apply nonWs_nil in Et. rewrite Et in Hn. now apply nonWs_nil in Hn. }
    rewrite E. reflexivity.
  - rewrite Esplit, removelast_last. now apply Forall_hasNonWs_nonempty.
  - lia.
Qed.

Lemma chunkText_short_text_witness :
  length (lit " Aa.  Bb. ") <= 20 /\
  chunkText (lit " Aa.  Bb. ") 20 =
  if hasNonWs (lit " Aa.  Bb. ")
  then [chunkOfGroup (split reSentenceGap (lit " Aa.  Bb. "))] else [].
Proof.
  assert (H : length (lit " Aa.  Bb. ") <= 20) by (vm_compute; lia).
  split; [exact H|].
  exact (chunkText_short_text (lit " Aa.  Bb. ") 20 H).
Defined.

(** X4: there are never more chunks than sentences. *)
Theorem chunkText_count (text : jsstring) (maxChunkSize : nat) :
  length (chunkText text maxChunkSize) <= length (split reSentenceGap text).
Proof.
  destruct (chunkText_packing text maxChunkSize) as (gs & -> & Hgs & Hcat).
  rewrite length_map.
  assert (H : length gs <= length (concat gs)).
  { clear Hcat. induction Hgs as [|g gs (Hg & _) _ IH]; [apply Nat.le_refl|].
    simpl. rewrite length_app. destruct g; [congruence|]. simpl. lia. }
  destruct Hcat as [<- | (lst & <- & _)]; [exact H|].
  rewrite length_app. lia.
Qed.

(* ===================================================================== *)
(** * Properties of [extractSections] *)
(* ===================================================================== *)

Section Scan.

(** An invariant of the state of a loop, stated with the elements already
    handled. *)
Lemma fold_left_invariant {A B : Type} (P : A -> list B -> Prop) (f : A -> B -> A)
    (a : A) :
  P a [] ->
  (forall st done x, P st done -> P (f st x) (done ++ [x])) ->
  forall l, P (fold_left f l a) l.
Proof.
  intros H0 Hstep l. induction l as [|x l IH] using rev_ind; [exact H0|].
  rewrite fold_left_app. simpl. now apply Hstep.
Qed.

Lemma extractSections_unfold (text : jsstring) :
  extractSections text =
  saveSection (fold_left lineStep (split reLineBreak text) scanStart)
              (estimatedPage (fold_left lineStep (split reLineBreak text) scanStart)).
Proof. reflexivity. Qed.

Lemma saveSection_cases (st : scanState) (pageNow : nat) :
  (hasNonWs (currentContent st) = false /\ saveSection st pageNow = sections st) \/
  (hasNonWs (currentContent st) = true /\
   saveSection st pageNow =
   sections st ++ [Section_.mk (currentSection st) (currentSubsection st)
                               (trim (currentContent st)) pageNow]).
Proof.
  unfold saveSection. rewrite truthy_trim.
  destruct (hasNonWs (currentContent st)); [right | left]; split; reflexivity.
Qed.

Lemma lineStep_cases (st : scanState) (line : jsstring) :
  let count := charCount st + length line in
  (exists num,
      sectionMatch line = Some num /\
      lineStep st line =
      mkScan (saveSection st (estimatePage count)) (firstPart num) num line
             (estimatePage count) count) \/
  (sectionMatch line = None /\
   lineStep st line =
   mkScan (sections st) (currentSection st) (currentSubsection st)
          (currentContent st ++ lit " " ++ line) (estimatePage count) count).
Proof.
  unfold lineStep. destruct (sectionMatch line) as [num|]; [left; exists num | right];
    split; reflexivity.
Qed.

End Scan.

Lemma extractSections_contents_aux (text : jsstring) :
  Forall (fun sec => hasNonWs (Section_.content sec) = true /\
                     trim (Section_.content sec) = Section_.content sec)
         (extractSections text).
Proof.
  set (ok := fun sec => hasNonWs (Section_.content sec) = true /\
                        trim (Section_.content sec) = Section_.content sec).
  assert (Hsave : forall st p, Forall ok (sections st) -> Forall ok (saveSection st p)).
  { intros st p H. destruct (saveSection_cases st p) as [(_ & ->) | (Hc & ->)]; [exact H|].
    apply Forall_app. split; [exact H|]. constructor; [|constructor].
    split; simpl; [now rewrite hasNonWs_trim | apply trim_idem]. }
  rewrite extractSections_unfold. apply Hsave.
  apply (fold_left_invariant (fun st _ => Forall ok (sections st))); [constructor|].
  intros st done line H.
  destruct (lineStep_cases st line) as [(num & _ & ->) | (_ & ->)]; simpl;
    [now apply Hsave | exact H].
Qed.

(** X5: every section holds text: its content is not empty, and neither
    begins nor ends with white space. *)
Theorem extractSections_contents (text : jsstring) :
  Forall (fun sec => hasNonWs (Section_.content sec) = true /\
                     trim (Section_.content sec) = Section_.content sec)
         (extractSections text).
Proof. apply extractSections_contents_aux. Qed.

Lemma extractSections_nonWs (text : jsstring) :
  nonWs (concat (map Section_.content (extractSections text))) = nonWs text.
Proof.
  assert (Hsave : forall st p,
             nonWs (concat (map Section_.content (saveSection st p))) =
             nonWs (concat (map Section_.content (sections st))) ++
             nonWs (currentContent st)).
  { intros st p. destruct (saveSection_cases st p) as [(Hc & ->) | (Hc & ->)].
    - apply nonWs_nil in Hc. rewrite Hc. now rewrite app_nil_r.
    - rewrite map_app, concat_app, nonWs_app. simpl. rewrite app_nil_r.
      now rewrite nonWs_trim. }
  rewrite extractSections_unfold, Hsave.
  rewrite <- (splitRegex_nonWs reLineBreak wsMatcher_lineBreak text 0 None (Nat.le_0_l _)).
  fold (split reLineBreak text).
  apply (fold_left_invariant
           (fun st done =>
              nonWs (concat (map Section_.content (sections st))) ++
              nonWs (currentContent st) = nonWs (concat done))); [reflexivity|].
  intros st done line H.
  rewrite concat_app, nonWs_app, <- H. simpl concat. rewrite app_nil_r.
  destruct (lineStep_cases st line) as [(num & _ & ->) | (_ & ->)]; simpl.
  - now rewrite Hsave.
  - rewrite !nonWs_app. change (nonWs (lit " ")) with (@nil char). simpl.
    now rewrite app_assoc.
Qed.

(** X6: sectioning loses no visible character: the characters other than
    white space of the section contents, read in order, are those of the
    text. *)
Theorem extractSections_keeps_visible_characters (text : jsstring) :
  nonWs (concat (map Section_.content (extractSections text))) = nonWs text.
Proof. apply extractSections_nonWs. Qed.

(** X7: ingestion loses no visible character: the characters other than
    white space of the contents of the rows built from a text, read in the
    order of their [chunk_index], are those of the text. *)
Theorem buildChunks_keeps_visible_characters (documentId text : jsstring) :
  nonWs (concat (map Chunk.content
                     (buildChunks documentId (extractSections text) text))) =
  nonWs text.
Proof.
  rewrite buildChunks_contents.
  destruct (extractSections text) as [|sec secs] eqn:E.
  - apply chunkText_keeps_visible_characters_aux.
  - rewrite <- (extractSections_nonWs text), E.
    generalize (sec :: secs). intros l.
    induction l as [|s l IH]; [reflexivity|].
    cbn [flat_map map concat]. rewrite concat_app, !nonWs_app, IH.
    now rewrite chunkText_keeps_visible_characters_aux.
Qed.

Section Pages.

Lemma estimatePage_mono (a b : nat) : a <= b -> estimatePage a <= estimatePage b.
Proof. intros H. unfold estimatePage. apply Nat.Div0.div_le_mono. lia. Qed.

Lemma estimatePage_pos (a : nat) : 1 <= a -> 1 <= estimatePage a.
Proof.
  intros H. unfold estimatePage.
  change 1 with (3000 / 3000) at 1. apply Nat.Div0.div_le_mono. lia.
Qed.

Lemma Sorted_snoc (l : list nat) (n : nat) :
  Sorted le l -> Forall (fun p => p <= n) l -> Sorted le (l ++ [n]).
Proof.
  induction 1 as [|a l Hl IH Ha]; intros Hall; simpl.
  - repeat constructor.
  - inversion Hall as [|? ? Han Hln]; subst. constructor; [now apply IH|].
    destruct l as [|b l]; simpl; constructor; [exact Han|].
    now inversion Ha.
Qed.

Lemma length_nonWs (s : jsstring) : length (nonWs s) <= length s.
Proof. apply filter_length_le. Qed.

Lemma hasNonWs_length (s : jsstring) : hasNonWs s = true -> 1 <= length (nonWs s).
Proof.
  intros H. destruct (nonWs s) eqn:E; [|simpl; lia].
  apply nonWs_nil in E. congruence.
Qed.

Lemma pagesOk_save (st : scanState) (count : nat) :
  pagesOk st -> charCount st <= count ->
  Sorted le (map Section_.page (saveSection st (estimatePage count))) /\
  Forall (fun p => 1 <= p <= estimatePage count)
         (map Section_.page (saveSection st (estimatePage count))).
Proof.
  intros (Hs & Hb & Hc) Hle.
  assert (Hb' : Forall (fun p => 1 <= p <= estimatePage count)
                       (map Section_.page (sections st))).
  { eapply Forall_impl; [|exact Hb]. simpl. intros p Hp.
    pose proof (estimatePage_mono _ _ Hle). lia. }
  destruct (saveSection_cases st (estimatePage count)) as [(_ & ->) | (Hn & ->)];
    [split; assumption|].
  rewrite map_app. simpl. split.
  - apply Sorted_snoc; [exact Hs|]. eapply Forall_impl; [|exact Hb']. simpl. lia.
  - apply Forall_app. split; [exact Hb'|]. constructor; [|constructor].
    split; [|apply Nat.le_refl]. apply estimatePage_pos.
    apply hasNonWs_length in Hn. lia.
Qed.

Lemma pagesOk_step (st : scanState) (line : jsstring) :
  pagesOk st -> pagesOk (lineStep st line).
Proof.
  intros H. pose proof H as (Hs & Hb & Hc).
  destruct (lineStep_cases st line) as [(num & _ & ->) | (_ & ->)]; cbv zeta.
  - destruct (pagesOk_save st (charCount st + length line) H ltac:(lia)) as (Hs' & Hb').
    unfold pagesOk. simpl. repeat split; try assumption.
    pose proof (length_nonWs line). lia.
  - unfold pagesOk. simpl. repeat split; [exact Hs| |].
    + eapply Forall_impl; [|exact Hb]. simpl. intros p Hp.
      pose proof (estimatePage_mono (charCount st) (charCount st + length line)
                    ltac:(lia)). lia.
    + rewrite !nonWs_app, !length_app. change (nonWs (lit " ")) with (@nil char).
      pose proof (length_nonWs line). simpl. lia.
Qed.

Lemma lineStep_page (st : scanState) (line : jsstring) :
  estimatedPage (lineStep st line) = estimatePage (charCount (lineStep st line)).
Proof.
  destruct (lineStep_cases st line) as [(num & _ & ->) | (_ & ->)]; reflexivity.
Qed.

End Pages.

(** X8: the page numbers of the sections never decrease along the
    document, and are at least 1. *)
Theorem extractSections_pages (text : jsstring) :
  Sorted le (map Section_.page (extractSections text)) /\
  Forall (fun p => 1 <= p) (map Section_.page (extractSections text)).
Proof.
  rewrite extractSections_unfold.
  destruct (exists_last (splitRegex_not_nil reLineBreak text 0 None)) as (l & x & E).
  unfold split. rewrite E, fold_left_app. simpl fold_left.
  set (st := fold_left lineStep l scanStart).
  assert (Hst : pagesOk st).
  { apply (fold_left_invariant (fun st _ => pagesOk st)).
    - unfold pagesOk. simpl. repeat split; constructor.
    - intros st0 _ line H. now apply pagesOk_step. }
  rewrite lineStep_page.
  destruct (pagesOk_save (lineStep st x) (charCount (lineStep st x))
              (pagesOk_step st x Hst) (Nat.le_refl _)) as (Hs & Hb).
  split; [exact Hs|]. eapply Forall_impl; [|exact Hb]. simpl. lia.
Qed.

Section Labels.

Lemma numberPrefix_cons (afterDigit : bool) (c : char) (s : jsstring) :
  numberPrefix afterDigit (c :: s) =
  if isDigit c then c :: numberPrefix true s
  else if afterDigit && N.eqb c 46 then
    match s with
    | d :: _ => if isDigit d then c :: numberPrefix false s else []
    | [] => []
    end
  else [].
Proof. reflexivity. Qed.

Lemma numberPrefix_prefix (s : jsstring) :
  forall afterDigit, exists rest, s = numberPrefix afterDigit s ++ rest.
Proof.
  induction s as [|c s IH]; intros afterDigit; [now exists []|].
  rewrite numberPrefix_cons.
  destruct (isDigit c).
  - destruct (IH true) as (rest & E). exists rest.
    rewrite <- app_comm_cons. now rewrite <- E.
  - destruct (afterDigit && N.eqb c 46); [|now exists (c :: s)].
    destruct (IH false) as (rest & E).
    destruct s as [|d s']; [now exists [c]|].
    destruct (isDigit d); [|now exists (c :: d :: s')].
    exists rest. rewrite <- app_comm_cons. now rewrite <- E.
Qed.

Lemma numberPrefix_chars (s : jsstring) :
  forall afterDigit, forallb isNumberChar (numberPrefix afterDigit s) = true.
Proof.
  induction s as [|c s IH]; intros afterDigit; [reflexivity|].
  rewrite numberPrefix_cons.
  destruct (isDigit c) eqn:Ed.
  - cbn [forallb]. unfold isNumberChar at 1. rewrite Ed. simpl. apply IH.
  - destruct (afterDigit && N.eqb c 46) eqn:Edot; [|reflexivity].
    specialize (IH false).
    destruct s as [|d s']; [reflexivity|].
    destruct (isDigit d); [|reflexivity].
    apply andb_prop in Edot. destruct Edot as [_ Edot].
    cbn [forallb]. unfold isNumberChar at 1. rewrite Edot, orb_true_r. simpl. exact IH.
Qed.

Lemma sectionMatch_Some (line num : jsstring) :
  sectionMatch line = Some num ->
  num <> [] /\ forallb isNumberChar num = true /\ exists rest, line = num ++ rest.
Proof.
  unfold sectionMatch. intros H.
  pose proof (numberPrefix_prefix line false) as (rest & E).
  pose proof (numberPrefix_chars line false) as Hc.
  destruct (numberPrefix false line) as [|c n]; [discriminate|].
  destruct (skipn (length (c :: n)) line) as [|w r]; [discriminate|].
  destruct (isWhiteSpace w); [|discriminate].
  injection H as <-. split; [discriminate|]. split; [exact Hc|]. now exists rest.
Qed.

Lemma numberChar_not_ws (c : char) : isNumberChar c = true -> isWhiteSpace c = false.
Proof.
  unfold isNumberChar, isDigit. intros H.
  destruct (isWhiteSpace c) eqn:E; [|reflexivity].
  unfold isWhiteSpace in E. simpl in E.
  repeat (apply orb_prop in E; destruct E as [E|E]);
    try (apply N.eqb_eq in E; subst c; discriminate H).
  discriminate.
Qed.

(** Trimming keeps a prefix that holds no white space. *)
Lemma trim_keeps_prefix (a rest : jsstring) :
  a <> [] -> forallb isNumberChar a = true ->
  exists rest', trim (a ++ rest) = a ++ rest'.
Proof.
  intros Hne Ha. unfold trim.
  assert (Hlast : match rev a with [] => True | c :: _ => isWhiteSpace c = false end).
  { destruct (rev a) as [|c r] eqn:E; [exact I|].
    apply numberChar_not_ws.
    rewrite forallb_forall in Ha. apply Ha. apply in_rev. rewrite E. now left. }
  assert (Hstart : trimStart (a ++ rest) = a ++ rest).
  { apply dropWhile_fixed. destruct a as [|c a]; [congruence|].
    simpl in *. apply andb_prop in Ha. now apply numberChar_not_ws. }
  rewrite Hstart. unfold trimEnd.
  induction rest as [|x rest IH] using rev_ind.
  - exists []. rewrite app_nil_r, (dropWhile_fixed _ _ Hlast). now rewrite rev_involutive.
  - rewrite app_assoc, rev_app_distr. simpl.
    destruct (isWhiteSpace x).
    + destruct IH as (rest' & E); [| now exists rest'].
      apply dropWhile_fixed. destruct a as [|c a]; [congruence|].
      simpl in *. apply andb_prop in Ha. now apply numberChar_not_ws.
    + exists (rest ++ [x]). change (x :: rev (a ++ rest)) with (rev [x] ++ rev (a ++ rest)).
      rewrite <- rev_app_distr, rev_involutive. now rewrite app_assoc.
Qed.

Lemma labelsOk_save (st : scanState) (p : nat) :
  labelsOk st ->
  Forall (fun sec => labelled (Section_.section sec) (Section_.subsection sec)
                              (Section_.content sec)) (saveSection st p).
Proof.
  intros (Hs & Hc).
  destruct (saveSection_cases st p) as [(_ & ->) | (_ & ->)]; [exact Hs|].
  apply Forall_app. split; [exact Hs|]. constructor; [|constructor]. simpl.
  destruct Hc as [Hc | (Hne & Hch & Hsec & rest & Hcont)]; [now left | right].
  repeat split; try assumption.
  rewrite Hcont. now apply trim_keeps_prefix.
Qed.

Lemma labelsOk_step (st : scanState) (line : jsstring) :
  labelsOk st -> labelsOk (lineStep st line).
Proof.
  intros H.
  destruct (lineStep_cases st line) as [(num & Hm & ->) | (_ & ->)]; cbv zeta.
  - split; simpl; [now apply labelsOk_save|].
    destruct (sectionMatch_Some _ _ Hm) as (Hne & Hch & rest & E).
    right. repeat split; try assumption. now exists rest.
  - destruct H as (Hs & Hc). split; simpl; [exact Hs|].
    destruct Hc as [Hc | (Hne & Hch & Hsec & rest & Hcont)]; [now left | right].
    repeat split; try assumption.
    exists (rest ++ lit " " ++ line). rewrite Hcont. now rewrite <- app_assoc.
Qed.

End Labels.

(** X9: every section is labelled either as the text before the first
    heading (section [1], no subsection) or by the number of its heading:
    the subsection is that number, made of digits and dots; the section
    is its first component; and the content begins with the number. *)
Theorem extractSections_labels (text : jsstring) :
  Forall (fun sec => labelled (Section_.section sec) (Section_.subsection sec)
                              (Section_.content sec))
         (extractSections text).
Proof.
  rewrite extractSections_unfold. apply labelsOk_save.
  apply (fold_left_invariant (fun st _ => labelsOk st)).
  - split; [constructor | now left].
  - intros st _ line H. now apply labelsOk_step.
Qed.

Lemma fold_lineStep_no_heading (lines : list jsstring) :
  Forall (fun line => sectionMatch line = None) lines ->
  forall st,
    lines <> [] ->
    fold_left lineStep lines st =
    mkScan (sections st) (currentSection st) (currentSubsection st)
           (currentContent st ++ concat (map (fun line => lit " " ++ line) lines))
           (estimatePage (charCount st + totalLength lines))
           (charCount st + totalLength lines).
Proof.
  induction 1 as [|line lines Hline Hlines IH]; intros st Hne; [congruence|].
  simpl fold_left.
  destruct (lineStep_cases st line) as [(num & Hm & _) | (_ & E)]; [congruence|].
  rewrite E. cbv zeta. destruct lines as [|l2 lines].
  - simpl. unfold totalLength. simpl. now rewrite app_nil_r, Nat.add_0_r.
  - rewrite IH by discriminate. simpl. unfold totalLength. simpl.
    rewrite <- !app_assoc, <- !Nat.add_assoc. reflexivity.
Qed.

(** X10: a text without heading line gives at most one section, labelled
    [1] without subsection: its lines, each behind a space, trimmed; no
    section at all when the text holds white space only. *)
Theorem extractSections_no_heading (text : jsstring) :
  Forall (fun line => sectionMatch line = None) (split reLineBreak text) ->
  extractSections text =
  if hasNonWs text
  then [Section_.mk (lit "1") []
          (trim (concat (map (fun line => lit " " ++ line) (split reLineBreak text))))
          (estimatePage (totalLength (split reLineBreak text)))]
  else [].
Proof.
  intros H.
  pose proof (extractSections_nonWs text) as Hn.
  rewrite extractSections_unfold in *.
  rewrite (fold_lineStep_no_heading _ H scanStart (splitRegex_not_nil _ _ _ _)) in *.
  cbn [estimatedPage sections currentSection currentSubsection currentContent
       charCount scanStart Nat.add app] in *.
  match goal with
  | |- saveSection ?st ?p = _ =>
      destruct (saveSection_cases st p) as [(Hc & E) | (Hc & E)];
      rewrite E in *; clear E
  end; cbn [sections currentSection currentSubsection currentContent map concat] in *.
  - simpl in Hn. symmetry in Hn. apply nonWs_nil in Hn. now rewrite Hn.
  - destruct (hasNonWs text) eqn:Et; [reflexivity|].
    apply nonWs_nil in Et. rewrite Et in Hn. simpl in Hn. rewrite app_nil_r in Hn.
    rewrite nonWs_trim in Hn. apply nonWs_nil in Hn.
    exfalso. assert (X : true = false) by (rewrite <- Hc; exact Hn). discriminate X.
Qed.

Lemma extractSections_no_heading_witness :
  Forall (fun line => sectionMatch line = None)
         (split reLineBreak (lit "Scope of the standard. It applies to all.")) /\
  extractSections (lit "Scope of the standard. It applies to all.") =
  if hasNonWs (lit "Scope of the standard. It applies to all.")
  then [Section_.mk (lit "1") []
          (trim (concat (map (fun line => lit " " ++ line)
                             (split reLineBreak (lit "Scope of the standard. It applies to all.")))))
          (estimatePage (totalLength
                           (split reLineBreak (lit "Scope of the standard. It applies to all."))))]
  else [].
Proof.
  assert (H : Forall (fun line => sectionMatch line = None)
                     (split reLineBreak (lit "Scope of the standard. It applies to all."))).
  { vm_compute. repeat constructor. }
  split; [exact H|].
  exact (extractSections_no_heading (lit "Scope of the standard. It applies to all.") H).
Defined.

(* ===================================================================== *)
(** * Further properties of the chunk rows *)
(* ===================================================================== *)

Section RowMetadata.

Variable documentId : jsstring.
Variable P : Chunk.t -> Prop.

Lemma fold_pushSectionChunk_Forall (sec : Section_.t) (cs : list jsstring) :
  (forall n c, In c cs ->
               P (Chunk.mk documentId n c (Section_.section sec)
                           (Section_.subsection sec) (Section_.page sec))) ->
  forall acc n,
    Forall P acc ->
    Forall P (fst (fold_left (pushSectionChunk documentId sec) cs (acc, n))).
Proof.
  induction cs as [|c cs IH]; intros Hcs acc n Hacc; [exact Hacc|].
  simpl. apply IH.
  - intros n' c' Hin. apply Hcs. now right.
  - apply Forall_app. split; [exact Hacc|]. constructor; [|constructor].
    apply Hcs. now left.
Qed.

Lemma fold_pushSection_Forall (secs : list Section_.t) :
  (forall sec n c,
      In sec secs -> In c (chunkText (Section_.content sec) defaultMaxChunkSize) ->
      P (Chunk.mk documentId n c (Section_.section sec)
                  (Section_.subsection sec) (Section_.page sec))) ->
  forall acc n,
    Forall P acc ->
    Forall P (fst (fold_left (pushSection documentId) secs (acc, n))).
Proof.
  induction secs as [|sec secs IH]; intros Hsecs acc n Hacc; [exact Hacc|].
  change (fold_left (pushSection documentId) (sec :: secs) (acc, n))
    with (fold_left (pushSection documentId) secs
            (fold_left (pushSectionChunk documentId sec)
               (chunkText (Section_.content sec) defaultMaxChunkSize) (acc, n))).
  pose proof (fold_pushSectionChunk_Forall sec
                (chunkText (Section_.content sec) defaultMaxChunkSize)
                (fun n' c Hin => Hsecs sec n' c (or_introl eq_refl) Hin) acc n Hacc) as H1.
  destruct (fold_left (pushSectionChunk documentId sec) _ (acc, n)) as [acc1 n1].
  apply IH; [|exact H1].
  intros sec' n' c Hin. apply Hsecs. now right.
Qed.

Lemma fold_pushFallbackChunk_Forall (cs : list jsstring) :
  (forall n c, In c cs -> P (Chunk.mk documentId n c (lit "1") [] (S n))) ->
  forall acc n,
    Forall P acc ->
    Forall P (fst (fst (fold_left (pushFallbackChunk documentId) cs (acc, n, S n)))).
Proof.
  induction cs as [|c cs IH]; intros Hcs acc n Hacc; [exact Hacc|].
  simpl. apply IH.
  - intros n' c' Hin. apply Hcs. now right.
  - apply Forall_app. split; [exact Hacc|]. constructor; [|constructor].
    apply Hcs. now left.
Qed.

End RowMetadata.

(** X11: every row built for a document carries the identifier of the
    document and the labels of the section its content was cut from:
    section, subsection and page of that section; without sections, the
    rows are labelled section [1], no subsection, and numbered pages 1,
    2, ... along their [chunk_index]. *)
Theorem buildChunks_rows
    (documentId : jsstring) (sections : list Section_.t) (extractedText : jsstring)
    (r : Chunk.t) :
  In r (buildChunks documentId sections extractedText) ->
  Chunk.document_id r = documentId /\
  match sections with
  | [] =>
      Chunk.section r = lit "1" /\ Chunk.subsection r = [] /\
      Chunk.page_number r = S (Chunk.chunk_index r) /\
      In (Chunk.content r) (chunkText extractedText defaultMaxChunkSize)
  | _ :: _ =>
      exists sec,
        In sec sections /\
        Chunk.section r = Section_.section sec /\
        Chunk.subsection r = Section_.subsection sec /\
        Chunk.page_number r = Section_.page sec /\
        In (Chunk.content r) (chunkText (Section_.content sec) defaultMaxChunkSize)
  end.
Proof.
  revert r. apply Forall_forall. unfold buildChunks.
  destruct sections as [|sec0 secs].
  - apply fold_pushFallbackChunk_Forall; [|constructor].
    intros n c Hin. simpl. auto.
  - apply fold_pushSection_Forall; [|constructor].
    intros sec n c Hsec Hin. simpl. split; [reflexivity|]. exists sec. auto.
Qed.

Lemma buildChunks_rows_witness :
  let text := lit "4.1 Scope of the standard. 4.2 Terms" in
  let r := Chunk.mk (lit "doc1") 0 (lit "4.1 Scope of the standard. 4.2 Terms")
                    (lit "4") (lit "4.1") 1 in
  In r (buildChunks (lit "doc1") (extractSections text) text) /\
  Chunk.document_id r = lit "doc1" /\
  match extractSections text with
  | [] =>
      Chunk.section r = lit "1" /\ Chunk.subsection r = [] /\
      Chunk.page_number r = S (Chunk.chunk_index r) /\
      In (Chunk.content r) (chunkText text defaultMaxChunkSize)
  | _ :: _ =>
      exists sec,
        In sec (extractSections text) /\
        Chunk.section r = Section_.section sec /\
        Chunk.subsection r = Section_.subsection sec /\
        Chunk.page_number r = Section_.page sec /\
        In (Chunk.content r) (chunkText (Section_.content sec) defaultMaxChunkSize)
  end.
Proof.
  cbv zeta.
  assert (H : In (Chunk.mk (lit "doc1") 0 (lit "4.1 Scope of the standard. 4.2 Terms")
                           (lit "4") (lit "4.1") 1)
                 (buildChunks (lit "doc1")
                    (extractSections (lit "4.1 Scope of the standard. 4.2 Terms"))
                    (lit "4.1 Scope of the standard. 4.2 Terms"))).
  { vm_compute. left. reflexivity. }
  split; [exact H|].
  exact (buildChunks_rows (lit "doc1")
           (extractSections (lit "4.1 Scope of the standard. 4.2 Terms"))
           (lit "4.1 Scope of the standard. 4.2 Terms") _ H).
Defined.

(* ===================================================================== *)
(** * Further properties of the ingestion handler *)
(* ===================================================================== *)

Section HandlerFacts.

(** The loop over the batches, whatever fails: it stores a prefix of the
    rows that were left to insert, all of them when it returns, and it
    only throws the error of an insert. *)
Lemma insertBatches_general (f : Faults) (allChunks : list Chunk.t) :
  forall n i db,
    length allChunks - i <= n ->
    exists m out,
      insertBatches f allChunks i db =
        (out, mkDatabase (iso_chunks db ++ firstn m (skipn i allChunks))
                         (iso_documents db)) /\
      ((out = Return tt /\ firstn m (skipn i allChunks) = skipn i allChunks) \/
       exists e, out = Throw (lit "Failed to insert chunks: " ++ e)).
Proof.
  induction n as [|n IH]; intros i db Hn; rewrite insertBatches_unfold.
  - destruct (lt_dec i (length allChunks)); [lia|].
    exists 0, (Return tt). simpl. rewrite app_nil_r. split; [now destruct db|].
    left. split; [reflexivity|]. now rewrite skipn_all2 by lia.
  - destruct (lt_dec i (length allChunks)).
    + destruct (insertError f i) as [e|].
      * exists 0, (Throw (lit "Failed to insert chunks: " ++ e)). simpl.
        rewrite app_nil_r. split; [now destruct db|]. right. now exists e.
      * destruct (IH (i + batchSize)
                     (mkDatabase (iso_chunks db ++ slice i (i + batchSize) allChunks)
                                 (iso_documents db)))
          as (m & out & E & Hout); [unfold batchSize; lia|].
        exists (batchSize + m), out. rewrite E. cbn [iso_chunks iso_documents].
        assert (Ef : firstn (batchSize + m) (skipn i allChunks) =
                     slice i (i + batchSize) allChunks ++
                     firstn m (skipn (i + batchSize) allChunks)).
        { rewrite firstn_plus, slice_batch, skipn_skipn.
          now rewrite (Nat.add_comm batchSize i). }
        rewrite Ef, <- app_assoc. split; [reflexivity|].
        destruct Hout as [(-> & Hm) | Hthrow]; [left | right; exact Hthrow].
        split; [reflexivity|]. rewrite Hm, slice_batch.
        rewrite (Nat.add_comm i batchSize), <- skipn_skipn. apply firstn_skipn.
    + exists 0, (Return tt). simpl. rewrite app_nil_r. split; [now destruct db|].
      left. split; [reflexivity|]. now rewrite skipn_all2 by lia.
Qed.

(** The handler on a text of 50 characters or more. *)
Lemma serve_long_text (f : Faults) (req : ProcessRequest) (file : File) (db : Database) :
  let text := extractedTextOf file in
  let allChunks := buildChunks (documentId req) (extractSections text) text in
  50 <= length text ->
  ProcessDocument.serve f req (Downloaded file) db =
  match insertBatches f allChunks 0 (afterDelete f (documentId req) db) with
  | (Return _, db2) =>
      (Return (Success (length allChunks) (length text) (length (extractSections text))),
       mkDatabase (iso_chunks db2) (afterUpdate f (documentId req) (iso_documents db2)))
  | (Throw e, db2) => (Return (Failure 500 e), db2)
  end.
Proof.
  intros text allChunks Hlen.
  unfold ProcessDocument.serve, tryCatch, process. fold text.
  destruct (length text <? 50) eqn:E; [apply Nat.ltb_lt in E; lia|].
  fold allChunks. unfold bind, deleteChunks, afterDelete, otherChunks.
  destruct (deleteFails f);
    (destruct (insertBatches f allChunks 0 _) as [[[]|e] db2]; [|reflexivity];
     unfold markProcessed, afterUpdate, ret; destruct (updateFails f);
     [now destruct db2 | reflexivity]).
Qed.

Lemma serve_extraction_failure_general
    (f : Faults) (req : ProcessRequest) (file : File) (db : Database) :
  length (extractedTextOf file) < 50 ->
  ProcessDocument.serve f req (Downloaded file) db =
  (Return (Failure 500 extractionMessage), db).
Proof.
  intros H. unfold ProcessDocument.serve, tryCatch, process.
  apply Nat.ltb_lt in H. rewrite H. reflexivity.
Qed.

Lemma otherChunks_app_own (documentId : jsstring) (chunks rows : list Chunk.t) :
  Forall (fun r => Chunk.document_id r = documentId) rows ->
  filter (fun r => negb (streq (Chunk.document_id r) documentId)) (chunks ++ rows) =
  filter (fun r => negb (streq (Chunk.document_id r) documentId)) chunks.
Proof.
  intros H. rewrite filter_app.
  rewrite (filter_none (fun r => negb (streq (Chunk.document_id r) documentId)) rows).
  - apply app_nil_r.
  - eapply Forall_impl; [|exact H]. simpl. intros r ->. now rewrite streq_refl.
Qed.

Lemma chunksOf_app_own (documentId : jsstring) (chunks rows : list Chunk.t) :
  Forall (fun r => Chunk.document_id r = documentId) rows ->
  filter (fun r => streq (Chunk.document_id r) documentId) (chunks ++ rows) =
  filter (fun r => streq (Chunk.document_id r) documentId) chunks ++ rows.
Proof.
  intros H. rewrite filter_app. f_equal. apply filter_all.
  eapply Forall_impl; [|exact H]. simpl. intros r ->. apply streq_refl.
Qed.

Lemma afterDelete_other (f : Faults) (documentId : jsstring) (db : Database) :
  otherChunks documentId (afterDelete f documentId db) = otherChunks documentId db /\
  chunksOf documentId (afterDelete f documentId db) =
    (if deleteFails f then chunksOf documentId db else []) /\
  iso_documents (afterDelete f documentId db) = iso_documents db.
Proof.
  unfold afterDelete. destruct (deleteFails f); [repeat split|].
  unfold otherChunks, chunksOf. simpl.
  rewrite filter_idem, filter_filter_neg. repeat split.
Qed.

Lemma afterUpdate_keys (f : Faults) (documentId : jsstring) (docs : list DocumentRow) :
  map ProcessDocument.id (afterUpdate f documentId docs) = map ProcessDocument.id docs /\
  map ProcessDocument.filename (afterUpdate f documentId docs) =
    map ProcessDocument.filename docs.
Proof.
  unfold afterUpdate. destruct (updateFails f); [split; reflexivity|].
  rewrite !map_map. split; apply map_ext; intros d;
    destruct (streq (ProcessDocument.id d) documentId); reflexivity.
Qed.

End HandlerFacts.

(** X12: whatever fails, the handler answers: every error is turned into
    a response of status 500.  It never touches the chunks of another
    document, never adds, removes or renames a document, and a request
    that fails leaves the table of documents as it was, so [processed] is
    only ever set by a request that succeeds. *)
Theorem serve_contains_its_effects
    (f : Faults) (req : ProcessRequest) (download : Download) (db : Database) :
  exists response db',
    ProcessDocument.serve f req download db = (Return response, db') /\
    otherChunks (documentId req) db' = otherChunks (documentId req) db /\
    map ProcessDocument.id (iso_documents db') = map ProcessDocument.id (iso_documents db) /\
    map ProcessDocument.filename (iso_documents db') =
      map ProcessDocument.filename (iso_documents db) /\
    (forall status message,
        response = Failure status message ->
        status = 500 /\ iso_documents db' = iso_documents db).
Proof.
  destruct download as [file | message].
  - destruct (le_lt_dec 50 (length (extractedTextOf file))) as [Hlen | Hlen].
    + rewrite serve_long_text by exact Hlen.
      set (allChunks := buildChunks (documentId req)
                          (extractSections (extractedTextOf file)) (extractedTextOf file)).
      destruct (insertBatches_general f allChunks (length allChunks) 0
                  (afterDelete f (documentId req) db) ltac:(lia))
        as (m & out & E & Hout).
      rewrite E.
      destruct (afterDelete_other f (documentId req) db) as (Ho & _ & Hd).
      assert (Hrows : Forall (fun r => Chunk.document_id r = documentId req)
                             (firstn m (skipn 0 allChunks))).
      { apply Forall_firstn. apply buildChunks_document_id. }
      assert (Hother : otherChunks (documentId req)
                         (mkDatabase (iso_chunks (afterDelete f (documentId req) db) ++
                                      firstn m (skipn 0 allChunks))
                                     (iso_documents (afterDelete f (documentId req) db))) =
                       otherChunks (documentId req) db).
      { rewrite <- Ho. unfold otherChunks. cbn [iso_chunks].
        now apply otherChunks_app_own. }
      destruct (afterUpdate_keys f (documentId req)
                  (iso_documents (afterDelete f (documentId req) db))) as (Hid & Hname).
      destruct Hout as [(-> & _) | (e & ->)].
      * eexists _, _. split; [reflexivity|]. cbn [iso_chunks iso_documents].
        split; [exact Hother|]. rewrite Hid, Hname, Hd.
        split; [reflexivity|]. split; [reflexivity|].
        intros status message H. discriminate H.
      * eexists _, _. split; [reflexivity|]. cbn [iso_documents].
        split; [exact Hother|]. rewrite Hd.
        split; [reflexivity|]. split; [reflexivity|].
        intros status message H. injection H as <- _. split; reflexivity.
    + rewrite serve_extraction_failure_general by exact Hlen.
      eexists _, _. split; [reflexivity|].
      split; [reflexivity|]. split; [reflexivity|]. split; [reflexivity|].
      intros status message H. injection H as <- _. split; reflexivity.
  - eexists _, _. split; [reflexivity|].
    split; [reflexivity|]. split; [reflexivity|]. split; [reflexivity|].
    intros status message' H. injection H as <- _. split; reflexivity.
Qed.

(** X13: a response of success tells the state of the database: the
    text had 50 characters or more; the counts reported are those of the
    rows built, of the characters and of the sections; the chunks of the
    document are the rows the delete left (none when it succeeded)
    followed by all the rows built; and, unless the update failed, every
    document row with the identifier of the request is marked
    processed. *)
Theorem serve_success_state
    (f : Faults) (req : ProcessRequest) (file : File) (db db' : Database)
    (chunks_created text_length sections_found : nat) :
  ProcessDocument.serve f req (Downloaded file) db =
    (Return (Success chunks_created text_length sections_found), db') ->
  let text := extractedTextOf file in
  let allChunks := buildChunks (documentId req) (extractSections text) text in
  50 <= length text /\
  chunks_created = length allChunks /\
  text_length = length text /\
  sections_found = length (extractSections text) /\
  chunksOf (documentId req) db' =
    (if deleteFails f then chunksOf (documentId req) db else []) ++ allChunks /\
  (updateFails f = false ->
   Forall (fun doc => ProcessDocument.id doc = documentId req -> processed doc = true)
          (iso_documents db')).
Proof.
  intros H text allChunks.
  destruct (le_lt_dec 50 (length text)) as [Hlen | Hlen].
  2: { unfold text in Hlen. rewrite serve_extraction_failure_general in H by exact Hlen.
       discriminate H. }
  rewrite serve_long_text in H by exact Hlen. fold text allChunks in H.
  destruct (insertBatches_general f allChunks (length allChunks) 0
              (afterDelete f (documentId req) db) ltac:(lia))
    as (m & out & E & Hout).
  rewrite E in H.
  destruct Hout as [(-> & Hm) | (e & ->)]; [|discriminate H].
  injection H as <- <- <- <-. cbn [iso_chunks iso_documents]. simpl skipn in Hm.
  split; [exact Hlen|]. do 3 (split; [reflexivity|]).
  destruct (afterDelete_other f (documentId req) db) as (_ & Hc & Hd).
  split.
  - unfold chunksOf in *. cbn [iso_chunks]. rewrite Hm.
    rewrite chunksOf_app_own by apply buildChunks_document_id.
    now rewrite Hc.
  - intros Hu. unfold afterUpdate. rewrite Hu. apply Forall_map.
    apply Forall_forall. intros doc _.
    destruct (streq (ProcessDocument.id doc) (documentId req)) eqn:Es; simpl.
    + reflexivity.
    + intros Heq. apply streq_eq in Heq. congruence.
Qed.

Lemma serve_success_state_witness :
  let file := mkFile [] (lit "4.1 Scope of the standard applies to all the widgets made.") in
  let result := ProcessDocument.serve noFaults Fixtures.request (Downloaded file)
                                      Fixtures.database in
  let text := extractedTextOf file in
  let allChunks := buildChunks (documentId Fixtures.request) (extractSections text) text in
  result = (Return (Success 1 58 1), snd result) /\
  50 <= length text /\
  1 = length allChunks /\
  58 = length text /\
  1 = length (extractSections text) /\
  chunksOf (documentId Fixtures.request) (snd result) =
    (if deleteFails noFaults then chunksOf (documentId Fixtures.request) Fixtures.database
     else []) ++ allChunks /\
  (updateFails noFaults = false ->
   Forall (fun doc => ProcessDocument.id doc = documentId Fixtures.request ->
                      processed doc = true)
          (iso_documents (snd result))).
Proof.
  cbv zeta.
  set (file := mkFile [] (lit "4.1 Scope of the standard applies to all the widgets made.")).
  assert (H : ProcessDocument.serve noFaults Fixtures.request (Downloaded file)
                                    Fixtures.database =
              (Return (Success 1 58 1),
               snd (ProcessDocument.serve noFaults Fixtures.request (Downloaded file)
                                          Fixtures.database))).
  { vm_compute. reflexivity. }
  split; [exact H|].
  exact (serve_success_state noFaults Fixtures.request file Fixtures.database _ 1 58 1 H).
Defined.

Section Idempotence.

Lemma afterUpdate_idem (documentId : jsstring) (docs : list DocumentRow) :
  afterUpdate noFaults documentId (afterUpdate noFaults documentId docs) =
  afterUpdate noFaults documentId docs.
Proof.
  unfold afterUpdate. simpl. rewrite map_map. apply map_ext. intros d.
  destruct (streq (ProcessDocument.id d) documentId) eqn:E; simpl; now rewrite E.
Qed.

Lemma serve_noFaults_long (req : ProcessRequest) (file : File) (db : Database) :
  let text := extractedTextOf file in
  let allChunks := buildChunks (documentId req) (extractSections text) text in
  50 <= length text ->
  ProcessDocument.serve noFaults req (Downloaded file) db =
  (Return (Success (length allChunks) (length text) (length (extractSections text))),
   mkDatabase (otherChunks (documentId req) db ++ allChunks)
              (afterUpdate noFaults (documentId req) (iso_documents db))).
Proof.
  intros text allChunks Hlen. rewrite serve_long_text by exact Hlen.
  fold text allChunks.
  rewrite (insertBatches_succeeds noFaults allChunks (fun _ => eq_refl)
             (length allChunks) 0) by lia.
  reflexivity.
Qed.

End Idempotence.

(** X14: ingesting a document again rebuilds the same rows.  When no
    request to the database fails, a second run of the handler on the
    same file gives the same response as the first and stores rows that
    agree with those the first run left on every column the handler
    supplies ([document_id], [chunk_index], [content], [section],
    [subsection], [page_number]), in the same order, one generation for
    the document; the table of documents is as the first run left it.
    The rows of the document are deleted and inserted anew: the columns
    the database fills in by itself ([id], [created_at]) are no part of
    [Database] and nothing is stated of them. *)
Theorem serve_rerun_same_columns
    (req : ProcessRequest) (download : Download) (db : Database) :
  let first := ProcessDocument.serve noFaults req download db in
  let second := ProcessDocument.serve noFaults req download (snd first) in
  fst second = fst first /\
  iso_chunks (snd second) = iso_chunks (snd first) /\
  iso_documents (snd second) = iso_documents (snd first) /\
  (forall chunks_created text_length sections_found,
      fst first = Return (Success chunks_created text_length sections_found) ->
      length (chunksOf (documentId req) (snd second)) = chunks_created).
Proof.
  cbv zeta.
  assert (E : ProcessDocument.serve noFaults req download
                (snd (ProcessDocument.serve noFaults req download db)) =
              ProcessDocument.serve noFaults req download db).
  { destruct download as [file | message]; [|reflexivity].
    destruct (le_lt_dec 50 (length (extractedTextOf file))) as [Hlen | Hlen].
    - rewrite !serve_noFaults_long by exact Hlen. cbn [snd iso_documents].
      rewrite afterUpdate_idem. do 3 f_equal.
      unfold otherChunks at 1. cbn [iso_chunks].
      rewrite otherChunks_app_own by apply buildChunks_document_id.
      unfold otherChunks. apply filter_idem.
    - now rewrite !serve_extraction_failure_general by exact Hlen. }
  rewrite E. do 3 (split; [reflexivity|]).
  intros chunks_created text_length sections_found H.
  destruct download as [file | message]; [|discriminate H].
  destruct (le_lt_dec 50 (length (extractedTextOf file))) as [Hlen | Hlen].
  - rewrite serve_noFaults_long in H |- * by exact Hlen.
    cbn [fst snd] in H |- *. injection H as <- _ _.
    pose proof (buildChunks_document_id (documentId req)
                  (extractSections (extractedTextOf file)) (extractedTextOf file)) as Hrows.
    destruct (chunksOf_replaced (documentId req) db _ Hrows) as (Hc & _).
    cbv zeta in Hc. unfold chunksOf in *. cbn [iso_chunks] in *. now rewrite Hc.
  - rewrite serve_extraction_failure_general in H by exact Hlen. discriminate H.
Qed.

Lemma serve_rerun_same_columns_witness :
  let file := mkFile [] (lit "4.1 Scope of the standard applies to all the widgets made.") in
  let first := ProcessDocument.serve noFaults Fixtures.request (Downloaded file)
                                     Fixtures.database in
  let second := ProcessDocument.serve noFaults Fixtures.request (Downloaded file)
                                      (snd first) in
  fst first = Return (Success 1 58 1) /\
  chunksOf (documentId Fixtures.request) Fixtures.database = [Fixtures.oldChunk] /\
  length (chunksOf (documentId Fixtures.request) (snd second)) = 1.
Proof.
  cbv zeta.
  set (file := mkFile [] (lit "4.1 Scope of the standard applies to all the widgets made.")).
  assert (H : fst (ProcessDocument.serve noFaults Fixtures.request (Downloaded file)
                                         Fixtures.database) =
              Return (Success 1 58 1)).
  { vm_compute. reflexivity. }
  split; [exact H|]. split; [vm_compute; reflexivity|].
  exact (proj2 (proj2 (proj2 (serve_rerun_same_columns Fixtures.request (Downloaded file)
                                Fixtures.database))) 1 58 1 H).
Defined.

(* ===================================================================== *)
(** * Properties of [extractTextFromPDF] *)
(* ===================================================================== *)

Section PdfText.

Lemma collapse_singleSpaced (s : jsstring) :
  forall inRun,
    singleSpaced (collapseWhiteSpace inRun s) = true /\
    (inRun = true ->
     match collapseWhiteSpace inRun s with
     | [] => True
     | c :: _ => isWhiteSpace c = false
     end).
Proof.
  induction s as [|c s IH]; intros inRun; simpl; [split; auto|].
  destruct (isWhiteSpace c) eqn:Ec.
  - destruct inRun.
    + apply IH.
    + split; [|discriminate]. destruct (IH true) as (Hs & Hh).
      simpl. rewrite Hs, andb_true_r. specialize (Hh eq_refl).
      destruct (collapseWhiteSpace true s) as [|d r]; [reflexivity|]. now rewrite Hh.
  - split; [|intros _; exact Ec]. simpl. rewrite Ec. simpl. apply IH.
Qed.

Lemma singleSpaced_dropWhile (s : jsstring) :
  singleSpaced s = true -> singleSpaced (dropWhile isWhiteSpace s) = true.
Proof.
  induction s as [|c s IH]; [auto|]. intros H. simpl.
  destruct (isWhiteSpace c) eqn:Ec; [|exact H].
  apply IH. simpl in H. apply andb_prop in H. tauto.
Qed.

Lemma singleSpaced_prefix (a b : jsstring) :
  singleSpaced (a ++ b) = true -> singleSpaced a = true.
Proof.
  induction a as [|c a IH]; [reflexivity|]. simpl. intros H.
  apply andb_prop in H. destruct H as [H1 H2]. rewrite (IH H2), andb_true_r.
  destruct (isWhiteSpace c); [|reflexivity].
  apply andb_prop in H1. destruct H1 as [H1 H3]. rewrite H1. simpl.
  destruct a as [|d a]; [reflexivity | exact H3].
Qed.

Lemma singleSpaced_trim (s : jsstring) :
  singleSpaced s = true -> singleSpaced (trim s) = true.
Proof.
  intros H. unfold trim.
  destruct (trimEnd_prefix (trimStart s)) as (tail & E).
  apply (singleSpaced_prefix _ tail). rewrite <- E.
  now apply singleSpaced_dropWhile.
Qed.

(** What the captures of a matcher satisfy, the captures of its loop
    satisfy. *)
Lemma matchAll_Forall (m : captureMatcher) (Q : jsstring -> Prop) (R : jsstring -> Prop) :
  (forall s n capture, R s -> m s = Some (n, capture) -> Q capture) ->
  (forall c s, R (c :: s) -> R s) ->
  forall s skip, R s -> Forall Q (matchAll m skip s).
Proof.
  intros Hm HR s. induction s as [|c rest IH]; intros skip Hs; [constructor|].
  simpl. destruct skip as [|k]; [|apply IH; eapply HR; exact Hs].
  destruct (m (c :: rest)) as [[[|k] capture]|] eqn:E;
    try (apply IH; eapply HR; exact Hs).
  constructor; [eapply Hm; [exact Hs | exact E] | apply IH; eapply HR; exact Hs].
Qed.

Lemma takeWhile_Forall (p : char -> bool) (s : jsstring) :
  Forall (fun c => p c = true) (takeWhile p s).
Proof.
  induction s as [|c s IH]; simpl; [constructor|].
  destruct (p c) eqn:E; constructor; assumption.
Qed.

Lemma takeWhile_incl (p : char -> bool) (s : jsstring) (x : char) :
  In x (takeWhile p s) -> In x s.
Proof.
  induction s as [|c s IH]; simpl; [auto|].
  destruct (p c); simpl; [intros [H|H]; auto | tauto].
Qed.

Lemma dropWhile_incl (p : char -> bool) (s : jsstring) (x : char) :
  In x (dropWhile p s) -> In x s.
Proof.
  induction s as [|c s IH]; simpl; [auto|].
  destruct (p c); simpl; [auto | tauto].
Qed.

Lemma reParen_capture (s : jsstring) (n : nat) (capture : jsstring) :
  reParen s = Some (n, capture) ->
  ~ In 41%N capture /\ (forall x, In x capture -> In x s) /\
  exists rest, s = 40%N :: rest.
Proof.
  unfold reParen. destruct s as [|c rest]; [discriminate|].
  destruct (N.eqb c 40) eqn:Ec; [|discriminate].
  destruct (takeWhile (fun x => negb (N.eqb x 41)) rest) as [|a run] eqn:Erun;
    [discriminate|].
  destruct (dropWhile (fun x => negb (N.eqb x 41)) rest); [discriminate|].
  intros H. injection H as _ <-. rewrite <- Erun. repeat split.
  - intros Hin.
    pose proof (takeWhile_Forall (fun x => negb (N.eqb x 41)) rest) as Hf.
    rewrite Forall_forall in Hf. specialize (Hf _ Hin). discriminate Hf.
  - intros x Hx. right. eapply takeWhile_incl. exact Hx.
  - apply N.eqb_eq in Ec. subst c. now exists rest.
Qed.

Lemma reTj_capture (s : jsstring) (n : nat) (capture : jsstring) :
  reTj s = Some (n, capture) ->
  ~ In 41%N capture /\ exists rest, s = 40%N :: rest.
Proof.
  unfold reTj. destruct (reParen s) as [[n0 run]|] eqn:E; [|discriminate].
  destruct (startsWith _ _); [|discriminate].
  intros H. injection H as _ <-.
  destruct (reParen_capture _ _ _ E) as (H1 & _ & H3). now split.
Qed.

Lemma replacePair_cons2 (a b : char) (by_ : jsstring) (c d : char) (rest : jsstring) :
  replacePair a b by_ (c :: d :: rest) =
  if N.eqb c a && N.eqb d b then by_ ++ replacePair a b by_ rest
  else c :: replacePair a b by_ (d :: rest).
Proof. reflexivity. Qed.

Lemma In_replacePair (a b : char) (by_ s : jsstring) (x : char) :
  In x (replacePair a b by_ s) -> In x s \/ In x by_.
Proof.
  remember (length s) as n eqn:En. revert s En.
  induction n as [n IH] using lt_wf_ind. intros s En.
  destruct s as [|c [|d rest]]; [simpl; tauto | simpl; tauto |].
  rewrite replacePair_cons2.
  destruct (N.eqb c a && N.eqb d b).
  - intros H. apply in_app_or in H. destruct H as [H|H]; [now right|].
    apply (IH (length rest)) in H; [| simpl in En; lia | reflexivity].
    destruct H as [H|H]; [left; right; now right | now right].
  - intros [H|H]; [left; now left|].
    apply (IH (length (d :: rest))) in H; [| simpl in *; lia | reflexivity].
    destruct H as [H|H]; [left; now right | now right].
Qed.

Lemma replacePair_absent (a b : char) (by_ s : jsstring) :
  ~ In b s -> replacePair a b by_ s = s.
Proof.
  induction s as [|c s IH]; [reflexivity|]. intros Hb.
  destruct s as [|d rest]; [reflexivity|].
  rewrite replacePair_cons2.
  destruct (N.eqb d b) eqn:Ed.
  - apply N.eqb_eq in Ed. subst d. exfalso. apply Hb. right. now left.
  - rewrite andb_false_r. f_equal. apply IH. intros H. apply Hb. now right.
Qed.

Lemma unescape_no_close (content : jsstring) :
  ~ In 41%N content -> ~ In 41%N (unescape content).
Proof.
  intros H. unfold unescape.
  assert (step : forall a b by_ s,
             ~ In 41%N s -> ~ In 41%N by_ -> ~ In 41%N (replacePair a b by_ s)).
  { intros a b by_ s Hs Hby Hin. apply In_replacePair in Hin. tauto. }
  assert (one : forall c : char, c <> 41%N -> ~ In 41%N [c]).
  { intros c Hc [E|[]]. congruence. }
  apply step; [|apply one; discriminate].
  rewrite replacePair_absent.
  - repeat (apply step; [|apply one; discriminate]). exact H.
  - repeat (apply step; [|apply one; discriminate]). exact H.
Qed.

Lemma In_join (sep : jsstring) (parts : list jsstring) (x : char) :
  In x (join sep parts) -> In x sep \/ exists p, In p parts /\ In x p.
Proof.
  induction parts as [|p parts IH]; [simpl; tauto|].
  destruct parts as [|q parts].
  - simpl. intros H. right. exists p. auto.
  - change (join sep (p :: q :: parts)) with (p ++ sep ++ join sep (q :: parts)).
    intros H. apply in_app_or in H. destruct H as [H|H].
    + right. exists p. split; [now left | exact H].
    + apply in_app_or in H. destruct H as [H|H]; [now left|].
      destruct (IH H) as [H'|(p' & Hp' & Hx)]; [now left|].
      right. exists p'. split; [now right | exact Hx].
Qed.

Lemma In_collapse (s : jsstring) (x : char) :
  forall inRun, In x (collapseWhiteSpace inRun s) -> x = 32%N \/ In x s.
Proof.
  induction s as [|c s IH]; intros inRun; simpl; [tauto|].
  destruct (isWhiteSpace c).
  - destruct inRun.
    + intros H. apply IH in H. tauto.
    + intros [H|H]; [left; congruence|]. apply IH in H. tauto.
  - intros [H|H]; [right; now left|]. apply IH in H. tauto.
Qed.

Lemma In_trim (s : jsstring) (x : char) : In x (trim s) -> In x s.
Proof.
  unfold trim, trimEnd, trimStart. intros H.
  apply in_rev in H. apply dropWhile_incl in H. apply in_rev in H.
  now apply dropWhile_incl in H.
Qed.

Lemma literalParts_no_close (text : jsstring) :
  Forall (fun part => ~ In 41%N part) (literalParts text).
Proof.
  unfold literalParts. apply Forall_forall. intros part Hin.
  apply filter_In in Hin. destruct Hin as [Hin _].
  apply in_map_iff in Hin. destruct Hin as (capture & <- & Hin).
  apply unescape_no_close.
  pose proof (matchAll_Forall reParen (fun c => ~ In 41%N c) (fun _ => True)
                (fun s n c _ E => proj1 (reParen_capture s n c E))
                (fun _ _ _ => I) text 0 I) as Hf.
  rewrite Forall_forall in Hf. now apply Hf.
Qed.

Lemma tjParts_no_close (text : jsstring) :
  Forall (fun part => ~ In 41%N part) (tjParts text).
Proof.
  unfold tjParts. apply Forall_flat_map. apply Forall_forall. intros block _.
  apply Forall_forall. intros part Hin.
  apply filter_In in Hin. destruct Hin as [Hin _].
  pose proof (matchAll_Forall reTj (fun c => ~ In 41%N c) (fun _ => True)
                (fun s n c _ E => proj1 (reTj_capture s n c E))
                (fun _ _ _ => I) block 0 I) as Hf.
  rewrite Forall_forall in Hf. now apply Hf.
Qed.

End PdfText.

(** X15: the text extracted from a PDF is normalised: it neither begins
    nor ends with white space, and white space occurs in it only as
    single spaces. *)
Theorem extractTextFromPDF_normalised (text : jsstring) :
  trim (extractTextFromPDF text) = extractTextFromPDF text /\
  singleSpaced (extractTextFromPDF text) = true.
Proof.
  unfold extractTextFromPDF. split; [apply trim_idem|].
  apply singleSpaced_trim. apply collapse_singleSpaced.
Qed.

(** X16: the text extracted from a PDF never holds a closing
    parenthesis: a literal ends at the first one, escaped or not, and the
    replacement of the escape of a closing parenthesis never applies. *)
Theorem extractTextFromPDF_no_closing_parenthesis (text : jsstring) :
  ~ In 41%N (extractTextFromPDF text).
Proof.
  unfold extractTextFromPDF. intros H.
  apply In_trim in H. apply In_collapse in H. destruct H as [H|H]; [discriminate|].
  apply In_join in H. destruct H as [H | (part & Hpart & Hx)].
  - vm_compute in H. destruct H as [H|[]]. discriminate.
  - apply in_app_or in Hpart.
    pose proof (literalParts_no_close text) as H1.
    pose proof (tjParts_no_close text) as H2.
    rewrite Forall_forall in H1, H2.
    destruct Hpart as [Hp|Hp]; [exact (H1 _ Hp Hx) | exact (H2 _ Hp Hx)].
Qed.

Section NoLiteral.

Lemma matchAll_none (m : captureMatcher) (s : jsstring) :
  (forall c rest n capture, m (c :: rest) = Some (n, capture) -> c = 40%N) ->
  ~ In 40%N s ->
  forall skip, matchAll m skip s = [].
Proof.
  intros Hm. induction s as [|c rest IH]; intros Hs skip; [reflexivity|].
  assert (Hrest : ~ In 40%N rest) by (intros H; apply Hs; now right).
  simpl. destruct skip as [|k]; [|now apply IH].
  destruct (m (c :: rest)) as [[[|k] capture]|] eqn:E; try (now apply IH).
  apply Hm in E. subst c. exfalso. apply Hs. now left.
Qed.

Lemma reParen_head (c : char) (rest : jsstring) (n : nat) (capture : jsstring) :
  reParen (c :: rest) = Some (n, capture) -> c = 40%N.
Proof.
  intros H. apply reParen_capture in H. destruct H as (_ & _ & r & E). congruence.
Qed.

Lemma reTj_head (c : char) (rest : jsstring) (n : nat) (capture : jsstring) :
  reTj (c :: rest) = Some (n, capture) -> c = 40%N.
Proof.
  intros H. apply reTj_capture in H. destruct H as (_ & r & E). congruence.
Qed.

Lemma untilET_unfold (s : jsstring) :
  untilET s =
  if startsWith (lit "ET") (dropWhile isWhiteSpace s)
  then Some ([], wsRun s + 2)
  else
    match s with
    | [] => None
    | c :: rest =>
        match untilET rest with
        | Some (block, n) => Some (c :: block, n)
        | None => None
        end
    end.
Proof. destruct s; reflexivity. Qed.

Lemma untilET_incl (s : jsstring) :
  forall block n x, untilET s = Some (block, n) -> In x block -> In x s.
Proof.
  induction s as [|c rest IH]; intros block n x; rewrite untilET_unfold;
    destruct (startsWith (lit "ET") _); try discriminate;
    try (intros [= <- _] []).
  destruct (untilET rest) as [[b k]|] eqn:E; [|discriminate].
  intros [= <- _] [H|H]; [now left | right; eapply IH; eauto].
Qed.

Lemma skipn_incl (n : nat) (s : jsstring) (x : char) : In x (skipn n s) -> In x s.
Proof.
  revert s. induction n as [|n IH]; intros s; [auto|].
  destruct s as [|c s]; simpl; [auto|]. intros H. right. now apply IH.
Qed.

Lemma reBtEt_capture (s : jsstring) (n : nat) (block : jsstring) :
  ~ In 40%N s -> reBtEt s = Some (n, block) -> ~ In 40%N block.
Proof.
  intros Hs. unfold reBtEt. destruct (startsWith _ s); [|discriminate].
  destruct (untilET _) as [[b k]|] eqn:E; [|discriminate].
  intros [= _ <-] Hin. apply Hs.
  eapply untilET_incl in Hin; [|exact E].
  apply dropWhile_incl in Hin. now apply skipn_incl in Hin.
Qed.

End NoLiteral.

(** X17: a file whose decoded text holds no opening parenthesis gives no
    PDF text at all, and the handler then works on the file read as
    text. *)
Theorem extractTextFromPDF_without_literal (text rawText : jsstring) :
  ~ In 40%N text ->
  extractTextFromPDF text = [] /\
  extractedTextOf (mkFile (extractTextFromPDF text) rawText) = rawText.
Proof.
  intros H.
  assert (E : extractTextFromPDF text = []).
  { unfold extractTextFromPDF, literalParts, tjParts.
    rewrite (matchAll_none reParen text reParen_head H 0). simpl app.
    assert (Hb : flat_map (fun block => filter (fun tjContent => 1 <? length tjContent)
                                               (matchAll reTj 0 block))
                          (matchAll reBtEt 0 text) = []).
    { pose proof (matchAll_Forall reBtEt (fun block => ~ In 40%N block)
                    (fun s => ~ In 40%N s)
                    (fun s n c Hs E => reBtEt_capture s n c Hs E)
                    (fun c s Hs Hin => Hs (or_intror Hin)) text 0 H) as Hf.
      induction Hf as [|block blocks Hblock _ IH]; [reflexivity|].
      simpl. rewrite IH, (matchAll_none reTj block reTj_head Hblock 0). reflexivity. }
    rewrite Hb. reflexivity. }
  split; [exact E|]. rewrite E. reflexivity.
Qed.

Lemma extractTextFromPDF_without_literal_witness :
  ~ In 40%N (lit "BT plain text without literal ET") /\
  extractTextFromPDF (lit "BT plain text without literal ET") = [] /\
  extractedTextOf (mkFile (extractTextFromPDF (lit "BT plain text without literal ET"))
                          (lit "raw")) = lit "raw".
Proof.
  assert (H : ~ In 40%N (lit "BT plain text without literal ET")).
  { vm_compute. intros H. repeat (destruct H as [H|H]; [discriminate H|]). exact H. }
  split; [exact H|].
  exact (extractTextFromPDF_without_literal (lit "BT plain text without literal ET")
           (lit "raw") H).
Defined.

(* ===================================================================== *)
(** * Further properties of the chat handler *)
(* ===================================================================== *)

Section Words.

Lemma whiteSpace_matches (prev : option char) (c : char) (s : jsstring) :
  isWhiteSpace c = true -> exists k, reWhiteSpace prev (c :: s) = Some (S k).
Proof.
  intros H. unfold reWhiteSpace. rewrite wsRun_cons, H. simpl. eauto.
Qed.

(** The pieces of a split on white space hold no white space. *)
Lemma split_words_no_ws (s : jsstring) :
  forall skip prev,
    Forall (fun piece => Forall (fun c => isWhiteSpace c = false) piece)
           (splitRegex reWhiteSpace skip prev s).
Proof.
  induction s as [|c rest IH]; intros skip prev; simpl; [repeat constructor|].
  destruct skip as [|k]; [|apply IH].
  destruct (isWhiteSpace c) eqn:Ec.
  - destruct (whiteSpace_matches prev c rest Ec) as (k & ->).
    constructor; [constructor | apply IH].
  - assert (E : reWhiteSpace prev (c :: rest) = None).
    { unfold reWhiteSpace. now rewrite wsRun_cons, Ec. }
    rewrite E. specialize (IH 0 (Some c)).
    destruct (splitRegex reWhiteSpace 0 (Some c) rest) as [|p ps]; simpl.
    + repeat constructor. exact Ec.
    + inversion IH; subst. constructor; [constructor|]; assumption.
Qed.

Lemma Forall_filter {A} (P : A -> Prop) (p : A -> bool) (l : list A) :
  Forall P l -> Forall P (filter p l).
Proof.
  induction 1 as [|x l Hx _ IH]; simpl; [constructor|].
  destruct (p x); [constructor|]; assumption.
Qed.

End Words.

(** X18: the fallback searches for at most three keywords; each is a
    word of the question of more than three characters, without white
    space. *)
Theorem keywordsOf_words (question : jsstring) :
  length (keywordsOf question) <= 3 /\
  Forall (fun k => 3 < length k /\
                   Forall (fun c => isWhiteSpace c = false) k /\
                   In k (split reWhiteSpace question))
         (keywordsOf question).
Proof.
  unfold keywordsOf. split; [apply firstn_le_length|].
  apply Forall_firstn. apply Forall_forall. intros k Hk.
  apply filter_In in Hk. destruct Hk as [Hin Hlen].
  apply Nat.ltb_lt in Hlen. split; [exact Hlen|]. split; [|exact Hin].
  pose proof (split_words_no_ws question 0 None) as H.
  rewrite Forall_forall in H. now apply H.
Qed.

(** X19: the ILIKE request is not consulted when the full-text search
    finds rows, nor when the question has no keyword: the result is then
    the same whatever that request would answer. *)
Theorem relevantChunks_ignores_fallback
    (toLowerCase : jsstring -> jsstring)
    (textSearch selectOr selectOr' : jsstring -> QueryResult) (question : jsstring) :
  fullTextTier toLowerCase textSearch question <> [] \/ keywordsOf question = [] ->
  relevantChunks toLowerCase textSearch selectOr question =
  relevantChunks toLowerCase textSearch selectOr' question.
Proof.
  intros H. rewrite !relevantChunks_tiers. unfold Spec.retrieveTiers.
  destruct H as [H|H].
  - simpl. destruct (fullTextTier toLowerCase textSearch question); [congruence|].
    reflexivity.
  - unfold substringTier. now rewrite H.
Qed.

Lemma relevantChunks_ignores_fallback_witness :
  let rows := [ChatFixtures.chunk 0 (lit "found by full-text search")] in
  let textSearch := ChatFixtures.answers rows in
  let question := lit "quality management" in
  (fullTextTier ChatFixtures.lowerAscii textSearch question <> [] \/
   keywordsOf question = []) /\
  relevantChunks ChatFixtures.lowerAscii textSearch (ChatFixtures.answers []) question =
  relevantChunks ChatFixtures.lowerAscii textSearch
                 (ChatFixtures.answers [ChatFixtures.chunk 9 (lit "other")]) question.
Proof.
  cbv zeta.
  set (rows := [ChatFixtures.chunk 0 (lit "found by full-text search")]).
  assert (H : fullTextTier ChatFixtures.lowerAscii (ChatFixtures.answers rows)
                           (lit "quality management") <> [] \/
              keywordsOf (lit "quality management") = []).
  { left. vm_compute. discriminate. }
  split; [exact H|].
  exact (relevantChunks_ignores_fallback ChatFixtures.lowerAscii
           (ChatFixtures.answers rows) (ChatFixtures.answers [])
           (ChatFixtures.answers [ChatFixtures.chunk 9 (lit "other")])
           (lit "quality management") H).
Defined.

Section ChatHandler.

Variable toLowerCase : jsstring -> jsstring.
Variable textSearch : jsstring -> QueryResult.
Variable selectOr : jsstring -> QueryResult.
Variable key : option jsstring.
Variable complete : jsstring -> jsstring -> Completion.

Lemma orElse_truthy (value : option jsstring) (fallback : jsstring) :
  fallback <> [] -> orElse value fallback <> [].
Proof.
  intros H. unfold orElse. destruct value as [s|]; [|exact H].
  destruct s; [exact H | discriminate].
Qed.


Lemma serve_unfold (req : ChatRequest) :
  Chat.serve toLowerCase textSearch selectOr key complete req =
  if negb (truthy (question req))
  then Rejected 400 (lit "Question is required")
  else if negb (truthy (orElse key []))
  then Rejected 500 (lit "LOVABLE_API_KEY is not configured")
  else
    let chunks := relevantChunks toLowerCase textSearch selectOr (question req) in
    respond (complete (systemPrompt (fst (buildContext chunks))) (question req))
            (map sourceOf chunks).
Proof.
  unfold Chat.serve, messagesFor.
  destruct (negb (truthy (question req))); [reflexivity|].
  destruct (negb (truthy (orElse key []))); [reflexivity|].
  cbv zeta. now rewrite buildContext_closed.
Qed.

End ChatHandler.



(** X21: an answer is never empty and comes with the sources of the
    chunks retrieved for the question: null when none was retrieved,
    otherwise one source per chunk, in order, five at most, none of whose
    document, section and subsection is empty. *)
Theorem serve_answers
    (toLowerCase : jsstring -> jsstring)
    (textSearch selectOr : jsstring -> QueryResult)
    (key : option jsstring) (complete : jsstring -> jsstring -> Completion)
    (req : ChatRequest) (answer : jsstring) (sources : option (list Source.t)) :
  Chat.serve toLowerCase textSearch selectOr key complete req = Answered answer sources ->
  answer <> [] /\
  match sources with
  | None => relevantChunks toLowerCase textSearch selectOr (question req) = []
  | Some l =>
      l = map sourceOf (relevantChunks toLowerCase textSearch selectOr (question req)) /\
      1 <= length l <= 5 /\
      Forall (fun src => Source.document src <> [] /\ Source.section src <> [] /\
                         Source.subsection src <> []) l
  end.
Proof.
  rewrite serve_unfold.
  destruct (negb (truthy (question req))); [discriminate|].
  destruct (negb (truthy (orElse key []))); [discriminate|].
  cbv zeta. unfold respond.
  destruct (complete _ _) as [content | st].
  2: { destruct (st =? 429); [discriminate|]. destruct (st =? 402); discriminate. }
  intros [= <- <-]. split.
  - apply orElse_truthy. vm_compute. discriminate.
  - pose proof (relevantChunks_tiers toLowerCase textSearch selectOr (question req)) as Ht.
    assert (Hlen : length (relevantChunks toLowerCase textSearch selectOr (question req)) <= 5).
    { rewrite Ht. apply firstn_le_length. }
    destruct (relevantChunks toLowerCase textSearch selectOr (question req)) as [|c cs];
      [reflexivity|].
    cbn [map sourcesOrNull]. split; [reflexivity|].
    change (sourceOf c :: map sourceOf cs) with (map sourceOf (c :: cs)).
    rewrite length_map. split; [simpl in *; lia|].
    apply Forall_map. apply Forall_forall. intros ch _. unfold sourceOf. simpl.
    repeat split; apply orElse_truthy; vm_compute; discriminate.
Qed.

Lemma serve_answers_witness :
  let rows := [ChatFixtures.chunk 0 (lit "found by full-text search")] in
  let complete := fun _ _ : jsstring => Completed (Some (lit "Oui.")) in
  let req := mkChatRequest (lit "quality") None in
  Chat.serve ChatFixtures.lowerAscii (ChatFixtures.answers rows) (ChatFixtures.answers [])
             (Some (lit "key")) complete req =
    Answered (lit "Oui.") (Some (map sourceOf rows)) /\
  lit "Oui." <> [] /\
  map sourceOf rows =
    map sourceOf (relevantChunks ChatFixtures.lowerAscii (ChatFixtures.answers rows)
                                 (ChatFixtures.answers []) (question req)) /\
  1 <= length (map sourceOf rows) <= 5 /\
  Forall (fun src => Source.document src <> [] /\ Source.section src <> [] /\
                     Source.subsection src <> []) (map sourceOf rows).
Proof.
  cbv zeta.
  set (rows := [ChatFixtures.chunk 0 (lit "found by full-text search")]).
  assert (H : Chat.serve ChatFixtures.lowerAscii (ChatFixtures.answers rows)
                (ChatFixtures.answers []) (Some (lit "key"))
                (fun _ _ : jsstring => Completed (Some (lit "Oui.")))
                (mkChatRequest (lit "quality") None) =
              Answered (lit "Oui.") (Some (map sourceOf rows))).
  { vm_compute. reflexivity. }
  split; [exact H|].
  exact (serve_answers ChatFixtures.lowerAscii (ChatFixtures.answers rows)
           (ChatFixtures.answers []) (Some (lit "key"))
           (fun _ _ : jsstring => Completed (Some (lit "Oui.")))
           (mkChatRequest (lit "quality") None) (lit "Oui.") (Some (map sourceOf rows)) H).
Defined.

(* ===================================================================== *)
(** * Properties of the administration page *)
(* ===================================================================== *)

Section Counting.

Import Admin.

Lemma mapGet_mapSet_same (key : jsstring) (value : nat) (m : counts) :
  mapGet key (mapSet key value m) = Some value.
Proof.
  induction m as [|[k v] m IH]; simpl; [now rewrite streq_refl|].
  destruct (streq k key) eqn:E; simpl; now rewrite E.
Qed.

Lemma mapGet_mapSet_other (key key' : jsstring) (value : nat) (m : counts) :
  key' <> key -> mapGet key' (mapSet key value m) = mapGet key' m.
Proof.
  intros Hne. induction m as [|[k v] m IH]; simpl.
  - destruct (streq key key') eqn:E; [|reflexivity].
    apply streq_eq in E. congruence.
  - destruct (streq k key) eqn:E; simpl.
    + apply streq_eq in E. subst k.
      destruct (streq key key') eqn:E'; [|reflexivity].
      apply streq_eq in E'. congruence.
    + now rewrite IH.
Qed.

Lemma mapSet_keys (key : jsstring) (value : nat) (m : counts) :
  map fst (mapSet key value m) =
  if existsb (fun k => streq k key) (map fst m) then map fst m
  else map fst m ++ [key].
Proof.
  induction m as [|[k v] m IH]; simpl; [reflexivity|].
  destruct (streq k key) eqn:E; simpl; [reflexivity|].
  rewrite IH. now destruct (existsb _ _).
Qed.

End Counting.

(** X22: the number of chunks shown for a document is the number of
    rows returned with its identifier; and every identifier returned has
    exactly one entry in the map. *)
Theorem chunkStats_counts (document_ids : list jsstring) (documentId : jsstring) :
  Admin.getOrZero (Admin.chunkStats document_ids) documentId =
    length (filter (fun d => streq d documentId) document_ids) /\
  NoDup (map fst (Admin.chunkStats document_ids)) /\
  (forall d, In d (map fst (Admin.chunkStats document_ids)) <-> In d document_ids).
Proof.
  unfold Admin.chunkStats.
  apply (fold_left_invariant
           (fun m done =>
              Admin.getOrZero m documentId =
                length (filter (fun d => streq d documentId) done) /\
              NoDup (map fst m) /\
              (forall d, In d (map fst m) <-> In d done))).
  - simpl. repeat split; try constructor; tauto.
  - intros m done x (Hc & Hn & Hk). unfold Admin.countStep.
    rewrite filter_app, length_app. simpl.
    split; [|split].
    + unfold Admin.getOrZero at 1.
      destruct (streq x documentId) eqn:E.
      * apply streq_eq in E. subst x. rewrite mapGet_mapSet_same. simpl. lia.
      * rewrite mapGet_mapSet_other.
        -- fold (Admin.getOrZero m documentId). simpl. lia.
        -- intros ->. now rewrite streq_refl in E.
    + rewrite mapSet_keys. destruct (existsb _ _) eqn:Ee; [exact Hn|].
      apply NoDup_app; [exact Hn | repeat constructor; auto |].
      intros d Hd [Ex|[]]. subst d.
      assert (Hex : existsb (fun k => streq k x) (map fst m) = true).
      { apply existsb_exists. exists x. split; [exact Hd | apply streq_refl]. }
      congruence.
    + intros d. rewrite mapSet_keys, in_app_iff. simpl.
      destruct (existsb _ _) eqn:Ee.
      * apply existsb_exists in Ee. destruct Ee as (k & Hkin & Hkeq).
        apply streq_eq in Hkeq. subst k. rewrite Hk. rewrite Hk in Hkin.
        split; [tauto|]. intros [H|[<-|[]]]; assumption.
      * rewrite in_app_iff. simpl. now rewrite Hk.
Qed.

Section Title.

Import Admin.

Lemma stripExtension_split (name : jsstring) :
  exists ext,
    name = stripExtension name ++ ext /\
    (ext = [] \/
     exists e, ext = 46%N :: e /\ e <> [] /\
               Forall (fun x => x <> 47%N /\ x <> 46%N) e).
Proof.
  induction name as [|c rest IH]; [exists []; auto|].
  simpl.
  destruct (N.eqb c 46 && truthy rest &&
            forallb (fun x => negb (N.eqb x 47) && negb (N.eqb x 46)) rest) eqn:E.
  - exists (c :: rest). split; [reflexivity|]. right.
    apply andb_prop in E. destruct E as [E E3].
    apply andb_prop in E. destruct E as [E1 E2].
    apply N.eqb_eq in E1. subst c. exists rest. split; [reflexivity|].
    split; [now apply truthy_true|].
    apply Forall_forall. intros x Hx. rewrite forallb_forall in E3.
    specialize (E3 x Hx). apply andb_prop in E3. destruct E3 as [Ea Eb].
    apply negb_true_iff in Ea, Eb. apply N.eqb_neq in Ea, Eb. now split.
  - destruct IH as (ext & Hn & Hext). exists ext. split; [|exact Hext].
    simpl. now rewrite <- Hn.
Qed.

Lemma underscoresToSpaces_clean (s : jsstring) : ~ In 95%N (underscoresToSpaces s).
Proof.
  unfold underscoresToSpaces. intros H. apply in_map_iff in H.
  destruct H as (c & Hc & _). destruct (N.eqb c 95) eqn:E; [discriminate|].
  apply N.eqb_neq in E. congruence.
Qed.

End Title.

Section Extension.

Import Admin.

(** The extension of a name: what follows its last dot, when that is not
    empty and holds no slash. *)
Lemma stripExtension_base (base ext : jsstring) :
  ext <> [] ->
  Forall (fun x => x <> 47%N /\ x <> 46%N) ext ->
  stripExtension (base ++ 46%N :: ext) = base.
Proof.
  intros Hne Hext.
  assert (Hall : forallb (fun x => negb (N.eqb x 47) && negb (N.eqb x 46)) ext = true).
  { apply forallb_forall. intros x Hx. rewrite Forall_forall in Hext.
    destruct (Hext x Hx) as [H1 H2].
    apply N.eqb_neq in H1, H2. now rewrite H1, H2. }
  induction base as [|b base IH]; cbn [app stripExtension].
  - rewrite Hall. destruct ext; [congruence | reflexivity].
  - assert (Hdot : forallb (fun x => negb (N.eqb x 47) && negb (N.eqb x 46))
                           (base ++ 46%N :: ext) = false).
    { rewrite forallb_app. cbn [forallb]. rewrite N.eqb_refl. cbn.
      now rewrite andb_false_r. }
    rewrite Hdot, andb_false_r, IH. reflexivity.
Qed.

End Extension.

(** X23: the title stored for an uploaded file is its name without its
    extension, every underscore turned into a space.  The extension is
    what follows the last dot of the name, when that is not empty and
    holds no slash: such a name loses its last dot and what follows, and
    any other name is kept whole.  The title holds no underscore. *)
Theorem titleOf_name (name : jsstring) :
  (forall base ext,
      name = base ++ 46%N :: ext ->
      ext <> [] ->
      Forall (fun x => x <> 47%N /\ x <> 46%N) ext ->
      Admin.titleOf name = map (fun c => if N.eqb c 95 then 32%N else c) base) /\
  ((forall base ext,
       name = base ++ 46%N :: ext ->
       ext = [] \/ Exists (fun x => x = 47%N \/ x = 46%N) ext) ->
   Admin.titleOf name = map (fun c => if N.eqb c 95 then 32%N else c) name) /\
  ~ In 95%N (Admin.titleOf name).
Proof.
  split; [|split].
  - intros base ext -> Hne Hext. unfold Admin.titleOf.
    now rewrite stripExtension_base.
  - intros Hno. unfold Admin.titleOf.
    destruct (stripExtension_split name) as (ext & Hn & [-> | (e & -> & Hne & He)]).
    + rewrite app_nil_r in Hn. now rewrite <- Hn.
    + exfalso. destruct (Hno _ _ Hn) as [-> | Hex]; [congruence|].
      apply Exists_exists in Hex. destruct Hex as (x & Hx & Hbad).
      rewrite Forall_forall in He. destruct (He x Hx) as [H1 H2].
      destruct Hbad; congruence.
  - apply underscoresToSpaces_clean.
Qed.

Lemma titleOf_name_witness :
  let name := lit "ISO_9001.v2015_fr.pdf" in
  let base := lit "ISO_9001.v2015_fr" in
  let ext := lit "pdf" in
  name = base ++ 46%N :: ext /\
  ext <> [] /\
  Forall (fun x => x <> 47%N /\ x <> 46%N) ext /\
  Admin.titleOf name = lit "ISO 9001.v2015 fr" /\
  Admin.titleOf name = map (fun c => if N.eqb c 95 then 32%N else c) base.
Proof.
  cbv zeta.
  assert (H1 : lit "ISO_9001.v2015_fr.pdf" = lit "ISO_9001.v2015_fr" ++ 46%N :: lit "pdf").
  { vm_compute. reflexivity. }
  assert (H2 : lit "pdf" <> []).
  { vm_compute. discriminate. }
  assert (H3 : Forall (fun x => x <> 47%N /\ x <> 46%N) (lit "pdf")).
  { vm_compute. repeat constructor; discriminate. }
  split; [exact H1|]. split; [exact H2|]. split; [exact H3|].
  split; [vm_compute; reflexivity|].
  exact (proj1 (titleOf_name (lit "ISO_9001.v2015_fr.pdf"))
           (lit "ISO_9001.v2015_fr") (lit "pdf") H1 H2 H3).
Defined.

(** X24: a chunk is either one sentence of the text, trimmed, however
    long, or holds at most [maxChunkSize + 1] characters: the test of the
    loop does not count the space that joins the last sentence. *)
Theorem chunkText_chunk_length (text : jsstring) (maxChunkSize : nat) (c : jsstring) :
  In c (chunkText text maxChunkSize) ->
  In c (map trim (split reSentenceGap text)) \/ length c <= S maxChunkSize.
Proof. apply chunkText_length. Qed.

Lemma chunkText_chunk_length_witness :
  In (lit "Aaaa. Bbb.") (chunkText (lit "Aaaa. Bbb. C.") 9) /\
  (In (lit "Aaaa. Bbb.") (map trim (split reSentenceGap (lit "Aaaa. Bbb. C."))) \/
   length (lit "Aaaa. Bbb.") <= 10).
Proof.
  assert (H : In (lit "Aaaa. Bbb.") (chunkText (lit "Aaaa. Bbb. C.") 9)).
  { vm_compute. left. reflexivity. }
  split; [exact H|].
  exact (chunkText_chunk_length (lit "Aaaa. Bbb. C.") 9 (lit "Aaaa. Bbb.") H).
Defined.

(* ===================================================================== *)
(** * A text of white space *)
(* ===================================================================== *)

Lemma chunkText_blank (text : jsstring) (maxChunkSize : nat) :
  hasNonWs text = false -> chunkText text maxChunkSize = [].
Proof.
  intros H. pose proof (chunkText_nonblank_all text maxChunkSize) as Hall.
  pose proof (chunkText_keeps_visible_characters_aux text maxChunkSize) as Hn.
  apply nonWs_nil in H. rewrite H in Hn.
  destruct (chunkText text maxChunkSize) as [|c cs]; [reflexivity|].
  inversion Hall as [|? ? (_ & Hc) _]; subst.
  simpl in Hn. rewrite nonWs_app in Hn. apply app_eq_nil in Hn.
  destruct Hn as [Hn _]. apply nonWs_nil in Hn. congruence.
Qed.

Lemma extractSections_blank (text : jsstring) :
  hasNonWs text = false -> extractSections text = [].
Proof.
  intros H. pose proof (extractSections_contents_aux text) as Hall.
  pose proof (extractSections_nonWs text) as Hn.
  apply nonWs_nil in H. rewrite H in Hn.
  destruct (extractSections text) as [|sec secs]; [reflexivity|].
  inversion Hall as [|? ? (Hc & _) _]; subst.
  simpl in Hn. rewrite nonWs_app in Hn. apply app_eq_nil in Hn.
  destruct Hn as [Hn _]. apply nonWs_nil in Hn. congruence.
Qed.

(** X25: a file of 50 characters or more that are all white space is not
    refused: when no request fails the handler answers success with no
    chunk and no section, the chunks the document had are deleted, and
    the document is marked processed. *)
Theorem serve_blank_text (req : ProcessRequest) (file : File) (db : Database) :
  50 <= length (extractedTextOf file) ->
  hasNonWs (extractedTextOf file) = false ->
  exists db',
    ProcessDocument.serve noFaults req (Downloaded file) db =
      (Return (Success 0 (length (extractedTextOf file)) 0), db') /\
    chunksOf (documentId req) db' = [] /\
    Forall (fun doc => ProcessDocument.id doc = documentId req -> processed doc = true)
           (iso_documents db').
Proof.
  intros Hlen Hblank.
  rewrite serve_noFaults_long by exact Hlen.
  rewrite (extractSections_blank _ Hblank).
  assert (E : buildChunks (documentId req) [] (extractedTextOf file) = []).
  { unfold buildChunks. now rewrite (chunkText_blank _ _ Hblank). }
  rewrite E. eexists. split; [reflexivity|]. split.
  - unfold chunksOf, otherChunks. cbn [iso_chunks]. rewrite app_nil_r.
    apply filter_filter_neg.
  - cbn [iso_documents]. unfold afterUpdate. simpl. apply Forall_map.
    apply Forall_forall. intros doc _.
    destruct (streq (ProcessDocument.id doc) (documentId req)) eqn:Es; simpl.
    + reflexivity.
    + intros Heq. apply streq_eq in Heq. congruence.
Qed.

Lemma serve_blank_text_witness :
  let file := mkFile [] (repeat 32%N 60) in
  50 <= length (extractedTextOf file) /\
  hasNonWs (extractedTextOf file) = false /\
  exists db',
    ProcessDocument.serve noFaults Fixtures.request (Downloaded file) Fixtures.database =
      (Return (Success 0 (length (extractedTextOf file)) 0), db') /\
    chunksOf (documentId Fixtures.request) db' = [] /\
    Forall (fun doc => ProcessDocument.id doc = documentId Fixtures.request ->
                       processed doc = true)
           (iso_documents db').
Proof.
  cbv zeta.
  assert (H1 : 50 <= length (extractedTextOf (mkFile [] (repeat 32%N 60)))).
  { vm_compute. lia. }
  assert (H2 : hasNonWs (extractedTextOf (mkFile [] (repeat 32%N 60))) = false).
  { vm_compute. reflexivity. }
  split; [exact H1|]. split; [exact H2|].
  exact (serve_blank_text Fixtures.request (mkFile [] (repeat 32%N 60))
           Fixtures.database H1 H2).
Defined.
